(** * Scale-factor preparation and observation filtering of the methane
      inversion workflow

    Shallow embedding of [src/inversion_scripts/utils.py] and
    [src/kf_scripts/prepare_sf.py].

    Numbers.  Python floats are modelled by exact rationals ([Qc]); rounding
    and overflow are not modelled.  A cell of an xarray field is [option Qc]
    where [None] is NaN: NaN is absorbing for the elementwise operations,
    compares false, and is skipped by xarray's [.sum()] (whose [skipna]
    default is true for float data).  The input files are taken to hold
    finite numbers or NaN.

    Arrays.  A 2-D array is a list of rows.  Elementwise operations pair the
    cells of equal position ([zip_with]); the fields of one run live on one
    grid. *)

From Stdlib Require Import ZArith QArith Qcanon Field Lia String Ascii.
From Stdlib Require Import Sorted.
From stdpp Require Import base tactics option list numbers strings gmap pretty.

Local Open Scope Qc_scope.

(** ** Cells and grids *)

Module Cell.

(** One float of a field; [None] is NaN. *)
Definition cell : Type := option Qc.

Definition nan : cell := None.

Definition mul (x y : cell) : cell :=
  match x, y with
  | Some a, Some b => Some (a * b)
  | _, _ => None
  end.

Definition add (x y : cell) : cell :=
  match x, y with
  | Some a, Some b => Some (a + b)
  | _, _ => None
  end.

(** numpy's elementwise [/].  A zero divisor gives NaN for [0 / 0]; for a
    nonzero dividend numpy gives an infinity, which has no value in this
    model: [prepare_sf] only ever divides zero by zero (lemma
    [scaled_zero_where_original_zero] below). *)
Definition div (x y : cell) : cell :=
  match x, y with
  | Some a, Some b => if decide (b = 0) then None else Some (a / b)
  | _, _ => None
  end.

(** A boolean entering float arithmetic: [True] is 1, [False] is 0. *)
Definition of_bool (b : bool) : cell := Some (if b then 1 else 0).

(** What a cell adds to a NaN-skipping sum. *)
Definition nan_to_zero (x : cell) : Qc := default 0 x.

(** [x <= y] on floats: false as soon as one side is NaN. *)
Definition leb (x y : cell) : bool :=
  match x, y with
  | Some a, Some b => bool_decide (a <= b)
  | _, _ => false
  end.

End Cell.

Import Cell.

Abbreviation grid A := (list (list A)).

Definition grid_map {A B} (f : A -> B) (g : grid A) : grid B :=
  map (map f) g.

Definition grid_zip {A B C} (f : A -> B -> C) (g : grid A) (h : grid B)
  : grid C :=
  zip_with (zip_with f) g h.

Definition grid_lookup {A} (g : grid A) (i j : nat) : option A :=
  g !! i ≫= (.!! j).

(** [field * field], [field + field], [scalar * field], [field * scalar],
    [field / field] of xarray. *)
Definition fmul : grid cell -> grid cell -> grid cell := grid_zip mul.
Definition fadd : grid cell -> grid cell -> grid cell := grid_zip add.
Definition fdiv : grid cell -> grid cell -> grid cell := grid_zip div.
Definition smul (c : Qc) (g : grid cell) : grid cell :=
  grid_map (mul (Some c)) g.
Definition fmuls (g : grid cell) (c : Qc) : grid cell :=
  grid_map (fun x => mul x (Some c)) g.
Definition fmul_mask (g : grid cell) (mask : grid bool) : grid cell :=
  grid_zip (fun x b => mul x (of_bool b)) g mask.

(** [.sum()] over every cell, NaN skipped. *)
Definition row_sum (r : list cell) : Qc :=
  foldr (fun x acc => nan_to_zero x + acc) 0 r.

Definition grid_sum (g : grid cell) : Qc :=
  foldr (fun r acc => row_sum r + acc) 0 g.

(** ** Exceptions *)

(** The built-in exceptions the two files can raise. *)
Inductive exn : Type :=
| FileNotFoundError
| IndexError
| KeyError
| ValueError
| ZeroDivisionError.

Definition result (A : Type) : Type := exn + A.

(** ** utils.py: sum_total_emissions *)

Definition s_per_d : Qc := Q2Qc 86400.
Definition d_per_y : Qc := Q2Qc 365.
Definition tg_per_kg : Qc := Q2Qc (1 # 1000000000).

Definition sum_total_emissions
  (emissions areas : grid cell) (mask : grid bool) : Qc :=
  let emissions_in_kg_per_s := fmul_mask (fmul emissions areas) mask in
  let total := grid_sum emissions_in_kg_per_s * s_per_d * d_per_y * tg_per_kg in
  total.

(** The total as the claim words it: a sum over the cell positions [(i, j)]
    of the grid, each position contributing the product of the three fields
    there (nothing where the product is NaN). *)
Definition sum_upto (n : nat) (f : nat -> Qc) : Qc :=
  foldr (fun i acc => f i + acc) 0 (seq 0 n).

Definition weighted_cell
  (emissions areas : grid cell) (mask : grid bool) (i j : nat) : Qc :=
  match grid_lookup emissions i j, grid_lookup areas i j,
        grid_lookup mask i j with
  | Some e, Some a, Some b => nan_to_zero (mul (mul e a) (of_bool b))
  | _, _, _ => 0
  end.

Definition row_length {A} (g : grid A) (i : nat) : nat :=
  match g !! i with Some r => length r | None => 0%nat end.

Definition area_weighted_masked_sum
  (emissions areas : grid cell) (mask : grid bool) : Qc :=
  sum_upto (length emissions) (fun i =>
    sum_upto (row_length emissions i) (fun j =>
      weighted_cell emissions areas mask i j)).

(** ** utils.py: filter_tropomi *)

(** The swath arrays the filter reads: four on (scanline, ground pixel) and
    the corner longitudes on (scanline, ground pixel, corner); [time] holds
    timestamps. *)
Record tropomi_data : Type := {
  longitude : grid cell;
  latitude : grid cell;
  time : grid Z;
  qa_value : grid cell;
  longitude_bounds : grid (list cell)
}.

(** [x > c], [x < c], [x >= c] on floats: false on NaN. *)
Definition gtb (x : cell) (c : Qc) : bool :=
  match x with
  | Some a => bool_decide (c < a)
  | None => false
  end.

Definition ltb (x : cell) (c : Qc) : bool :=
  match x with
  | Some a => bool_decide (a < c)
  | None => false
  end.

Definition geb (x : cell) (c : Qc) : bool :=
  match x with
  | Some a => bool_decide (c <= a)
  | None => false
  end.

(** Maximum and minimum of two floats, NaN winning, and their difference. *)
Definition fmax (x y : cell) : cell :=
  match x, y with
  | Some a, Some b => Some (if bool_decide (a <= b) then b else a)
  | _, _ => None
  end.

Definition fmin (x y : cell) : cell :=
  match x, y with
  | Some a, Some b => Some (if bool_decide (a <= b) then a else b)
  | _, _ => None
  end.

Definition sub (x y : cell) : cell :=
  match x, y with
  | Some a, Some b => Some (a - b)
  | _, _ => None
  end.

(** [ptp] of one vector: maximum minus minimum; numpy refuses an empty
    one. *)
Definition ptp (v : list cell) : result cell :=
  match v with
  | [] => inl ValueError
  | x :: v' => inr (sub (foldr fmax x v') (foldr fmin x v'))
  end.

(** Apply a function that may raise to every element, left to right. *)
Fixpoint try_map {A B} (f : A -> result B) (l : list A) : result (list B) :=
  match l with
  | [] => inr []
  | x :: l' =>
      match f x with
      | inl e => inl e
      | inr y =>
          match try_map f l' with
          | inl e => inl e
          | inr ys => inr (y :: ys)
          end
      end
  end.

(** [a.ptp(axis=2)]. *)
Definition ptp_axis2 (a : grid (list cell)) : result (grid cell) :=
  try_map (try_map ptp) a.

(** [np.where(b)] of a 2-D boolean array: the row indices and the column
    indices of the true entries, in row-major order. *)
Definition true_positions (b : grid bool) : list (nat * nat) :=
  concat (imap (fun i row =>
            omap id (imap (fun j x => if x : bool then Some (i, j) else None)
                       row)) b).

Definition np_where (b : grid bool) : list nat * list nat :=
  ((true_positions b).*1, (true_positions b).*2).

Definition band : grid bool -> grid bool -> grid bool := grid_zip andb.

Definition filter_tropomi (tropomi_data : tropomi_data) (xlim ylim : Qc * Qc)
  (startdate enddate : Z) : result (list nat * list nat) :=
  let c1 := grid_map (fun x => gtb x xlim.1) (longitude tropomi_data) in
  let c2 := grid_map (fun x => ltb x xlim.2) (longitude tropomi_data) in
  let c3 := grid_map (fun y => gtb y ylim.1) (latitude tropomi_data) in
  let c4 := grid_map (fun y => ltb y ylim.2) (latitude tropomi_data) in
  let c5 := grid_map (fun t => bool_decide (startdate <= t)%Z)
              (time tropomi_data) in
  let c6 := grid_map (fun t => bool_decide (t <= enddate)%Z)
              (time tropomi_data) in
  let c7 := grid_map (fun q => geb q (Q2Qc (1 # 2))) (qa_value tropomi_data) in
  match ptp_axis2 (longitude_bounds tropomi_data) with
  | inl e => inl e
  | inr spread =>
      let c8 := grid_map (fun s => ltb s (Q2Qc 100)) spread in
      inr (np_where
             (band (band (band (band (band (band (band c1 c2) c3) c4) c5) c6)
                      c7) c8))
  end.

(** The corner longitudes are numbers whose largest and smallest differ by
    less than [c]. *)
Definition spread_below (corners : list cell) (c : Qc) : Prop :=
  exists (qs : list Qc) (lo hi : Qc),
    corners = map Some qs
    /\ lo ∈ qs /\ hi ∈ qs
    /\ (forall q, q ∈ qs -> lo <= q /\ q <= hi)
    /\ hi - lo < c.

(** The pixel at [(i, j)] meets every criterion of the filter. *)
Definition passes (d : tropomi_data) (xlim ylim : Qc * Qc)
  (startdate enddate : Z) (i j : nat) : Prop :=
  exists (lon lat qa : Qc) (t : Z) (corners : list cell),
    grid_lookup (longitude d) i j = Some (Some lon)
    /\ grid_lookup (latitude d) i j = Some (Some lat)
    /\ grid_lookup (time d) i j = Some t
    /\ grid_lookup (qa_value d) i j = Some (Some qa)
    /\ grid_lookup (longitude_bounds d) i j = Some corners
    /\ xlim.1 < lon /\ lon < xlim.2
    /\ ylim.1 < lat /\ lat < ylim.2
    /\ (startdate <= t)%Z /\ (t <= enddate)%Z
    /\ Q2Qc (1 # 2) <= qa
    /\ spread_below corners (Q2Qc 100).

(** ** utils.py: filter_obs_with_mask, count_obs_in_mask *)

(** The mask: its [lat] and [lon] coordinates and its boolean values on
    (lat, lon). *)
Record mask_array : Type := {
  mask_lat : list Qc;
  mask_lon : list Qc;
  mask_values : grid bool
}.

(** A row of the dataframe: its index label, [lat], [lon] and the other
    columns. *)
Record observation (A : Type) : Type := {
  obs_index : Z;
  obs_lat : Qc;
  obs_lon : Qc;
  obs_other : A
}.

Arguments obs_index {A}.
Arguments obs_lat {A}.
Arguments obs_lon {A}.
Arguments obs_other {A}.

Definition Qcabs (x : Qc) : Qc := if bool_decide (0 <= x) then x else - x.

(** [a.argmin()]: the first position of the smallest entry. *)
Fixpoint argmin_from (best_i : nat) (best : Qc) (i : nat) (l : list Qc)
  : nat :=
  match l with
  | [] => best_i
  | x :: l' =>
      if bool_decide (x < best) then argmin_from i x (S i) l'
      else argmin_from best_i best (S i) l'
  end.

Definition argmin (l : list Qc) : result nat :=
  match l with
  | [] => inl ValueError
  | x :: l' => inr (argmin_from 0 x 1 l')
  end.

(** [np.abs(grid - q).argmin()]. *)
Definition nearest (reference_grid : list Qc) (q : Qc) : result nat :=
  argmin (map (fun g => Qcabs (g - q)) reference_grid).

(** [mask[ref_lat_ind, ref_lon_ind] == 0] for row [r]. *)
Definition not_in_mask {A} (mask : mask_array) (r : observation A)
  : result bool :=
  match nearest (mask_lat mask) (obs_lat r) with
  | inl e => inl e
  | inr ref_lat_ind =>
      match nearest (mask_lon mask) (obs_lon r) with
      | inl e => inl e
      | inr ref_lon_ind =>
          match grid_lookup (mask_values mask) ref_lat_ind ref_lon_ind with
          | None => inl IndexError
          | Some b => inr (negb b)
          end
      end
  end.

(** The loop of lines 78-85 over the rows at positions [k, k + 1, ...]. *)
Fixpoint bad_indices {A} (mask : mask_array) (k : nat)
  (rows : list (observation A)) : result (list nat) :=
  match rows with
  | [] => inr []
  | r :: rows' =>
      match not_in_mask mask r with
      | inl e => inl e
      | inr bad =>
          match bad_indices mask (S k) rows' with
          | inl e => inl e
          | inr bad_ind => inr (if bad then k :: bad_ind else bad_ind)
          end
      end
  end.

(** [df.index[positions]]. *)
Definition index_at {A} (df : list (observation A)) (positions : list nat)
  : list Z :=
  omap (fun k => obs_index <$> df !! k) positions.

(** [df.drop(labels)]: the rows whose index label is none of [labels]. *)
Definition drop {A} (df : list (observation A)) (labels : list Z)
  : list (observation A) :=
  filter (fun r => obs_index r ∉ labels) df.

Definition filter_obs_with_mask {A} (mask : mask_array)
  (df : list (observation A)) : result (list (observation A)) :=
  match bad_indices mask 0 df with
  | inl e => inl e
  | inr bad_ind =>
      let df_filtered := df in
      inr (drop df_filtered (index_at df_filtered bad_ind))
  end.

Definition count_obs_in_mask {A} (mask : mask_array)
  (df : list (observation A)) : result nat :=
  match filter_obs_with_mask mask df with
  | inl e => inl e
  | inr df_filtered => inr (length df_filtered)
  end.

(** The rows whose nearest grid cell has a nonzero mask value, in their
    order. *)
Definition lies_in_mask {A} (mask : mask_array) (r : observation A) : bool :=
  match not_in_mask mask r with
  | inr false => true
  | _ => false
  end.

Definition rows_in_mask {A} (mask : mask_array) (df : list (observation A))
  : list (observation A) :=
  List.filter (lies_in_mask mask) df.

(** ** Files and the world of prepare_sf.py *)

(** A scale-factor dataset ([unit_sf.nc], [gridded_posterior.nc],
    [ScaleFactors.nc]): the [ScaleFactor] variable on (lat, lon) and the
    attribute dictionaries of [lat], [lon] and [ScaleFactor]. *)
Record scale_factors : Type := {
  ScaleFactor : grid cell;
  lat_attrs : gmap string string;
  lon_attrs : gmap string string;
  ScaleFactor_attrs : gmap string string
}.

(** A NetCDF file, by the variables the program reads from it: HEMCO
    diagnostics hold [AREA] on (lat, lon) and [EmisCH4_Total] on
    (time, lat, lon); a state-vector file holds [StateVector]. *)
Inductive file : Type :=
| HemcoDiagnostics (AREA : grid cell) (EmisCH4_Total : list (grid cell))
| ScaleFactors (sf : scale_factors)
| StateVectorFile (StateVector : grid cell).

(** The two lines the program prints. *)
Inductive message : Type :=
| UsedHemcoUpTo (p : Z)
| TotalPriorEmission (total_emis : Qc).

(** What the program sees of its environment: directory listings in the
    order [os.listdir] gives them, YAML files (integer entries), NetCDF
    files, the paths handed to [xr.load_dataset] so far and the lines
    printed so far, oldest first. *)
Record world : Type := {
  w_listdir : gmap string (list string);
  w_yaml : gmap string (gmap string Z);
  w_netcdf : gmap string file;
  w_loads : list string;
  w_stdout : list message
}.

(** Computations that read and write the world and may raise. *)
Definition M (A : Type) : Type := world -> exn + (A * world).

Definition ret {A} (a : A) : M A := fun w => inr (a, w).

Definition bind {A B} (m : M A) (f : A -> M B) : M B :=
  fun w => match m w with
           | inl e => inl e
           | inr (a, w') => f a w'
           end.

Definition raise {A} (e : exn) : M A := fun _ => inl e.

Definition lift {A} (r : result A) : M A :=
  match r with
  | inl e => raise e
  | inr a => ret a
  end.

Notation "x <- m ;; k" := (bind m (fun x => k))
  (at level 100, m at next level, right associativity,
   format "'[v' x  <-  m  ;;  '/' k ']'").
(** [for x in xs: s = body x s]. *)
Fixpoint for_each {A S} (xs : list A) (body : A -> S -> M S) (s : S) : M S :=
  match xs with
  | [] => ret s
  | x :: xs' => s' <- body x s ;; for_each xs' body s'
  end.

(** *** Strings and paths *)

(** [sub in s]. *)
Fixpoint contains (sub s : string) : bool :=
  String.prefix sub s ||
  match s with
  | EmptyString => false
  | String _ s' => contains sub s'
  end.

(** [os.path.join a b] (POSIX). *)
Definition path_join (a b : string) : string :=
  if String.prefix "/" b then b
  else if String.eqb a "" then b
  else if String.eqb (String.substring (String.length a - 1) 1 a) "/"
       then a ++ b
       else a ++ "/" ++ b.

(** The order of [list.sort()] on strings: by code point. *)
Definition string_le (a b : string) : Prop := String.leb a b = true.

(** [list.sort()] on strings: ascending. *)
Fixpoint insert_sorted (x : string) (l : list string) : list string :=
  match l with
  | [] => [x]
  | y :: l' => if String.leb x y then x :: l else y :: insert_sorted x l'
  end.

Definition sort_strings (l : list string) : list string :=
  foldr insert_sorted [] l.

(** [range(n)]. *)
Definition range (n : Z) : list nat := seq 0 (Z.to_nat n).

(** *** Reading and writing *)

Definition listdir (dir : string) : M (list string) := fun w =>
  match w_listdir w !! dir with
  | Some names => inr (names, w)
  | None => inl FileNotFoundError
  end.

Definition load_yaml (path : string) : M (gmap string Z) := fun w =>
  match w_yaml w !! path with
  | Some d => inr (d, w)
  | None => inl FileNotFoundError
  end.

(** The world after [xr.load_dataset] was handed [paths], in this order. *)
Definition loaded (paths : list string) (w : world) : world :=
  {| w_listdir := w_listdir w; w_yaml := w_yaml w; w_netcdf := w_netcdf w;
     w_loads := w_loads w ++ paths; w_stdout := w_stdout w |}.

Definition load_dataset (path : string) : M file := fun w =>
  match w_netcdf w !! path with
  | Some f => inr (f, loaded [path] w)
  | None => inl FileNotFoundError
  end.

(** [ds.to_netcdf(path)]; the target directory exists. *)
Definition written (path : string) (ds : file) (w : world) : world :=
  {| w_listdir := w_listdir w; w_yaml := w_yaml w;
     w_netcdf := <[path := ds]> (w_netcdf w);
     w_loads := w_loads w; w_stdout := w_stdout w |}.

Definition to_netcdf (ds : file) (path : string) : M unit := fun w =>
  inr (tt, written path ds w).

(** The world after [lines] were printed. *)
Definition printed (lines : list message) (w : world) : world :=
  {| w_listdir := w_listdir w; w_yaml := w_yaml w; w_netcdf := w_netcdf w;
     w_loads := w_loads w; w_stdout := w_stdout w ++ lines |}.

Definition print (m : message) : M unit := fun w => inr (tt, printed [m] w).

(** [l[0]] of a list. *)
Definition first {A} (l : list A) : result A :=
  match l with
  | [] => inl IndexError
  | x :: _ => inr x
  end.

(** [l[i]] for [i >= 0]. *)
Definition item {A} (l : list A) (i : nat) : result A :=
  match l !! i with
  | Some x => inr x
  | None => inl IndexError
  end.

Definition dict_get (d : gmap string Z) (key : string) : result Z :=
  match d !! key with
  | Some v => inr v
  | None => inl KeyError
  end.

(** [ds["AREA"]]. *)
Definition get_AREA (ds : file) : result (grid cell) :=
  match ds with
  | HemcoDiagnostics a _ => inr a
  | _ => inl KeyError
  end.

(** [ds["EmisCH4_Total"].isel(time=0, drop=True)]. *)
Definition get_EmisCH4_Total_time0 (ds : file) : result (grid cell) :=
  match ds with
  | HemcoDiagnostics _ e => first e
  | _ => inl KeyError
  end.

(** [ds["StateVector"]]. *)
Definition get_StateVector (ds : file) : result (grid cell) :=
  match ds with
  | StateVectorFile l => inr l
  | _ => inl KeyError
  end.

(** [ds["ScaleFactor"]]. *)
Definition get_ScaleFactor (ds : file) : result (grid cell) :=
  match ds with
  | ScaleFactors s => inr (ScaleFactor s)
  | _ => inl KeyError
  end.

(** [ds["ScaleFactor"] = v]: the variable is replaced by the result of an
    arithmetic expression, which carries no attributes. *)
Definition set_ScaleFactor (ds : file) (v : grid cell) : file :=
  match ds with
  | ScaleFactors s =>
      ScaleFactors {| ScaleFactor := v; lat_attrs := lat_attrs s;
                      lon_attrs := lon_attrs s; ScaleFactor_attrs := ∅ |}
  | _ => ds
  end.

(** Lines 117-122: the attributes HEMCO wants. *)
Definition set_hemco_attrs (ds : file) : file :=
  match ds with
  | ScaleFactors s =>
      ScaleFactors
        {| ScaleFactor := ScaleFactor s;
           lat_attrs :=
             <["long_name" := "Latitude"]>
               (<["units" := "degrees_north"]> (lat_attrs s));
           lon_attrs :=
             <["long_name" := "Longitude"]>
               (<["units" := "degrees_east"]> (lon_attrs s));
           ScaleFactor_attrs := <["units" := "1"]> (ScaleFactor_attrs s) |}
  | _ => ds
  end.

(** ** prepare_sf.py *)

(** *** The region-of-interest mask (lines 42-49) *)

(** Maximum of two floats, NaN ignored. *)
Definition fmax_nan (x y : cell) : cell :=
  match x, y with
  | Some a, Some b => Some (if bool_decide (a <= b) then b else a)
  | Some a, None => Some a
  | None, _ => y
  end.

(** [np.nanmax(a)]: NaN when every entry is NaN, an error on no entry. *)
Definition nanmax (a : grid cell) : result cell :=
  match concat a with
  | [] => inl ValueError
  | xs => inr (foldr fmax_nan nan xs)
  end.

(** [int(x)] of a float: towards zero; NaN cannot be converted. *)
Definition int_of_float (x : cell) : result Z :=
  match x with
  | Some q => inr (Z.quot (Qnum (this q)) (Zpos (Qden (this q))))
  | None => inl ValueError
  end.

Definition sub_int (x : cell) (k : Z) : cell :=
  match x with
  | Some a => Some (a - Qc_of_Z k)
  | None => None
  end.

(** [last_ROI_element] and [mask] from the labels and the configuration. *)
Definition last_ROI_element (state_vector_labels : grid cell)
  (config : gmap string Z) : result Z :=
  match nanmax state_vector_labels with
  | inl e => inl e
  | inr m =>
      match dict_get config "nBufferClusters" with
      | inl e => inl e
      | inr nbuf => int_of_float (sub_int m nbuf)
      end
  end.

Definition roi_mask (state_vector_labels : grid cell) (last : Z) : grid bool :=
  grid_map (fun l => leb l (Some (Qc_of_Z last))) state_vector_labels.

(** *** The region of interest, as the specification words it *)

(** The distinct labels of a state vector (NaN cells carry none). *)
Definition label_values (labels : grid cell) : list Qc :=
  remove_dups (omap id (concat labels)).

(** [l] is one of the [k] highest labels: it is a label and fewer than [k]
    distinct labels exceed it. *)
Definition among_highest (k : Z) (labels : grid cell) (l : Qc) : bool :=
  bool_decide (l ∈ label_values labels)
  && bool_decide
       (Z.of_nat (length (filter (fun x => (l < x)%Qc) (label_values labels)))
        < k)%Z.

(** "The mask selects exactly the cells whose label is at most the maximum
    label minus nBufferClusters." *)
Definition selects_up_to_max_minus_buffer (labels : grid cell) (nbuf : Z)
  (mask : grid bool) : Prop :=
  exists m, nanmax labels = inr (Some m)
    /\ forall i j,
         grid_lookup mask i j = Some true
         <-> exists l, grid_lookup labels i j = Some (Some l)
                       /\ l <= m - Qc_of_Z nbuf.

(** "Every cell of the nBufferClusters highest-labelled clusters is
    excluded." *)
Definition excludes_highest_clusters (labels : grid cell) (nbuf : Z)
  (mask : grid bool) : Prop :=
  forall i j l,
    grid_lookup labels i j = Some (Some l) ->
    among_highest nbuf labels l = true ->
    grid_lookup mask i j = Some false.

(** *** One period of the update (lines 84-102) *)

Definition current_posterior_emis (posterior_sf sf original_emis : grid cell)
  : grid cell :=
  fmul (fmul posterior_sf sf) original_emis.

Definition nudged_posterior_emis (nudge_factor : Qc)
  (original_emis current : grid cell) : grid cell :=
  fadd (smul nudge_factor original_emis) (smul (1 - nudge_factor) current).

(** [a / b] on Python floats. *)
Definition float_div (a b : Qc) : result Qc :=
  if decide (b = 0) then inl ZeroDivisionError else inr (a / b).

Definition lambda_scaler (current_total nudged_total : Qc) : result Qc :=
  float_div current_total nudged_total.

Definition scaled_nudged_posterior_emis (nudged : grid cell) (lam : Qc)
  : grid cell :=
  fmuls nudged lam.

(** The new [ScaleFactor] of one iteration, from the posterior scale factor
    of the period, the scale factor so far and the period's emissions. *)
Definition period_update (nudge_factor : Qc) (areas : grid cell)
  (mask : grid bool) (posterior_sf sf original_emis : grid cell)
  : result (grid cell) :=
  let current := current_posterior_emis posterior_sf sf original_emis in
  let nudged := nudged_posterior_emis nudge_factor original_emis current in
  let current_total := sum_total_emissions current areas mask in
  let nudged_total := sum_total_emissions nudged areas mask in
  match lambda_scaler current_total nudged_total with
  | inl e => inl e
  | inr lam =>
      inr (fdiv (scaled_nudged_posterior_emis nudged lam) original_emis)
  end.

(** *** prepare_sf *)

(** Lines 26-56: what is read before the period loop. *)
Record inputs : Type := {
  in_prior_cache : string;
  in_areas : grid cell;
  in_mask : grid bool;
  in_original_emis : grid cell;
  in_sf : file
}.

Definition read_inputs (config_path base_directory : string) : M inputs :=
  config <- load_yaml config_path ;;
  let unit_sf_path := path_join base_directory "unit_sf.nc" in
  let statevector_path := path_join base_directory "StateVector.nc" in
  let preview_cache := path_join base_directory "preview_run/OutputDir" in
  let jacobian_dir := path_join base_directory "jacobian_runs" in
  runs <- listdir jacobian_dir ;;
  prior_sim <- lift (first (List.filter (contains "0000") runs)) ;;
  let prior_cache :=
    path_join base_directory ("jacobian_runs/" ++ prior_sim ++ "/OutputDir") in
  outputs <- listdir preview_cache ;;
  diags_file <-
    lift (first (List.filter (contains "HEMCO_diagnostics") outputs)) ;;
  let diags_path := path_join preview_cache diags_file in
  statevector <- load_dataset statevector_path ;;
  diags <- load_dataset diags_path ;;
  areas <- lift (get_AREA diags) ;;
  state_vector_labels <- lift (get_StateVector statevector) ;;
  last <- lift (last_ROI_element state_vector_labels config) ;;
  let mask := roi_mask state_vector_labels last in
  diags' <- load_dataset diags_path ;;
  original_emis <- lift (get_EmisCH4_Total_time0 diags') ;;
  sf <- load_dataset unit_sf_path ;;
  ret {| in_prior_cache := prior_cache; in_areas := areas; in_mask := mask;
         in_original_emis := original_emis; in_sf := sf |}.

Definition hemco_emis_path (prior_cache : string) (hemco_list : list string)
  (p : nat) : result string :=
  match item hemco_list (p - 1) with
  | inl e => inl e
  | inr name => inr (path_join prior_cache name)
  end.

Definition gridded_posterior_path (base_directory : string) (p : nat)
  : string :=
  path_join base_directory
    ("kf_inversions/period" ++ pretty p ++ "/gridded_posterior.nc").

(** Lines 68-102: the body of the loop, on the pair of [sf] and
    [original_emis] it reassigns; [p0] is the value [range] yields. *)
Definition period_iteration (base_directory prior_cache : string)
  (nudge_factor : Qc) (areas : grid cell) (mask : grid bool)
  (hemco_list : list string) (p0 : nat) (st : file * grid cell)
  : M (file * grid cell) :=
  let p := (p0 + 1)%nat in
  let sf := st.1 in
  path <- lift (hemco_emis_path prior_cache hemco_list p) ;;
  hemco <- load_dataset path ;;
  original_emis <- lift (get_EmisCH4_Total_time0 hemco) ;;
  posterior_p <- load_dataset (gridded_posterior_path base_directory p) ;;
  posterior_sf <- lift (get_ScaleFactor posterior_p) ;;
  sf_sf <- lift (get_ScaleFactor sf) ;;
  new_sf <- lift (period_update nudge_factor areas mask
                    posterior_sf sf_sf original_emis) ;;
  ret (set_ScaleFactor sf new_sf, original_emis).

(** [os.listdir(prior_cache)] filtered and sorted (lines 64-65). *)
Definition hemco_files (names : list string) : list string :=
  sort_strings (List.filter (contains "HEMCO") names).

(** Lines 61-110. *)
Definition update_periods (base_directory : string) (nudge_factor : Qc)
  (period_number : Z) (inp : inputs) : M (file * grid cell) :=
  if bool_decide (period_number > 1)%Z then
    names <- listdir (in_prior_cache inp) ;;
    let hemco_list := hemco_files names in
    st <- for_each (range (period_number - 1))
            (period_iteration base_directory (in_prior_cache inp) nudge_factor
               (in_areas inp) (in_mask inp) hemco_list)
            (in_sf inp, in_original_emis inp) ;;
    _ <- print (UsedHemcoUpTo (period_number - 1)) ;;
    ret st
  else ret (in_sf inp, in_original_emis inp).

Definition save_path (base_directory : string) : string :=
  path_join base_directory "ScaleFactors.nc".

Definition archive_path (base_directory : string) (period_number : Z)
  : string :=
  path_join (path_join base_directory "archive_sf")
    ("prior_sf_period" ++ pretty period_number ++ ".nc").

(** Lines 112-130. *)
Definition save_scale_factors (base_directory : string) (period_number : Z)
  (areas : grid cell) (mask : grid bool) (st : file * grid cell) : M unit :=
  let sf := st.1 in
  let original_emis := st.2 in
  sf_sf <- lift (get_ScaleFactor sf) ;;
  let emis := fmul sf_sf original_emis in
  let total_emis := sum_total_emissions emis areas mask in
  _ <- print (TotalPriorEmission total_emis) ;;
  let sf := set_hemco_attrs sf in
  _ <- to_netcdf sf (save_path base_directory) ;;
  to_netcdf sf (archive_path base_directory period_number).

Definition prepare_sf (config_path : string) (period_number : Z)
  (base_directory : string) (nudge_factor : Qc) : M unit :=
  inp <- read_inputs config_path base_directory ;;
  st <- update_periods base_directory nudge_factor period_number inp ;;
  save_scale_factors base_directory period_number
    (in_areas inp) (in_mask inp) st.

(** *** The recurrence over periods, as the specification words it *)

(** Whether a computation completed. *)
Definition completes {A} (r : exn + A) : bool :=
  match r with
  | inr _ => true
  | inl _ => false
  end.

Definition ok {A} (r : result A) : option A :=
  match r with
  | inr a => Some a
  | inl _ => None
  end.

Section Recurrence.

Variable w : world.
Variables base_directory prior_cache : string.
Variable nudge_factor : Qc.
Variable areas : grid cell.
Variable mask : grid bool.
Variable unit_sf : grid cell.

(** Entry [p - 1] of the sorted list of HEMCO files of the prior run. *)
Definition hemco_file_of_period (p : nat) : option string :=
  names ← w_listdir w !! prior_cache; hemco_files names !! (p - 1)%nat.

(** The original emissions of period [p]. *)
Definition original_emis_of_period (p : nat) : option (grid cell) :=
  name ← hemco_file_of_period p;
  hemco ← w_netcdf w !! path_join prior_cache name;
  ok (get_EmisCH4_Total_time0 hemco).

(** The posterior scale factor of period [p]. *)
Definition posterior_of_period (p : nat) : option (grid cell) :=
  posterior_p ← w_netcdf w !! gridded_posterior_path base_directory p;
  ok (get_ScaleFactor posterior_p).

(** The scale factor once periods [1 .. p] are processed: the unit scale
    factors for [p = 0], and the update of period [p] applied to the scale
    factor left by period [p - 1] otherwise. *)
Fixpoint scale_factor_after (p : nat) : option (grid cell) :=
  match p with
  | O => Some unit_sf
  | S p' =>
      sf ← scale_factor_after p';
      original_emis ← original_emis_of_period (S p');
      posterior_sf ← posterior_of_period (S p');
      ok (period_update nudge_factor areas mask posterior_sf sf original_emis)
  end.

(** The two datasets period [p] loads, in the order it loads them. *)
Definition period_loads (p : nat) : list string :=
  match hemco_file_of_period p with
  | Some name =>
      [path_join prior_cache name; gridded_posterior_path base_directory p]
  | None => []
  end.

End Recurrence.

(** ** utils.py: filter_blended *)

Module Blended.

(** The arrays of the blended product the filter reads: as for TROPOMI
    without the quality value, plus the surface classification (integers)
    and the SWIR chi-square. *)
Record blended_data : Type := {
  longitude : grid cell;
  latitude : grid cell;
  time : grid Z;
  longitude_bounds : grid (list cell);
  surface_classification : grid Z;
  chi_square_SWIR : grid cell
}.

End Blended.

Definition bor : grid bool -> grid bool -> grid bool := grid_zip orb.

Definition bnot : grid bool -> grid bool := grid_map negb.

Definition filter_blended (blended_data : Blended.blended_data)
  (xlim ylim : Qc * Qc) (startdate enddate : Z)
  : result (list nat * list nat) :=
  let c1 := grid_map (fun x => gtb x xlim.1) (Blended.longitude blended_data) in
  let c2 := grid_map (fun x => ltb x xlim.2) (Blended.longitude blended_data) in
  let c3 := grid_map (fun y => gtb y ylim.1) (Blended.latitude blended_data) in
  let c4 := grid_map (fun y => ltb y ylim.2) (Blended.latitude blended_data) in
  let c5 := grid_map (fun t => bool_decide (startdate <= t)%Z)
              (Blended.time blended_data) in
  let c6 := grid_map (fun t => bool_decide (t <= enddate)%Z)
              (Blended.time blended_data) in
  match ptp_axis2 (Blended.longitude_bounds blended_data) with
  | inl e => inl e
  | inr spread =>
      let c7 := grid_map (fun s => ltb s (Q2Qc 100)) spread in
      let coastal :=
        grid_map (fun k => bool_decide (k = 3%Z))
          (Blended.surface_classification blended_data) in
      let inland_water :=
        grid_map (fun k => bool_decide (k = 2%Z))
          (Blended.surface_classification blended_data) in
      let poor_fit :=
        grid_map (fun c => gtb c (Q2Qc 20000))
          (Blended.chi_square_SWIR blended_data) in
      let c8 := bnot (bor coastal (band inland_water poor_fit)) in
      inr (np_where
             (band (band (band (band (band (band (band c1 c2) c3) c4) c5) c6)
                      c7) c8))
  end.

(** The pixel at [(i, j)] meets every criterion of the blended filter. *)
Definition passes_blended (d : Blended.blended_data) (xlim ylim : Qc * Qc)
  (startdate enddate : Z) (i j : nat) : Prop :=
  exists (lon lat : Qc) (t k : Z) (corners : list cell) (chi : cell),
    grid_lookup (Blended.longitude d) i j = Some (Some lon)
    /\ grid_lookup (Blended.latitude d) i j = Some (Some lat)
    /\ grid_lookup (Blended.time d) i j = Some t
    /\ grid_lookup (Blended.longitude_bounds d) i j = Some corners
    /\ grid_lookup (Blended.surface_classification d) i j = Some k
    /\ grid_lookup (Blended.chi_square_SWIR d) i j = Some chi
    /\ xlim.1 < lon /\ lon < xlim.2
    /\ ylim.1 < lat /\ lat < ylim.2
    /\ (startdate <= t)%Z /\ (t <= enddate)%Z
    /\ spread_below corners (Q2Qc 100)
    /\ k <> 3%Z
    /\ ~ (k = 2%Z /\ exists x, chi = Some x /\ Q2Qc 20000 < x).

(** Positions in row-major order. *)
Definition row_major_lt (a b : nat * nat) : Prop :=
  (a.1 < b.1)%nat \/ (a.1 = b.1 /\ (a.2 < b.2)%nat).

(** ** utils.py: zero_pad_num_hour *)

(** [n] is an integer; [str(n)] is its decimal writing. *)
Definition zero_pad_num_hour (n : Z) : string :=
  let nstr := pretty n in
  if (String.length nstr =? 1)%nat then ("0" ++ nstr)%string else nstr.

(** ** Fields without negative numbers *)

(** Every number of the field is at least zero (NaN cells say nothing). *)
Definition nonnegative (g : grid cell) : Prop :=
  forall i j x, grid_lookup g i j = Some (Some x) -> 0 <= x.

(** ** Sample runs *)

(** A one-row grid of three cells: labels 1, 2, 3 with one buffer cluster,
    two periods of posteriors, and the HEMCO files of the prior run listed
    out of order next to a restart file. *)
Definition num (n : Z) (d : positive) : cell := Some (Q2Qc (n # d)).

Definition sample_sf (g : grid cell) : file :=
  ScaleFactors {| ScaleFactor := g; lat_attrs := ∅; lon_attrs := ∅;
                  ScaleFactor_attrs := ∅ |}.

Definition sample_areas : grid cell := [[num 10 1; num 10 1; num 10 1]].

Definition sample_listdir : gmap string (list string) :=
  list_to_map
    [("/run/jacobian_runs", ["sim_0001"; "sim_0000"]);
     ("/run/preview_run/OutputDir", ["HEMCO_diagnostics.2018.nc"]);
     ("/run/jacobian_runs/sim_0000/OutputDir",
      ["HEMCO_diagnostics.B.nc"; "Restart.nc"; "HEMCO_diagnostics.A.nc"])].

Definition sample_netcdf (period2_emis : grid cell) : gmap string file :=
  list_to_map
    [("/run/unit_sf.nc", sample_sf [[num 1 1; num 1 1; num 1 1]]);
     ("/run/StateVector.nc", StateVectorFile [[num 1 1; num 2 1; num 3 1]]);
     ("/run/preview_run/OutputDir/HEMCO_diagnostics.2018.nc",
      HemcoDiagnostics sample_areas [[[num 1 1; num 2 1; num 3 1]]]);
     ("/run/jacobian_runs/sim_0000/OutputDir/HEMCO_diagnostics.A.nc",
      HemcoDiagnostics sample_areas [[[num 1 1; num 0 1; num 3 1]]]);
     ("/run/jacobian_runs/sim_0000/OutputDir/HEMCO_diagnostics.B.nc",
      HemcoDiagnostics sample_areas [period2_emis]);
     ("/run/kf_inversions/period1/gridded_posterior.nc",
      sample_sf [[num 3 2; num 1 2; num 1 1]]);
     ("/run/kf_inversions/period2/gridded_posterior.nc",
      sample_sf [[num 1 2; num 1 2; num 1 1]])].

Definition sample_world_with (period2_emis : grid cell) : world :=
  {| w_listdir := sample_listdir;
     w_yaml := {[ "config.yml" := {[ "nBufferClusters" := 1%Z ]} ]};
     w_netcdf := sample_netcdf period2_emis;
     w_loads := [];
     w_stdout := [] |}.

Definition sample_world : world :=
  sample_world_with [[num 2 1; num 2 1; num 3 1]].

(** The same run with no emissions at all in period 2. *)
Definition sample_world_zero : world :=
  sample_world_with [[num 0 1; num 0 1; num 0 1]].

(** A swath of one scanline and two pixels; the second pixel straddles the
    antimeridian. *)
Definition sample_swath : tropomi_data :=
  {| longitude := [[num (-100) 1; num 179 1]];
     latitude := [[num 40 1; num 40 1]];
     time := [[5%Z; 5%Z]];
     qa_value := [[num 1 1; num 1 2]];
     longitude_bounds :=
       [[[num (-101) 1; num (-99) 1; num (-99) 1; num (-101) 1];
         [num 178 1; num (-179) 1; num (-179) 1; num 178 1]]] |}.

(** What [read_inputs] returns on the sample runs. *)
Definition sample_inputs : inputs :=
  {| in_prior_cache := "/run/jacobian_runs/sim_0000/OutputDir";
     in_areas := sample_areas;
     in_mask := [[true; true; false]];
     in_original_emis := [[num 1 1; num 2 1; num 3 1]];
     in_sf := sample_sf [[num 1 1; num 1 1; num 1 1]] |}.

Definition sample_input_loads : list string :=
  ["/run/StateVector.nc";
   "/run/preview_run/OutputDir/HEMCO_diagnostics.2018.nc";
   "/run/preview_run/OutputDir/HEMCO_diagnostics.2018.nc";
   "/run/unit_sf.nc"].

(** A blended swath of one scanline and four pixels: a land pixel, a
    coastal pixel, an inland-water pixel with a poor fit and an inland-water
    pixel with a good fit. *)
Definition sample_blended : Blended.blended_data :=
  {| Blended.longitude :=
       [[num (-100) 1; num (-99) 1; num (-98) 1; num (-97) 1]];
     Blended.latitude := [[num 40 1; num 40 1; num 40 1; num 40 1]];
     Blended.time := [[5%Z; 5%Z; 5%Z; 5%Z]];
     Blended.longitude_bounds :=
       [[[num (-101) 1; num (-99) 1]; [num (-100) 1; num (-98) 1];
         [num (-99) 1; num (-97) 1]; [num (-98) 1; num (-96) 1]]];
     Blended.surface_classification := [[0%Z; 3%Z; 2%Z; 2%Z]];
     Blended.chi_square_SWIR :=
       [[num 100 1; num 100 1; num 30000 1; num 100 1]] |}.

(** A mask of one latitude and two longitudes that selects the first
    longitude only. *)
Definition sample_mask : mask_array :=
  {| mask_lat := [0]; mask_lon := [0; Qc_of_Z 10];
     mask_values := [[true; false]] |}.

Definition sample_obs (index : Z) (lon : Qc) : observation unit :=
  {| obs_index := index; obs_lat := 0; obs_lon := lon; obs_other := tt |}.

(** * Properties *)

(** ** Sums *)

Lemma sum_upto_shift (n : nat) (f : nat -> Qc) :
  sum_upto (S n) f = f 0%nat + sum_upto n (fun i => f (S i)).
Proof.
  unfold sum_upto. rewrite <- cons_seq, <- seq_shift. simpl. f_equal.
  induction (seq 0 n) as [|k ks IH]; simpl; [reflexivity|]. now rewrite IH.
Qed.

Lemma sum_upto_ext (n : nat) (f g : nat -> Qc) :
  (forall i, (i < n)%nat -> f i = g i) -> sum_upto n f = sum_upto n g.
Proof.
  revert f g. induction n as [|n IH]; intros f g H; [reflexivity|].
  rewrite !sum_upto_shift. rewrite (H 0%nat) by lia. f_equal.
  apply IH. intros i Hi. apply H. lia.
Qed.

Lemma sum_upto_zero (n : nat) : sum_upto n (fun _ => 0) = 0.
Proof.
  induction n as [|n IH]; [reflexivity|].
  rewrite sum_upto_shift, IH. ring.
Qed.

Lemma sum_upto_scale (c : Qc) (n : nat) (f : nat -> Qc) :
  sum_upto n (fun i => c * f i) = c * sum_upto n f.
Proof.
  revert f. induction n as [|n IH]; intros f.
  - unfold sum_upto. simpl. ring.
  - rewrite !sum_upto_shift, IH. ring.
Qed.

(** A fold over the cells of a list is the sum over its positions. *)
Lemma foldr_sum_upto {A} (g : A -> Qc) (l : list A) :
  foldr (fun x acc => g x + acc) 0 l
  = sum_upto (length l) (fun i => from_option g 0 (l !! i)).
Proof.
  induction l as [|x l IH]; [reflexivity|].
  simpl length. rewrite sum_upto_shift. simpl. now rewrite IH.
Qed.

Lemma sum_upto_app (n k : nat) (f : nat -> Qc) :
  sum_upto (n + k) f = sum_upto n f + sum_upto k (fun i => f (n + i)%nat).
Proof.
  revert f. induction n as [|n IH]; intros f; simpl.
  - unfold sum_upto. simpl. ring.
  - rewrite !sum_upto_shift, IH. simpl. ring.
Qed.

Lemma sum_upto_extend (n m : nat) (f : nat -> Qc) :
  (n <= m)%nat -> (forall i, (n <= i < m)%nat -> f i = 0) ->
  sum_upto m f = sum_upto n f.
Proof.
  intros Hnm Hz. replace m with (n + (m - n))%nat by lia.
  rewrite sum_upto_app.
  rewrite (sum_upto_ext (m - n) _ (fun _ => 0)), sum_upto_zero; [ring|].
  intros i Hi. apply Hz. lia.
Qed.

(** The same for a list obtained by pairing two lists: the positions run
    over the first list, those the second lacks contribute nothing. *)
Lemma foldr_zip_sum_upto {A B C} (f : A -> B -> C) (g : C -> Qc)
  (l : list A) (k : list B) :
  foldr (fun x acc => g x + acc) 0 (zip_with f l k)
  = sum_upto (length l) (fun i => from_option g 0 (zip_with f l k !! i)).
Proof.
  rewrite foldr_sum_upto. symmetry. apply sum_upto_extend.
  - rewrite length_zip_with. lia.
  - intros i [Hi _]. now rewrite (lookup_ge_None_2 _ _ Hi).
Qed.

Lemma row_sum_spec (r : list cell) :
  row_sum r = sum_upto (length r) (fun j => from_option nan_to_zero 0 (r !! j)).
Proof. apply foldr_sum_upto. Qed.

Lemma grid_lookup_zip {A B C} (f : A -> B -> C) (g : grid A) (h : grid B)
  (i j : nat) :
  grid_lookup (grid_zip f g h) i j
  = x ← grid_lookup g i j; y ← grid_lookup h i j; Some (f x y).
Proof.
  unfold grid_lookup, grid_zip. rewrite lookup_zip_with.
  destruct (g !! i) as [r|]; simpl; [|reflexivity].
  destruct (h !! i) as [s|]; simpl.
  - rewrite lookup_zip_with. reflexivity.
  - now destruct (r !! j).
Qed.

Lemma grid_lookup_map {A B} (f : A -> B) (g : grid A) (i j : nat) :
  grid_lookup (grid_map f g) i j = f <$> grid_lookup g i j.
Proof.
  unfold grid_lookup, grid_map. rewrite list_lookup_fmap.
  destruct (g !! i) as [r|]; simpl; [|reflexivity].
  apply list_lookup_fmap.
Qed.

(** [.sum()] of a field is the sum over the positions of its cells. *)
Lemma grid_sum_spec (g : grid cell) :
  grid_sum g
  = sum_upto (length g) (fun i =>
      sum_upto (row_length g i) (fun j =>
        from_option nan_to_zero 0 (grid_lookup g i j))).
Proof.
  unfold grid_sum. rewrite foldr_sum_upto. apply sum_upto_ext. intros i _.
  unfold row_length, grid_lookup. destruct (g !! i) as [r|]; simpl.
  - apply row_sum_spec.
  - reflexivity.
Qed.

(** ** sum_total_emissions *)

Lemma grid_sum_weighted (emissions areas : grid cell) (mask : grid bool) :
  grid_sum (fmul_mask (fmul emissions areas) mask)
  = area_weighted_masked_sum emissions areas mask.
Proof.
  rewrite grid_sum_spec. unfold area_weighted_masked_sum.
  set (g := fmul_mask (fmul emissions areas) mask).
  assert (Hcell : forall i j,
    from_option nan_to_zero 0 (grid_lookup g i j)
    = weighted_cell emissions areas mask i j).
  { intros i j. unfold g, fmul_mask, fmul, weighted_cell.
    rewrite !grid_lookup_zip.
    destruct (grid_lookup emissions i j); simpl; [|reflexivity].
    destruct (grid_lookup areas i j); simpl; [|reflexivity].
    now destruct (grid_lookup mask i j). }
  assert (Hlen : (length g <= length emissions)%nat).
  { unfold g, fmul_mask, fmul, grid_zip. rewrite !length_zip_with. lia. }
  assert (Hrow : forall i, (row_length g i <= row_length emissions i)%nat).
  { intros i. unfold row_length, g, fmul_mask, fmul, grid_zip.
    rewrite !lookup_zip_with.
    destruct (emissions !! i) as [re|]; simpl; [|lia].
    destruct (areas !! i) as [ra|]; simpl; [|lia].
    destruct (mask !! i) as [rm|]; simpl; [|lia].
    rewrite !length_zip_with. lia. }
  assert (Hout : forall i j, (row_length g i <= j)%nat ->
    weighted_cell emissions areas mask i j = 0).
  { intros i j Hj. rewrite <- Hcell. unfold grid_lookup, row_length in *.
    destruct (g !! i) as [r|]; simpl; [|reflexivity].
    now rewrite (lookup_ge_None_2 _ _ Hj). }
  transitivity (sum_upto (length g) (fun i =>
    sum_upto (row_length emissions i) (fun j =>
      weighted_cell emissions areas mask i j))).
  - apply sum_upto_ext. intros i _.
    rewrite (sum_upto_extend (row_length g i) (row_length emissions i)).
    + apply sum_upto_ext. intros j _. apply Hcell.
    + apply Hrow.
    + intros j [Hj _]. now apply Hout.
  - symmetry. apply sum_upto_extend; [exact Hlen|].
    intros i [Hi _].
    rewrite (sum_upto_ext _ _ (fun _ => 0)); [apply sum_upto_zero|].
    intros j _. apply Hout. unfold row_length.
    rewrite (lookup_ge_None_2 _ _ Hi). lia.
Qed.

(** C4: for every emissions field, areas field and mask,
    [sum_total_emissions] is the sum over all grid cells of
    [emissions * areas * mask], times 86400, times 365, times 1e-9
    (Tg per year). *)
Theorem sum_total_emissions_area_weighted
  (emissions areas : grid cell) (mask : grid bool) :
  sum_total_emissions emissions areas mask
  = area_weighted_masked_sum emissions areas mask
    * Q2Qc 86400 * Q2Qc 365 * Q2Qc (1 # 1000000000).
Proof.
  unfold sum_total_emissions. now rewrite grid_sum_weighted.
Qed.

(** Rescaling the emissions cell by cell rescales the weighted sum. *)
Lemma area_weighted_masked_sum_map (f : cell -> cell) (c : Qc)
  (emissions areas : grid cell) (mask : grid bool) :
  (forall e a b,
     nan_to_zero (mul (mul (f e) a) (of_bool b))
     = c * nan_to_zero (mul (mul e a) (of_bool b))) ->
  area_weighted_masked_sum (grid_map f emissions) areas mask
  = c * area_weighted_masked_sum emissions areas mask.
Proof.
  intros Hf. unfold area_weighted_masked_sum.
  rewrite <- sum_upto_scale. unfold grid_map at 1. rewrite length_map.
  apply sum_upto_ext. intros i _. rewrite <- sum_upto_scale.
  assert (Hlen : row_length (grid_map f emissions) i = row_length emissions i).
  { unfold row_length, grid_map. rewrite list_lookup_fmap.
    destruct (emissions !! i); simpl; [apply length_map|reflexivity]. }
  rewrite Hlen. apply sum_upto_ext. intros j _.
  unfold weighted_cell. rewrite grid_lookup_map.
  destruct (grid_lookup emissions i j) as [e|]; simpl; [|ring].
  destruct (grid_lookup areas i j) as [a|]; [|ring].
  destruct (grid_lookup mask i j) as [b|]; [|ring].
  apply Hf.
Qed.

Lemma sum_total_emissions_smul (c : Qc) (emissions areas : grid cell)
  (mask : grid bool) :
  sum_total_emissions (smul c emissions) areas mask
  = c * sum_total_emissions emissions areas mask.
Proof.
  unfold sum_total_emissions, smul. rewrite !grid_sum_weighted.
  rewrite (area_weighted_masked_sum_map _ c); [ring|].
  intros [e|] [a|] b; simpl; ring.
Qed.

Lemma sum_total_emissions_fmuls (c : Qc) (emissions areas : grid cell)
  (mask : grid bool) :
  sum_total_emissions (fmuls emissions c) areas mask
  = c * sum_total_emissions emissions areas mask.
Proof.
  unfold sum_total_emissions, fmuls. rewrite !grid_sum_weighted.
  rewrite (area_weighted_masked_sum_map _ c); [ring|].
  intros [e|] [a|] b; simpl; ring.
Qed.

(** C8: [sum_total_emissions] is homogeneous in its emissions argument:
    for every scalar [c], [sum_total_emissions (c * emissions) areas mask]
    is [c * sum_total_emissions emissions areas mask]. *)
Theorem sum_total_emissions_homogeneous (c : Qc)
  (emissions areas : grid cell) (mask : grid bool) :
  sum_total_emissions (smul c emissions) areas mask
  = c * sum_total_emissions emissions areas mask
  /\ sum_total_emissions (fmuls emissions c) areas mask
     = c * sum_total_emissions emissions areas mask.
Proof.
  split; [apply sum_total_emissions_smul | apply sum_total_emissions_fmuls].
Qed.

(** ** One period of the update *)

(** C1: in a period iteration whose nudged total is not zero, the division
    gives [lambda_scaler = current_total / nudged_total] and the rescaled
    nudged emissions have the regional total of the current posterior
    emissions. *)
Theorem lambda_scaler_conserves_total (nudge_factor : Qc)
  (areas : grid cell) (mask : grid bool)
  (posterior_sf sf original_emis : grid cell) :
  let current := current_posterior_emis posterior_sf sf original_emis in
  let nudged := nudged_posterior_emis nudge_factor original_emis current in
  let current_total := sum_total_emissions current areas mask in
  let nudged_total := sum_total_emissions nudged areas mask in
  let scaled :=
    scaled_nudged_posterior_emis nudged (current_total / nudged_total) in
  nudged_total <> 0 ->
  lambda_scaler current_total nudged_total
  = inr (current_total / nudged_total)
  /\ period_update nudge_factor areas mask posterior_sf sf original_emis
     = inr (fdiv scaled original_emis)
  /\ sum_total_emissions scaled areas mask
     = sum_total_emissions current areas mask.
Proof.
  intros current nudged current_total nudged_total scaled Hnz.
  assert (Hlam : lambda_scaler current_total nudged_total
                 = inr (current_total / nudged_total)).
  { unfold lambda_scaler, float_div.
    now destruct (decide (nudged_total = 0)). }
  split; [exact Hlam|]. split.
  - unfold period_update. fold current nudged current_total nudged_total.
    now rewrite Hlam.
  - unfold scaled, scaled_nudged_posterior_emis.
    rewrite sum_total_emissions_fmuls. fold nudged_total current_total.
    now field.
Qed.

Lemma current_posterior_emis_lookup (posterior_sf sf original_emis : grid cell)
  (i j : nat) :
  grid_lookup (current_posterior_emis posterior_sf sf original_emis) i j
  = (p ← grid_lookup posterior_sf i j; s ← grid_lookup sf i j;
     o ← grid_lookup original_emis i j; Some (mul (mul p s) o)).
Proof.
  unfold current_posterior_emis, fmul. rewrite !grid_lookup_zip.
  destruct (grid_lookup posterior_sf i j); simpl; [|reflexivity].
  now destruct (grid_lookup sf i j).
Qed.

Lemma nudged_posterior_emis_lookup (nudge_factor : Qc)
  (original_emis current : grid cell) (i j : nat) :
  grid_lookup (nudged_posterior_emis nudge_factor original_emis current) i j
  = (o ← grid_lookup original_emis i j; c ← grid_lookup current i j;
     Some (add (mul (Some nudge_factor) o)
               (mul (Some (1 - nudge_factor)) c))).
Proof.
  unfold nudged_posterior_emis, fadd, smul.
  rewrite grid_lookup_zip, !grid_lookup_map.
  destruct (grid_lookup original_emis i j); simpl; [|reflexivity].
  now destruct (grid_lookup current i j).
Qed.

(** C2: in every period iteration the current posterior emissions are, cell
    by cell, the period's posterior [ScaleFactor] times the accumulated
    scale factor times the original emissions, and the nudged emissions are
    the blend [nudge_factor * original + (1 - nudge_factor) * current]. *)
Theorem nudged_posterior_emis_blend (nudge_factor : Qc)
  (posterior_sf sf original_emis : grid cell) (i j : nat) :
  let current := current_posterior_emis posterior_sf sf original_emis in
  let nudged := nudged_posterior_emis nudge_factor original_emis current in
  grid_lookup current i j
  = (p ← grid_lookup posterior_sf i j; s ← grid_lookup sf i j;
     o ← grid_lookup original_emis i j; Some (mul (mul p s) o))
  /\ grid_lookup nudged i j
     = (o ← grid_lookup original_emis i j; c ← grid_lookup current i j;
        Some (add (mul (Some nudge_factor) o)
                  (mul (Some (1 - nudge_factor)) c)))
  /\ (forall p s o : Qc,
        grid_lookup posterior_sf i j = Some (Some p) ->
        grid_lookup sf i j = Some (Some s) ->
        grid_lookup original_emis i j = Some (Some o) ->
        grid_lookup nudged i j
        = Some (Some (nudge_factor * o + (1 - nudge_factor) * (p * s * o)))).
Proof.
  intros current nudged.
  pose proof (current_posterior_emis_lookup posterior_sf sf original_emis i j)
    as Hc.
  pose proof (nudged_posterior_emis_lookup nudge_factor original_emis
                current i j) as Hn.
  fold current in Hc. fold nudged in Hn.
  split; [exact Hc|]. split; [exact Hn|].
  intros p s o Hp Hs Ho. rewrite Hn, Hc, Hp, Hs, Ho. reflexivity.
Qed.

(** Where the original emissions are zero the rescaled nudged emissions are
    zero (or NaN) too: the division of line 102 never divides a nonzero
    number by zero. *)
Lemma scaled_zero_where_original_zero (nudge_factor lam : Qc)
  (posterior_sf sf original_emis : grid cell) (i j : nat) (x : Qc) :
  let current := current_posterior_emis posterior_sf sf original_emis in
  let nudged := nudged_posterior_emis nudge_factor original_emis current in
  grid_lookup original_emis i j = Some (Some 0) ->
  grid_lookup (scaled_nudged_posterior_emis nudged lam) i j = Some (Some x) ->
  x = 0.
Proof.
  intros current nudged Ho.
  unfold scaled_nudged_posterior_emis, fmuls. rewrite grid_lookup_map.
  unfold nudged, current.
  rewrite nudged_posterior_emis_lookup, current_posterior_emis_lookup, Ho.
  simpl.
  destruct (grid_lookup posterior_sf i j) as [[p|]|]; simpl; try discriminate;
  destruct (grid_lookup sf i j) as [[s|]|]; simpl; try discriminate.
  intros [= <-]. ring.
Qed.

(** ** Sorting the HEMCO file names *)

(** [sort_strings] rearranges its list in ascending order. *)
Lemma insert_sorted_perm (x : string) (l : list string) :
  insert_sorted x l ≡ₚ x :: l.
Proof.
  induction l as [|y l IH]; simpl; [reflexivity|].
  destruct (String.leb x y); [reflexivity|].
  rewrite IH. apply Permutation_swap.
Qed.

Lemma sort_strings_perm (l : list string) : sort_strings l ≡ₚ l.
Proof.
  induction l as [|x l IH]; simpl; [reflexivity|].
  now rewrite insert_sorted_perm, IH.
Qed.

Lemma insert_sorted_sorted (x : string) (l : list string) :
  Sorted string_le l -> Sorted string_le (insert_sorted x l).
Proof.
  induction l as [|y l IH]; intros Hl; simpl.
  - repeat constructor.
  - destruct (String.leb x y) eqn:Hxy.
    + constructor; [exact Hl|]. now constructor.
    + inversion Hl as [|? ? Hl' Hhd]; subst. constructor; [now apply IH|].
      assert (Hyx : string_le y x).
      { destruct (String.leb_total x y) as [H|H]; [congruence|exact H]. }
      destruct l as [|z l]; simpl; [now constructor|].
      destruct (String.leb x z); constructor; [exact Hyx|].
      now inversion Hhd.
Qed.

Lemma sort_strings_sorted (l : list string) :
  Sorted string_le (sort_strings l).
Proof.
  induction l as [|x l IH]; simpl; [constructor|].
  now apply insert_sorted_sorted.
Qed.

(** The HEMCO list of the loop: the names containing "HEMCO", ascending. *)
Lemma hemco_files_spec (names : list string) :
  Sorted string_le (hemco_files names)
  /\ forall name, name ∈ hemco_files names
                  <-> name ∈ names /\ contains "HEMCO" name = true.
Proof.
  unfold hemco_files. split; [apply sort_strings_sorted|].
  intros name. rewrite sort_strings_perm, list_elem_of_In, filter_In.
  now rewrite <- list_elem_of_In.
Qed.

(** ** Running the program *)

Arguments path_join : simpl never.
Arguments gridded_posterior_path : simpl never.
Arguments hemco_files : simpl never.
Arguments archive_path : simpl never.
Arguments save_path : simpl never.

Lemma bind_inr {A B} (m : M A) (f : A -> M B) (w w' : world) (b : B) :
  bind m f w = inr (b, w') ->
  exists a w1, m w = inr (a, w1) /\ f a w1 = inr (b, w').
Proof.
  unfold bind. destruct (m w) as [e|[a w1]]; [discriminate|]. eauto.
Qed.

Lemma bind_run {A B} (m : M A) (f : A -> M B) (w w1 : world) (a : A) :
  m w = inr (a, w1) -> bind m f w = f a w1.
Proof. unfold bind. now intros ->. Qed.

Lemma bind_raise {A B} (m : M A) (f : A -> M B) (w : world) (e : exn) :
  m w = inl e -> bind m f w = inl e.
Proof. unfold bind. now intros ->. Qed.

Lemma lift_inr {A} (r : result A) (w w' : world) (a : A) :
  lift r w = inr (a, w') -> r = inr a /\ w' = w.
Proof. destruct r; simpl; unfold raise, ret; intros [=]; now subst. Qed.

Lemma lift_run {A} (r : result A) (w : world) (a : A) :
  r = inr a -> lift r w = inr (a, w).
Proof. now intros ->. Qed.

Lemma listdir_inr (dir : string) (w w' : world) (names : list string) :
  listdir dir w = inr (names, w') ->
  w_listdir w !! dir = Some names /\ w' = w.
Proof.
  unfold listdir. destruct (w_listdir w !! dir); intros [=]; now subst.
Qed.

Lemma load_yaml_inr (path : string) (w w' : world) (d : gmap string Z) :
  load_yaml path w = inr (d, w') -> w_yaml w !! path = Some d /\ w' = w.
Proof.
  unfold load_yaml. destruct (w_yaml w !! path); intros [=]; now subst.
Qed.

Lemma load_dataset_inr (path : string) (w w' : world) (f : file) :
  load_dataset path w = inr (f, w') ->
  w_netcdf w !! path = Some f /\ w' = loaded [path] w.
Proof.
  unfold load_dataset. destruct (w_netcdf w !! path); intros [=]; now subst.
Qed.

Lemma load_dataset_run (path : string) (w : world) (f : file) :
  w_netcdf w !! path = Some f -> load_dataset path w = inr (f, loaded [path] w).
Proof. unfold load_dataset. now intros ->. Qed.


Lemma loaded_loaded (ps qs : list string) (w : world) :
  loaded qs (loaded ps w) = loaded (ps ++ qs) w.
Proof. unfold loaded. simpl. now rewrite app_assoc. Qed.

(** Invert a successful run, one step of the program at a time. *)
Ltac step_inr H :=
  let a := fresh "a" in
  let w1 := fresh "w" in
  let H1 := fresh "Hstep" in
  apply bind_inr in H; destruct H as (a & w1 & H1 & H);
  first
    [ apply lift_inr in H1; destruct H1 as [H1 ->]
    | apply listdir_inr in H1; destruct H1 as [H1 ->]
    | apply load_yaml_inr in H1; destruct H1 as [H1 ->]
    | apply load_dataset_inr in H1; destruct H1 as [H1 ->]
    | idtac ].

(** What [read_inputs] leaves behind: four loads, the last of them
    [unit_sf.nc], whose dataset is the [sf] the loop starts from; the mask
    comes from the labels of [StateVector.nc] and the configuration. *)
Lemma read_inputs_inr (config_path base_directory : string)
  (w w1 : world) (inp : inputs) :
  read_inputs config_path base_directory w = inr (inp, w1) ->
  exists diags_path config statevector state_vector_labels last,
    w1 = loaded [path_join base_directory "StateVector.nc"; diags_path;
                 diags_path; path_join base_directory "unit_sf.nc"] w
    /\ w_netcdf w !! path_join base_directory "unit_sf.nc"
       = Some (in_sf inp)
    /\ w_yaml w !! config_path = Some config
    /\ w_netcdf w !! path_join base_directory "StateVector.nc"
       = Some statevector
    /\ get_StateVector statevector = inr state_vector_labels
    /\ last_ROI_element state_vector_labels config = inr last
    /\ in_mask inp = roi_mask state_vector_labels last.
Proof.
  intros H. unfold read_inputs in H.
  repeat step_inr H. unfold ret in H. injection H as <- <-.
  eexists _, _, _, _, _. rewrite !loaded_loaded. simpl.
  split; [reflexivity|]. repeat split; eassumption.
Qed.

(** ** The first period *)

(** C9: for a period number of at most 1 the period loop does not run:
    nothing is loaded after [unit_sf.nc], and the dataset written to
    [ScaleFactors.nc] and to the archive is the one loaded from
    [unit_sf.nc] with its [ScaleFactor] values unchanged and the [lat],
    [lon] and [ScaleFactor] attributes added. *)
Theorem prepare_sf_first_period (config_path base_directory : string)
  (period_number : Z) (nudge_factor : Qc) (w w1 : world) (inp : inputs)
  (unit_sf : scale_factors) :
  (period_number <= 1)%Z ->
  read_inputs config_path base_directory w = inr (inp, w1) ->
  in_sf inp = ScaleFactors unit_sf ->
  let out :=
    ScaleFactors
      {| ScaleFactor := ScaleFactor unit_sf;
         lat_attrs :=
           <["long_name" := "Latitude"]>
             (<["units" := "degrees_north"]> (lat_attrs unit_sf));
         lon_attrs :=
           <["long_name" := "Longitude"]>
             (<["units" := "degrees_east"]> (lon_attrs unit_sf));
         ScaleFactor_attrs :=
           <["units" := "1"]> (ScaleFactor_attrs unit_sf) |} in
  let total_emis :=
    sum_total_emissions (fmul (ScaleFactor unit_sf) (in_original_emis inp))
      (in_areas inp) (in_mask inp) in
  w_netcdf w !! path_join base_directory "unit_sf.nc"
  = Some (ScaleFactors unit_sf)
  /\ prepare_sf config_path period_number base_directory nudge_factor w
     = inr (tt,
            written (archive_path base_directory period_number) out
              (written (save_path base_directory) out
                 (printed [TotalPriorEmission total_emis] w1))).
Proof.
  intros Hn Hread Hsf out total_emis. split.
  - destruct (read_inputs_inr _ _ _ _ _ Hread) as (? & ? & ? & ? & ? & H).
    destruct H as (_ & H & _). now rewrite H, Hsf.
  - unfold prepare_sf. rewrite (bind_run _ _ _ _ _ Hread).
    unfold update_periods. rewrite bool_decide_eq_false_2 by lia.
    unfold bind at 1, ret at 1. unfold save_scale_factors. simpl.
    rewrite Hsf. reflexivity.
Qed.

(** ** The period loop *)

Lemma for_each_app {A S} (xs ys : list A) (body : A -> S -> M S) (s : S)
  (w : world) :
  for_each (xs ++ ys) body s w
  = bind (for_each xs body s) (for_each ys body) w.
Proof.
  revert s w. induction xs as [|x xs IH]; intros s w; simpl.
  - reflexivity.
  - unfold bind. destruct (body x s w) as [e|[s1 w1]]; [reflexivity|].
    rewrite IH. reflexivity.
Qed.

Lemma get_set_ScaleFactor (ds : file) (g v : grid cell) :
  get_ScaleFactor ds = inr g -> get_ScaleFactor (set_ScaleFactor ds v) = inr v.
Proof. destruct ds; simpl; intros [=]. reflexivity. Qed.

Lemma get_ScaleFactor_set_hemco_attrs (ds : file) :
  get_ScaleFactor (set_hemco_attrs ds) = get_ScaleFactor ds.
Proof. now destruct ds. Qed.

Section Loop.

Variable w : world.
Variables base_directory prior_cache : string.
Variable nudge_factor : Qc.
Variable areas : grid cell.
Variable mask : grid bool.
Variable names : list string.
Hypothesis Hnames : w_listdir w !! prior_cache = Some names.

Let body :=
  period_iteration base_directory prior_cache nudge_factor areas mask
    (hemco_files names).
Let original := original_emis_of_period w prior_cache.
Let posterior := posterior_of_period w base_directory.
Let loads := period_loads w base_directory prior_cache.

(** One iteration, run in a world that differs from [w] by loads only. *)
Lemma period_iteration_run (p0 : nat) (sf : file)
  (g old original_emis posterior_sf : grid cell) (ls : list string) :
  get_ScaleFactor sf = inr g ->
  original (S p0) = Some original_emis ->
  posterior (S p0) = Some posterior_sf ->
  body p0 (sf, old) (loaded ls w)
  = match period_update nudge_factor areas mask
            posterior_sf g original_emis with
    | inl e => inl e
    | inr new_sf =>
        inr ((set_ScaleFactor sf new_sf, original_emis),
             loaded (ls ++ loads (S p0)) w)
    end.
Proof.
  intros Hg. subst original posterior loads.
  unfold original_emis_of_period, posterior_of_period, period_loads,
    hemco_file_of_period.
  rewrite Hnames. cbn [mbind option_bind ok].
  replace (S p0 - 1)%nat with (p0 - 0)%nat by lia.
  destruct (hemco_files names !! (p0 - 0)%nat) as [name|] eqn:Hname;
    cbn [mbind option_bind ok]; [|discriminate].
  destruct (w_netcdf w !! path_join prior_cache name) as [hemco|] eqn:Hh;
    cbn [mbind option_bind ok]; [|discriminate].
  destruct (get_EmisCH4_Total_time0 hemco) as [e|original_emis'] eqn:He;
    cbn [mbind option_bind ok]; [discriminate|]. intros [= ->].
  destruct (w_netcdf w !! gridded_posterior_path base_directory (S p0))
    as [posterior_p|] eqn:Hp; cbn [mbind option_bind ok]; [|discriminate].
  destruct (get_ScaleFactor posterior_p) as [e|posterior_sf'] eqn:Hps;
    cbn [mbind option_bind ok]; [discriminate|]. intros [= ->].
  assert (Hpath : hemco_emis_path prior_cache (hemco_files names) (p0 + 1)
                  = inr (path_join prior_cache name)).
  { unfold hemco_emis_path, item. replace (p0 + 1 - 1)%nat with (p0 - 0)%nat
      by lia. now rewrite Hname. }
  subst body. unfold period_iteration.
  rewrite (bind_run _ _ _ _ _ (lift_run _ _ _ Hpath)).
  rewrite (bind_run _ _ _ _ _ (load_dataset_run _ (loaded ls w) _ Hh)).
  rewrite (bind_run _ _ _ _ _ (lift_run _ _ _ He)).
  replace (p0 + 1)%nat with (S p0) by lia.
  rewrite (bind_run _ _ _ _ _ (load_dataset_run _ (loaded _ (loaded ls w)) _ Hp)).
  rewrite (bind_run _ _ _ _ _ (lift_run _ _ _ Hps)).
  rewrite (bind_run _ _ _ _ _ (lift_run _ _ _ Hg)).
  destruct (period_update nudge_factor areas mask posterior_sf g original_emis)
    as [e|new_sf].
  - reflexivity.
  - rewrite (bind_run _ _ _ _ _ (lift_run _ _ _ eq_refl)).
    unfold ret. rewrite !loaded_loaded. reflexivity.
Qed.

Variable unit_sf : grid cell.

Let after :=
  scale_factor_after w base_directory prior_cache nudge_factor areas mask
    unit_sf.

Lemma scale_factor_after_succ (p : nat) (g' : grid cell) :
  after (S p) = Some g' ->
  exists g original_emis posterior_sf,
    after p = Some g
    /\ original (S p) = Some original_emis
    /\ posterior (S p) = Some posterior_sf
    /\ period_update nudge_factor areas mask posterior_sf g original_emis
       = inr g'.
Proof.
  subst after original posterior. cbn [scale_factor_after].
  destruct (scale_factor_after _ _ _ _ _ _ _ p) as [g|];
    cbn [mbind option_bind]; [|discriminate].
  destruct (original_emis_of_period w prior_cache (S p)) as [o|];
    cbn [mbind option_bind]; [|discriminate].
  destruct (posterior_of_period w base_directory (S p)) as [q|];
    cbn [mbind option_bind]; [|discriminate].
  destruct (period_update nudge_factor areas mask q g o) as [e|u] eqn:Hu;
    cbn [ok]; [discriminate|].
  intros [= <-]. eauto 10.
Qed.

Lemma scale_factor_after_step (p : nat) (g g' original_emis posterior_sf
  : grid cell) :
  after p = Some g ->
  original (S p) = Some original_emis ->
  posterior (S p) = Some posterior_sf ->
  period_update nudge_factor areas mask posterior_sf g original_emis = inr g' ->
  after (S p) = Some g'.
Proof.
  subst after original posterior. cbn [scale_factor_after].
  intros -> -> -> Hu. cbn [mbind option_bind]. now rewrite Hu.
Qed.

(** The scale factor after [n + m] periods exists only if the one after
    [n] periods does. *)
Lemma scale_factor_after_prefix (n m : nat) (g' : grid cell) :
  after (n + m) = Some g' -> exists g, after n = Some g.
Proof.
  revert g'. induction m as [|m IH]; intros g'.
  - rewrite Nat.add_0_r. eauto.
  - rewrite Nat.add_succ_r. intros H.
    destruct (scale_factor_after_succ _ _ H) as (g & _ & _ & Hg & _).
    eauto.
Qed.

(** The loads of periods [a + 1 .. a + k]. *)
Let loads_from (a k : nat) : list string :=
  concat (map loads (seq (S a) k)).

(** If the recurrence is defined up to period [a + k], the loop over
    [a .. a + k - 1] runs through and leaves its scale factor. *)
Lemma for_each_periods_run (k a : nat) (sf : file) (g g' old : grid cell)
  (ls : list string) :
  get_ScaleFactor sf = inr g ->
  after a = Some g ->
  after (a + k) = Some g' ->
  exists sf' old',
    for_each (seq a k) body (sf, old) (loaded ls w)
    = inr ((sf', old'), loaded (ls ++ loads_from a k) w)
    /\ get_ScaleFactor sf' = inr g'.
Proof.
  revert a sf g old ls. induction k as [|k IH]; intros a sf g old ls Hsf Ha Hk.
  - rewrite Nat.add_0_r, Ha in Hk. injection Hk as <-.
    exists sf, old. unfold loads_from. simpl. rewrite app_nil_r.
    split; [reflexivity|exact Hsf].
  - rewrite Nat.add_succ_r, <- Nat.add_succ_l in Hk.
    destruct (scale_factor_after_prefix _ _ _ Hk) as [g1 Hg1].
    destruct (scale_factor_after_succ _ _ Hg1) as (g0 & o & q & Ha' & Ho & Hq & Hu).
    rewrite Ha in Ha'. injection Ha' as <-.
    destruct (IH (S a) (set_ScaleFactor sf g1) g1 o (ls ++ loads (S a))
                (get_set_ScaleFactor _ _ _ Hsf) Hg1 Hk)
      as (sf' & old' & Hrun & Hsf').
    exists sf', old'. split; [|exact Hsf'].
    cbn [seq for_each].
    assert (Hbody : body a (sf, old) (loaded ls w)
                    = inr ((set_ScaleFactor sf g1, o),
                           loaded (ls ++ loads (S a)) w)).
    { rewrite (period_iteration_run a sf g old o q ls Hsf Ho Hq).
      now rewrite Hu. }
    rewrite (bind_run _ _ _ _ _ Hbody), Hrun.
    unfold loads_from. cbn [seq map concat]. now rewrite app_assoc.
Qed.

Lemma period_iteration_inr (p0 : nat) (sf : file) (old : grid cell)
  (ls : list string) (st : file * grid cell) (w' : world) :
  body p0 (sf, old) (loaded ls w) = inr (st, w') ->
  exists original_emis posterior_sf,
    original (S p0) = Some original_emis
    /\ posterior (S p0) = Some posterior_sf.
Proof.
  subst body original posterior. unfold period_iteration. intros H.
  repeat step_inr H.
  unfold original_emis_of_period, posterior_of_period, hemco_file_of_period.
  rewrite Hnames. cbn [mbind option_bind].
  unfold hemco_emis_path, item in Hstep.
  replace (p0 + 1 - 1)%nat with (S p0 - 1)%nat in Hstep by lia.
  destruct (hemco_files names !! (S p0 - 1)%nat) as [name|];
    [|discriminate]. injection Hstep as <-.
  cbn [mbind option_bind].
  change (w_netcdf (loaded ls w)) with (w_netcdf w) in Hstep0.
  rewrite Hstep0. cbn [mbind option_bind]. rewrite Hstep1. cbn [ok].
  replace (p0 + 1)%nat with (S p0) in Hstep2 by lia.
  change (w_netcdf (loaded ?x (loaded ls w))) with (w_netcdf w) in Hstep2.
  rewrite Hstep2. cbn [mbind option_bind]. rewrite Hstep3. cbn [ok].
  eauto.
Qed.

(** Conversely, a loop that ran through followed the recurrence. *)
Lemma for_each_periods_inr (k a : nat) (sf : file) (g old : grid cell)
  (ls : list string) (st : file * grid cell) (w' : world) :
  get_ScaleFactor sf = inr g ->
  after a = Some g ->
  for_each (seq a k) body (sf, old) (loaded ls w) = inr (st, w') ->
  exists g',
    after (a + k) = Some g'
    /\ get_ScaleFactor st.1 = inr g'
    /\ w' = loaded (ls ++ loads_from a k) w.
Proof.
  revert a sf g old ls. induction k as [|k IH]; intros a sf g old ls Hsf Ha H.
  - cbn [seq for_each] in H. unfold ret in H. injection H as <- <-.
    exists g. rewrite Nat.add_0_r. unfold loads_from. simpl.
    now rewrite app_nil_r.
  - cbn [seq for_each] in H. apply bind_inr in H.
    destruct H as ([sf1 o1] & w1 & Hbody & H).
    destruct (period_iteration_inr _ _ _ _ _ _ Hbody) as (o & q & Ho & Hq).
    rewrite (period_iteration_run a sf g old o q ls Hsf Ho Hq) in Hbody.
    destruct (period_update nudge_factor areas mask q g o) as [e|g1] eqn:Hu;
      [discriminate|].
    injection Hbody as <- <- <-.
    pose proof (scale_factor_after_step _ _ _ _ _ Ha Ho Hq Hu) as Hg1.
    destruct (IH (S a) _ g1 _ _ (get_set_ScaleFactor _ _ _ Hsf) Hg1 H)
      as (g' & Hk & Hst & Hw).
    exists g'. rewrite Nat.add_succ_r. split; [exact Hk|].
    split; [exact Hst|]. rewrite Hw. unfold loads_from.
    cbn [seq map concat]. now rewrite app_assoc.
Qed.

End Loop.

Lemma period_iteration_needs_sf (base_directory prior_cache : string)
  (nudge_factor : Qc) (areas : grid cell) (mask : grid bool)
  (hemco_list : list string) (p0 : nat) (sf : file) (old : grid cell)
  (w w' : world) (st : file * grid cell) :
  period_iteration base_directory prior_cache nudge_factor areas mask
    hemco_list p0 (sf, old) w = inr (st, w') ->
  exists g, get_ScaleFactor sf = inr g.
Proof.
  unfold period_iteration. intros H. repeat step_inr H. eauto.
Qed.

Lemma written_lookup_save (save archive : string) (ds : file) (w : world) :
  w_netcdf (written archive ds (written save ds w)) !! save = Some ds
  /\ w_netcdf (written archive ds (written save ds w)) !! archive = Some ds.
Proof.
  unfold written. cbn [w_netcdf]. split.
  - destruct (decide (archive = save)) as [->|Hne].
    + apply lookup_insert_eq.
    + rewrite lookup_insert_ne by exact Hne. apply lookup_insert_eq.
  - apply lookup_insert_eq.
Qed.

(** ** Later periods *)

(** C3: for a period number [n > 1], a run of [prepare_sf] that completes
    has loaded, after its inputs and in this order, for [p = 1 .. n - 1] the
    HEMCO file at entry [p - 1] of the sorted list and then
    [kf_inversions/period{p}/gridded_posterior.nc]; the [ScaleFactor] it
    writes is [scale_factor_after (n - 1)], where the scale factor after
    period [p] is the update of period [p] applied to the one after period
    [p - 1], starting from the unit scale factors. *)
Theorem prepare_sf_recurrence (config_path base_directory : string)
  (period_number : Z) (nudge_factor : Qc) (w w1 w' : world) (inp : inputs) :
  (period_number > 1)%Z ->
  read_inputs config_path base_directory w = inr (inp, w1) ->
  prepare_sf config_path period_number base_directory nudge_factor w
  = inr (tt, w') ->
  exists (unit_sf final : grid cell) (names : list string) (out : file),
    w_netcdf w !! path_join base_directory "unit_sf.nc" = Some (in_sf inp)
    /\ get_ScaleFactor (in_sf inp) = inr unit_sf
    /\ w_listdir w !! in_prior_cache inp = Some names
    /\ scale_factor_after w base_directory (in_prior_cache inp) nudge_factor
         (in_areas inp) (in_mask inp) unit_sf (Z.to_nat (period_number - 1))
       = Some final
    /\ w_netcdf w' !! save_path base_directory = Some out
    /\ w_netcdf w' !! archive_path base_directory period_number = Some out
    /\ get_ScaleFactor out = inr final
    /\ w_loads w'
       = w_loads w1
         ++ concat (map (period_loads w base_directory (in_prior_cache inp))
                      (seq 1 (Z.to_nat (period_number - 1)))).
Proof.
  intros Hn Hread H.
  destruct (read_inputs_inr _ _ _ _ _ Hread)
    as (diags_path & ? & ? & ? & ? & Hw1 & Hunit & _).
  unfold prepare_sf in H. rewrite (bind_run _ _ _ _ _ Hread) in H.
  apply bind_inr in H. destruct H as ([sf o] & w2 & Hloop & Hsave).
  unfold update_periods in Hloop.
  rewrite bool_decide_eq_true_2 in Hloop by exact Hn.
  apply bind_inr in Hloop. destruct Hloop as (names & w3 & Hls & Hloop).
  apply listdir_inr in Hls. destruct Hls as [Hnames ->].
  apply bind_inr in Hloop. destruct Hloop as ([sf' o'] & w4 & Hloop & Hrest).
  apply bind_inr in Hrest. destruct Hrest as ([] & w5 & Hprint & Hret).
  unfold print in Hprint. injection Hprint as <-.
  unfold ret in Hret. injection Hret as <- <- <-.
  unfold range in Hloop.
  assert (Hpos : exists k, Z.to_nat (period_number - 1) = S k).
  { exists (Z.to_nat (period_number - 2)). lia. }
  assert (Hsf : exists g, get_ScaleFactor (in_sf inp) = inr g).
  { destruct Hpos as [k Hk]. rewrite Hk in Hloop. cbn [seq for_each] in Hloop.
    apply bind_inr in Hloop. destruct Hloop as (st1 & w6 & Hbody & _).
    exact (period_iteration_needs_sf _ _ _ _ _ _ _ _ _ _ _ _ Hbody). }
  destruct Hsf as [unit_sf Hsf].
  rewrite Hw1 in Hnames, Hloop. change (w_listdir (loaded ?l w))
    with (w_listdir w) in Hnames.
  destruct (for_each_periods_inr w base_directory (in_prior_cache inp)
              nudge_factor (in_areas inp) (in_mask inp) names Hnames unit_sf
              _ 0%nat _ unit_sf _ _ _ _ Hsf eq_refl Hloop)
    as (final & Hfinal & Hst & Hw4).
  cbn [fst] in Hst. rewrite Nat.add_0_l in Hfinal.
  unfold save_scale_factors in Hsave. cbn [fst snd] in Hsave.
  rewrite (bind_run _ _ _ _ _ (lift_run _ _ _ Hst)) in Hsave.
  unfold bind, print, to_netcdf in Hsave. injection Hsave as <-.
  exists unit_sf, final, names, (set_hemco_attrs sf').
  destruct (written_lookup_save (save_path base_directory)
              (archive_path base_directory period_number)
              (set_hemco_attrs sf')
              (printed [TotalPriorEmission
                          (sum_total_emissions (fmul final o')
                             (in_areas inp) (in_mask inp))]
                 (printed [UsedHemcoUpTo (period_number - 1)] w4)))
    as [Hsave Harch].
  repeat split; try assumption.
  - now rewrite get_ScaleFactor_set_hemco_attrs.
  - rewrite Hw4, Hw1. cbn [written printed loaded w_loads].
    now rewrite app_assoc.
Qed.

(** ** Division by a zero total *)

(** The update of one period fails in one way only: the division of the
    two totals, when the nudged total is zero. *)
Lemma period_update_raises (nudge_factor : Qc) (areas : grid cell)
  (mask : grid bool) (posterior_sf sf original_emis : grid cell) (e : exn) :
  period_update nudge_factor areas mask posterior_sf sf original_emis = inl e
  <-> e = ZeroDivisionError
      /\ sum_total_emissions
           (nudged_posterior_emis nudge_factor original_emis
              (current_posterior_emis posterior_sf sf original_emis))
           areas mask = 0.
Proof.
  unfold period_update, lambda_scaler, float_div.
  destruct (decide (sum_total_emissions _ areas mask = 0)) as [Hz|Hnz].
  - split; [intros [= <-]; now split | now intros [-> _]].
  - split; [discriminate | now intros [_ Hz]].
Qed.

(** C7: the division [current_total / nudged_total] of a period iteration
    is unguarded.  When periods [1 .. p] went through and the nudged total
    of period [p + 1] is zero, the update of that period raises
    [ZeroDivisionError], and so does [prepare_sf]: no branch handles it. *)
Theorem prepare_sf_zero_nudged_total (config_path base_directory : string)
  (period_number : Z) (nudge_factor : Qc) (w w1 : world) (inp : inputs)
  (p : nat) (unit_sf sf original_emis posterior_sf : grid cell) :
  read_inputs config_path base_directory w = inr (inp, w1) ->
  get_ScaleFactor (in_sf inp) = inr unit_sf ->
  (Z.of_nat p < period_number - 1)%Z ->
  scale_factor_after w base_directory (in_prior_cache inp) nudge_factor
    (in_areas inp) (in_mask inp) unit_sf p = Some sf ->
  original_emis_of_period w (in_prior_cache inp) (S p) = Some original_emis ->
  posterior_of_period w base_directory (S p) = Some posterior_sf ->
  sum_total_emissions
    (nudged_posterior_emis nudge_factor original_emis
       (current_posterior_emis posterior_sf sf original_emis))
    (in_areas inp) (in_mask inp) = 0 ->
  period_update nudge_factor (in_areas inp) (in_mask inp)
    posterior_sf sf original_emis = inl ZeroDivisionError
  /\ prepare_sf config_path period_number base_directory nudge_factor w
     = inl ZeroDivisionError.
Proof.
  intros Hread Hunit Hp Hsf Ho Hq Hz.
  assert (Hu : period_update nudge_factor (in_areas inp) (in_mask inp)
                 posterior_sf sf original_emis = inl ZeroDivisionError).
  { apply period_update_raises. now split. }
  split; [exact Hu|].
  destruct (read_inputs_inr _ _ _ _ _ Hread)
    as (diags_path & ? & ? & ? & ? & Hw1 & _).
  assert (Hnames : exists names,
            w_listdir w !! in_prior_cache inp = Some names).
  { unfold original_emis_of_period, hemco_file_of_period in Ho.
    destruct (w_listdir w !! in_prior_cache inp) as [names|]; [eauto|].
    discriminate. }
  destruct Hnames as [names Hnames].
  unfold prepare_sf. rewrite (bind_run _ _ _ _ _ Hread).
  apply bind_raise. unfold update_periods.
  rewrite bool_decide_eq_true_2 by lia.
  assert (Hls : listdir (in_prior_cache inp) w1 = inr (names, w1)).
  { unfold listdir. rewrite Hw1.
    change (w_listdir (loaded ?l w)) with (w_listdir w). now rewrite Hnames. }
  rewrite (bind_run _ _ _ _ _ Hls). apply bind_raise.
  unfold range.
  replace (Z.to_nat (period_number - 1))
    with (p + S (Z.to_nat (period_number - 1) - S p))%nat by lia.
  rewrite seq_app, for_each_app, Nat.add_0_l, Hw1.
  destruct (for_each_periods_run w base_directory (in_prior_cache inp)
              nudge_factor (in_areas inp) (in_mask inp) names Hnames unit_sf
              p 0%nat (in_sf inp) unit_sf sf (in_original_emis inp)
              [path_join base_directory "StateVector.nc"; diags_path;
               diags_path; path_join base_directory "unit_sf.nc"]
              Hunit eq_refl Hsf)
    as (sf' & old' & Hrun & Hsf').
  rewrite (bind_run _ _ _ _ _ Hrun). cbn [seq for_each].
  apply bind_raise.
  rewrite (period_iteration_run w base_directory (in_prior_cache inp)
             nudge_factor (in_areas inp) (in_mask inp) names Hnames
             p sf' sf old' original_emis posterior_sf _ Hsf' Ho Hq).
  now rewrite Hu.
Qed.

(** ** The region-of-interest mask *)

Lemma fmax_nan_foldr (xs : list cell) (m : Qc) :
  foldr fmax_nan nan xs = Some m ->
  Some m ∈ xs /\ forall l, Some l ∈ xs -> l <= m.
Proof.
  revert m. induction xs as [|x xs IH]; intros m; simpl; [discriminate|].
  destruct (foldr fmax_nan nan xs) as [r|] eqn:Hr.
  - destruct (IH r eq_refl) as [Hin Hmax].
    destruct x as [a|]; simpl.
    + case_bool_decide as Hle; intros [= <-].
      * split; [now right|]. intros l [[= ->]|Hl]%elem_of_cons; auto.
      * split; [now left|]. intros l [[= ->]|Hl]%elem_of_cons.
        -- apply Qcle_refl.
        -- apply Qcle_trans with r; [auto|].
           apply Qclt_le_weak. now apply Qcnot_le_lt.
    + intros [= <-]. split; [now right|].
      intros l [[=]|Hl]%elem_of_cons. auto.
  - destruct x as [a|]; simpl; [|discriminate]. intros [= <-].
    split; [now left|]. intros l [[= ->]|Hl]%elem_of_cons.
    + apply Qcle_refl.
    + exfalso. clear IH. induction xs as [|y ys IHy]; [inversion Hl|].
      simpl in Hr. destruct (foldr fmax_nan nan ys) as [r|].
      * destruct y; discriminate.
      * destruct y as [b|]; [discriminate|].
        apply elem_of_cons in Hl as [[=]|Hl]. now apply IHy.
Qed.

(** [np.nanmax] gives the largest label. *)
Lemma nanmax_is_max (labels : grid cell) (m : Qc) :
  nanmax labels = inr (Some m) ->
  m ∈ label_values labels /\ forall l, l ∈ label_values labels -> l <= m.
Proof.
  unfold nanmax, label_values. intros H.
  assert (Hf : foldr fmax_nan nan (concat labels) = Some m).
  { destruct (concat labels); [discriminate|]. now injection H. }
  destruct (fmax_nan_foldr _ _ Hf) as [Hin Hmax]. split.
  - apply elem_of_remove_dups, list_elem_of_omap. now exists (Some m).
  - intros l Hl. apply elem_of_remove_dups, list_elem_of_omap in Hl.
    destruct Hl as ([l'|] & Hl & [=]). subst. auto.
Qed.

Lemma int_of_float_integer (z : Z) : int_of_float (Some (Qc_of_Z z)) = inr z.
Proof. unfold int_of_float. simpl. now rewrite Z.quot_1_r. Qed.

Lemma roi_mask_lookup (labels : grid cell) (last : Z) (i j : nat) :
  grid_lookup (roi_mask labels last) i j = Some true
  <-> exists l, grid_lookup labels i j = Some (Some l) /\ l <= Qc_of_Z last.
Proof.
  unfold roi_mask. rewrite grid_lookup_map.
  destruct (grid_lookup labels i j) as [[l|]|]; simpl.
  - split.
    + intros [= H]. apply bool_decide_eq_true in H. eauto.
    + intros (l' & [= <-] & H). f_equal. now apply bool_decide_eq_true.
  - split; [discriminate|]. now intros (l' & [=] & _).
  - split; [discriminate|]. now intros (l' & [=] & _).
Qed.

(** With [k] consecutive integers among the labels, a label that fewer than
    [k] labels exceed lies above all of them but the [k] highest. *)
Lemma among_highest_above (labels : grid cell) (k z : Z) (l : Qc) :
  (forall t, (0 <= t < k)%Z -> Qc_of_Z (z - t) ∈ label_values labels) ->
  among_highest k labels l = true ->
  Qc_of_Z (z - k) < l.
Proof.
  intros Hall Hl. unfold among_highest in Hl.
  apply andb_true_iff in Hl as [_ Hcount]. apply bool_decide_eq_true in Hcount.
  apply Qcnot_le_lt. intros Hle.
  set (top := map (fun t => Qc_of_Z (z - Z.of_nat t)) (seq 0 (Z.to_nat k))).
  assert (Hnd : NoDup top).
  { apply NoDup_fmap_2_strong; [|apply NoDup_seq].
    intros a b _ _ Hab. apply Z2Qc_inj in Hab. clear -Hab. lia. }
  assert (Hsub : top ⊆+ filter (fun x => l < x) (label_values labels)).
  { apply NoDup_submseteq; [exact Hnd|]. intros x Hx.
    apply list_elem_of_fmap in Hx as (t & -> & Ht).
    apply elem_of_seq in Ht. apply list_elem_of_filter. split.
    - apply Qcle_lt_trans with (Qc_of_Z (z - k)); [exact Hle|].
      apply (proj1 (Z2Qc_inj_lt _ _)). lia.
    - apply Hall. lia. }
  apply submseteq_length in Hsub. unfold top in Hsub.
  rewrite length_map, length_seq in Hsub. lia.
Qed.

(** Settle a closed decidable proposition by evaluation. *)
Ltac by_evaluation :=
  match goal with
  | |- ~ ?P => apply (bool_decide_eq_false_1 P); vm_compute; reflexivity
  | |- ?P => apply (bool_decide_eq_true_1 P); vm_compute; reflexivity
  end.

(** C5, as amended: the mask selects exactly the cells whose label is a
    number at most [int(max - nBufferClusters)], [int] truncating towards
    zero.  When the maximum label is an integer, that threshold is
    [max - nBufferClusters]; when moreover the [nBufferClusters] integers
    just below and up to the maximum all occur as labels, every cell of the
    [nBufferClusters] highest-labelled clusters is excluded. *)
Theorem roi_mask_threshold (labels : grid cell) (config : gmap string Z)
  (nbuf : Z) (m : Qc) :
  nanmax labels = inr (Some m) ->
  config !! "nBufferClusters" = Some nbuf ->
  exists last,
    last_ROI_element labels config = inr last
    /\ int_of_float (Some (m - Qc_of_Z nbuf)) = inr last
    /\ (forall i j,
          grid_lookup (roi_mask labels last) i j = Some true
          <-> exists l, grid_lookup labels i j = Some (Some l)
                        /\ l <= Qc_of_Z last)
    /\ (forall z, m = Qc_of_Z z ->
          last = (z - nbuf)%Z
          /\ selects_up_to_max_minus_buffer labels nbuf (roi_mask labels last)
          /\ ((forall t, (0 <= t < nbuf)%Z ->
                 Qc_of_Z (z - t) ∈ label_values labels) ->
              excludes_highest_clusters labels nbuf (roi_mask labels last))).
Proof.
  intros Hm Hcfg.
  destruct (int_of_float (Some (m - Qc_of_Z nbuf))) as [e|last] eqn:Hint;
    [discriminate|].
  exists last.
  assert (Hlast : last_ROI_element labels config = inr last).
  { unfold last_ROI_element, dict_get. now rewrite Hm, Hcfg. }
  split; [exact Hlast|]. split; [reflexivity|].
  split; [apply roi_mask_lookup|].
  intros z ->. rewrite <- Z2Qc_inj_sub, int_of_float_integer in Hint.
  injection Hint as <-. split; [reflexivity|]. split.
  - exists (Qc_of_Z z). split; [exact Hm|]. intros i j.
    rewrite <- Z2Qc_inj_sub. apply roi_mask_lookup.
  - intros Hall i j l Hl Htop.
    pose proof (among_highest_above labels nbuf z l Hall Htop) as Hlt.
    unfold roi_mask. rewrite grid_lookup_map, Hl. simpl. f_equal.
    apply bool_decide_eq_false. now apply Qclt_not_le.
Qed.

(** C5 as stated fails.  With a fractional label the threshold is
    truncated: labels 1, 2, 5/2 and no buffer cluster give the threshold 2,
    and the cell labelled 5/2 is left out.  With a gap in the labels the
    [nBufferClusters] highest clusters are not all above the threshold:
    labels 1, 2, 10 and two buffer clusters give the threshold 8, and the
    cell labelled 2 is selected. *)
Lemma roi_mask_counterexample :
  let fractional := [[Some 1; Some 2; Some (Q2Qc (5 # 2))]] in
  let gapped := [[Some 1; Some 2; Some (Qc_of_Z 10)]] in
  (last_ROI_element fractional {["nBufferClusters" := 0%Z]} = inr 2%Z
   /\ roi_mask fractional 2 = [[true; true; false]]
   /\ ~ selects_up_to_max_minus_buffer fractional 0 (roi_mask fractional 2))
  /\ (last_ROI_element gapped {["nBufferClusters" := 2%Z]} = inr 8%Z
      /\ roi_mask gapped 8 = [[true; true; false]]
      /\ ~ excludes_highest_clusters gapped 2 (roi_mask gapped 8)).
Proof.
  intros fractional gapped. split; split.
  - vm_compute. reflexivity.
  - split; [vm_compute; reflexivity|].
    intros (m & Hm & H). injection Hm as <-.
    assert (Hsel : grid_lookup (roi_mask fractional 2) 0 2 = Some true).
    { apply H. exists (Q2Qc (5 # 2)). split; [reflexivity|]. by_evaluation. }
    vm_compute in Hsel. discriminate.
  - vm_compute. reflexivity.
  - split; [vm_compute; reflexivity|].
    intros H.
    assert (Hexcl : grid_lookup (roi_mask gapped 8) 0 1 = Some false).
    { apply (H 0%nat 1%nat 2); [reflexivity|]. vm_compute. reflexivity. }
    vm_compute in Hexcl. discriminate.
Qed.

(** ** filter_tropomi *)

Lemma try_map_lookup {A B} (f : A -> result B) (l : list A) (ys : list B)
  (i : nat) :
  try_map f l = inr ys -> ys !! i = l !! i ≫= (fun x => ok (f x)).
Proof.
  revert ys i. induction l as [|x l IH]; intros ys i; simpl.
  - now intros [= <-].
  - destruct (f x) as [e|y] eqn:Hx; [discriminate|].
    destruct (try_map f l) as [e|ys']; [discriminate|]. intros [= <-].
    destruct i as [|i]; simpl; [now rewrite Hx|]. now apply IH.
Qed.

Lemma try_map_all {A B} (f : A -> result B) (l : list A) (ys : list B) :
  try_map f l = inr ys -> forall x, x ∈ l -> exists y, f x = inr y.
Proof.
  revert ys. induction l as [|a l IH]; intros ys; simpl.
  - intros _ x Hx. inversion Hx.
  - destruct (f a) as [e|y] eqn:Ha; [discriminate|].
    destruct (try_map f l) as [e|ys']; [discriminate|]. intros _ x Hx.
    apply elem_of_cons in Hx as [->|Hx]; eauto.
Qed.

Lemma try_map_inr {A B} (f : A -> result B) (l : list A) :
  (forall x, x ∈ l -> exists y, f x = inr y) -> exists ys, try_map f l = inr ys.
Proof.
  induction l as [|x l IH]; intros H; simpl; [eauto|].
  destruct (H x) as [y ->]; [now left|].
  destruct IH as [ys ->]; [|eauto]. intros x' Hx'. apply H. now right.
Qed.

Lemma ptp_axis2_lookup (a : grid (list cell)) (s : grid cell) (i j : nat) :
  ptp_axis2 a = inr s ->
  grid_lookup s i j = grid_lookup a i j ≫= (fun v => ok (ptp v)).
Proof.
  unfold ptp_axis2, grid_lookup. intros H.
  rewrite (try_map_lookup _ _ _ i H).
  destruct (a !! i) as [r|] eqn:Hi; simpl; [|reflexivity].
  destruct (try_map_all _ _ _ H r) as [r' Hr].
  { now apply list_elem_of_lookup_2 with i. }
  rewrite Hr. simpl. apply (try_map_lookup _ _ _ j Hr).
Qed.

Lemma ptp_axis2_inr (a : grid (list cell)) :
  (forall i j v, grid_lookup a i j = Some v -> v <> []) ->
  exists s, ptp_axis2 a = inr s.
Proof.
  intros H. apply try_map_inr. intros r Hr.
  apply list_elem_of_lookup in Hr as [i Hi].
  apply try_map_inr. intros v Hv.
  apply list_elem_of_lookup in Hv as [j Hj].
  assert (Hne : v <> []).
  { apply (H i j). unfold grid_lookup. rewrite Hi. exact Hj. }
  destruct v as [|x v]; [congruence|]. simpl. eauto.
Qed.

(** The folds of [ptp] over numbers give the largest and the smallest. *)
Lemma fold_extrema (qs : list Qc) (q0 : Qc) :
  exists hi lo,
    foldr fmax (Some q0) (map Some qs) = Some hi
    /\ foldr fmin (Some q0) (map Some qs) = Some lo
    /\ hi ∈ q0 :: qs /\ lo ∈ q0 :: qs
    /\ forall q, q ∈ q0 :: qs -> lo <= q /\ q <= hi.
Proof.
  induction qs as [|a qs IH]; simpl.
  - exists q0, q0. repeat split; try now left.
    + apply list_elem_of_singleton in H as ->. apply Qcle_refl.
    + apply list_elem_of_singleton in H as ->. apply Qcle_refl.
  - destruct IH as (hi & lo & -> & -> & Hhi & Hlo & Hall). simpl.
    assert (Hlohi : lo <= hi).
    { destruct (Hall q0) as [H1 H2]; [now left|]. now apply Qcle_trans with q0. }
    exists (if bool_decide (a <= hi) then hi else a),
           (if bool_decide (a <= lo) then a else lo).
    split; [reflexivity|]. split; [reflexivity|].
    assert (Hmem : forall x, x ∈ q0 :: qs -> x ∈ q0 :: a :: qs).
    { intros x [->|Hx]%elem_of_cons; [now left|]. right. now right. }
    assert (Ha : a ∈ q0 :: a :: qs) by (right; now left).
    repeat case_bool_decide; repeat split; auto;
      apply elem_of_cons in H1 as [->|[->|H1]%elem_of_cons];
      try apply Qcle_refl;
      try (destruct (Hall q0) as [? ?]; [now left|]);
      try (destruct (Hall q) as [? ?]; [now right|]);
      repeat match goal with
             | Hn : ~ _ <= _ |- _ =>
                 apply Qcnot_le_lt, Qclt_le_weak in Hn
             end;
      eauto using Qcle_trans.
Qed.

Lemma fold_nan (f : cell -> cell -> cell) (v : list cell) (x : cell)
  (r : Qc) :
  (forall a b, f a b <> None -> a <> None /\ b <> None) ->
  foldr f x v = Some r -> exists q0 qs, x = Some q0 /\ v = map Some qs.
Proof.
  intros Hf. revert r. induction v as [|a v IH]; intros r; simpl.
  - intros ->. now exists r, [].
  - intros H. destruct (Hf a (foldr f x v)) as [Ha Hv]; [now rewrite H|].
    destruct a as [a|]; [|congruence].
    destruct (foldr f x v) as [r'|]; [|congruence].
    destruct (IH r' eq_refl) as (q0 & qs & -> & ->).
    now exists q0, (a :: qs).
Qed.

(** [ptp] is below [c] exactly for corners that are numbers less than [c]
    apart. *)
Lemma ptp_below (v : list cell) (p : cell) (c : Qc) :
  ptp v = inr p -> ltb p c = true <-> spread_below v c.
Proof.
  destruct v as [|x v]; simpl; [discriminate|]. intros [= <-]. split.
  - destruct (foldr fmax x v) as [hi|] eqn:Hhi; [|discriminate].
    destruct (foldr fmin x v) as [lo|] eqn:Hlo; [|discriminate].
    simpl. intros Hlt. apply bool_decide_eq_true in Hlt.
    destruct (fold_nan fmax v x hi) as (q0 & qs & -> & ->); [|exact Hhi|].
    { intros [a|] [b|]; simpl; intros H; split; congruence. }
    destruct (fold_extrema qs q0) as (hi' & lo' & Hhi' & Hlo' & H1 & H2 & H3).
    rewrite Hhi in Hhi'. rewrite Hlo in Hlo'.
    injection Hhi' as <-. injection Hlo' as <-.
    exists (q0 :: qs), lo, hi. repeat split; auto; now apply H3.
  - intros (qs & lo & hi & Hv & Hlo & Hhi & Hall & Hlt).
    destruct qs as [|q0 qs]; [discriminate|]. simpl in Hv.
    injection Hv as -> ->.
    destruct (fold_extrema qs q0) as (hi' & lo' & -> & -> & H1 & H2 & H3).
    simpl. apply bool_decide_eq_true.
    assert (hi' = hi) as ->.
    { apply Qcle_antisym; [now apply Hall | now apply H3]. }
    assert (lo' = lo) as ->.
    { apply Qcle_antisym; [now apply H3 | now apply Hall]. }
    exact Hlt.
Qed.

Lemma elem_of_concat {A} (x : A) (ls : list (list A)) :
  x ∈ concat ls <-> exists l, l ∈ ls /\ x ∈ l.
Proof.
  rewrite list_elem_of_In, in_concat. split; intros (l & H1 & H2); exists l;
    now rewrite ?list_elem_of_In in *.
Qed.

(** [np.where] lists the positions of the true entries. *)
Lemma true_positions_spec (b : grid bool) (i j : nat) :
  (i, j) ∈ true_positions b <-> grid_lookup b i j = Some true.
Proof.
  unfold true_positions, grid_lookup. rewrite elem_of_concat. split.
  - intros (l & Hl & Hij).
    apply elem_of_lookup_imap in Hl as (i' & row & -> & Hrow).
    apply list_elem_of_omap in Hij as (o & Ho & Hid). simpl in Hid. subst o.
    apply elem_of_lookup_imap in Ho as (j' & x & Hx & Hj).
    destruct x; [|discriminate]. injection Hx as -> ->.
    rewrite Hrow. exact Hj.
  - destruct (b !! i) as [row|] eqn:Hrow; simpl; [|discriminate]. intros Hj.
    eexists. split; [apply (elem_of_lookup_imap_2 _ _ _ _ Hrow)|].
    apply list_elem_of_omap. exists (Some (i, j)). split; [|reflexivity].
    apply (elem_of_lookup_imap_2
             (fun j x => if x : bool then Some (i, j) else None) _ _ _ Hj).
Qed.

Lemma np_where_spec (b : grid bool) (i j : nat) :
  (i, j) ∈ zip (np_where b).1 (np_where b).2
  <-> grid_lookup b i j = Some true.
Proof.
  unfold np_where. cbn [fst snd]. rewrite zip_fst_snd.
  apply true_positions_spec.
Qed.

Lemma band_lookup (a b : grid bool) (i j : nat) :
  grid_lookup (band a b) i j = Some true
  <-> grid_lookup a i j = Some true /\ grid_lookup b i j = Some true.
Proof.
  unfold band. rewrite grid_lookup_zip.
  destruct (grid_lookup a i j) as [[|]|];
    destruct (grid_lookup b i j) as [[|]|]; simpl;
    split; try discriminate; try tauto; intros [? ?]; discriminate.
Qed.

Lemma grid_map_lookup_true {A} (f : A -> bool) (g : grid A) (i j : nat) :
  grid_lookup (grid_map f g) i j = Some true
  <-> exists x, grid_lookup g i j = Some x /\ f x = true.
Proof.
  rewrite grid_lookup_map. destruct (grid_lookup g i j) as [x|]; simpl.
  - split; [intros [= H]; eauto | intros (x' & [= <-] & ->); reflexivity].
  - split; [discriminate | intros (x' & [=] & _)].
Qed.

Lemma gtb_true (x : cell) (c : Qc) :
  gtb x c = true <-> exists a, x = Some a /\ c < a.
Proof.
  destruct x as [a|]; simpl.
  - rewrite bool_decide_eq_true. split; [eauto | now intros (? & [= <-] & ?)].
  - split; [discriminate | now intros (? & [=] & _)].
Qed.

Lemma ltb_true (x : cell) (c : Qc) :
  ltb x c = true <-> exists a, x = Some a /\ a < c.
Proof.
  destruct x as [a|]; simpl.
  - rewrite bool_decide_eq_true. split; [eauto | now intros (? & [= <-] & ?)].
  - split; [discriminate | now intros (? & [=] & _)].
Qed.

Lemma geb_true (x : cell) (c : Qc) :
  geb x c = true <-> exists a, x = Some a /\ c <= a.
Proof.
  destruct x as [a|]; simpl.
  - rewrite bool_decide_eq_true. split; [eauto | now intros (? & [= <-] & ?)].
  - split; [discriminate | now intros (? & [=] & _)].
Qed.

(** C6: [filter_tropomi] returns exactly the indices of the pixels whose
    longitude lies strictly between [xlim[0]] and [xlim[1]], whose latitude
    lies strictly between [ylim[0]] and [ylim[1]], whose time lies between
    [startdate] and [enddate] inclusive, whose [qa_value] is at least 0.5
    and whose corner longitudes spread over less than 100; it returns them
    whenever every pixel has a corner. *)
Theorem filter_tropomi_exact (d : tropomi_data) (xlim ylim : Qc * Qc)
  (startdate enddate : Z) :
  (forall i j v, grid_lookup (longitude_bounds d) i j = Some v -> v <> []) ->
  exists rows cols,
    filter_tropomi d xlim ylim startdate enddate = inr (rows, cols)
    /\ length rows = length cols
    /\ forall i j,
         (i, j) ∈ zip rows cols <-> passes d xlim ylim startdate enddate i j.
Proof.
  intros Hcorners. destruct (ptp_axis2_inr _ Hcorners) as [spread Hspread].
  unfold filter_tropomi. rewrite Hspread.
  match goal with
  | |- context [np_where ?b] => set (cond := b)
  end.
  exists (np_where cond).1, (np_where cond).2.
  split; [now destruct (np_where cond)|]. split.
  { unfold np_where. cbn [fst snd]. now rewrite !length_fmap. }
  intros i j. rewrite np_where_spec. unfold cond.
  rewrite !band_lookup, !grid_map_lookup_true. unfold passes. split.
  - intros (((((((H1 & H2) & H3) & H4) & H5) & H6) & H7) & H8).
    destruct H1 as (lon & Hlon & (a & -> & H1)%gtb_true).
    destruct H2 as (lon' & Hlon' & (a' & -> & H2)%ltb_true).
    destruct H3 as (lat & Hlat & (b & -> & H3)%gtb_true).
    destruct H4 as (lat' & Hlat' & (b' & -> & H4)%ltb_true).
    destruct H5 as (t & Ht & H5%bool_decide_eq_true).
    destruct H6 as (t' & Ht' & H6%bool_decide_eq_true).
    destruct H7 as (qa & Hqa & (q & -> & H7)%geb_true).
    destruct H8 as (s & Hs & H8).
    rewrite Hlon in Hlon'. injection Hlon' as <-.
    rewrite Hlat in Hlat'. injection Hlat' as <-.
    rewrite Ht in Ht'. injection Ht' as <-.
    rewrite (ptp_axis2_lookup _ _ i j Hspread) in Hs.
    destruct (grid_lookup (longitude_bounds d) i j) as [v|] eqn:Hv;
      [|discriminate]. simpl in Hs.
    destruct (ptp v) as [e|p] eqn:Hp; [discriminate|]. injection Hs as ->.
    exists a, b, q, t, v. repeat split; try assumption.
    now apply (ptp_below v s).
  - intros (lon & lat & qa & t & v & Hlon & Hlat & Ht & Hqa & Hv
            & H1 & H2 & H3 & H4 & H5 & H6 & H7 & H8).
    assert (Hp : exists p, ptp v = inr p).
    { destruct v as [|x v]; [now destruct (Hcorners i j [] Hv)|].
      simpl. eauto. }
    destruct Hp as [p Hp].
    repeat split.
    + exists (Some lon). split; [exact Hlon|]. apply gtb_true. eauto.
    + exists (Some lon). split; [exact Hlon|]. apply ltb_true. eauto.
    + exists (Some lat). split; [exact Hlat|]. apply gtb_true. eauto.
    + exists (Some lat). split; [exact Hlat|]. apply ltb_true. eauto.
    + exists t. split; [exact Ht|]. now apply bool_decide_eq_true.
    + exists t. split; [exact Ht|]. now apply bool_decide_eq_true.
    + exists (Some qa). split; [exact Hqa|]. apply geb_true. eauto.
    + exists p. split.
      * rewrite (ptp_axis2_lookup _ _ i j Hspread), Hv. simpl.
        now rewrite Hp.
      * now apply (ptp_below v p).
Qed.

(** ** filter_obs_with_mask *)

(** [argmin] gives a position of the smallest entry, and the first one. *)
Lemma argmin_from_spec (l : list Qc) (best_i i : nat) (best : Qc) :
  let k := argmin_from best_i best i l in
  (k = best_i /\ (forall n x, l !! n = Some x -> best <= x))
  \/ (exists n v, k = (i + n)%nat /\ l !! n = Some v /\ v < best
                  /\ (forall m x, l !! m = Some x -> v <= x)
                  /\ (forall m x, l !! m = Some x -> (m < n)%nat -> v < x)).
Proof.
  revert best_i i best. induction l as [|a l IH]; intros best_i i best; simpl.
  - left. split; [reflexivity|]. intros n x Hn. destruct n; discriminate.
  - case_bool_decide as Hlt.
    + right. destruct (IH i (S i) a) as [[-> Hall]|(n & v & -> & Hn & Hv & Hall & Hfirst)].
      * exists 0%nat, a. rewrite Nat.add_0_r. repeat split; auto.
        -- intros [|m] x Hm; simpl in Hm; [injection Hm as <-; apply Qcle_refl|].
           eauto.
        -- intros m x _ Hm. lia.
      * exists (S n), v. rewrite Nat.add_succ_r. repeat split; auto.
        -- now apply Qclt_trans with a.
        -- intros [|m] x Hm; simpl in Hm; [|eauto].
           injection Hm as <-. now apply Qclt_le_weak.
        -- intros [|m] x Hm Hmn; simpl in Hm.
           ++ now injection Hm as <-.
           ++ apply (Hfirst m); [exact Hm|lia].
    + apply Qcnot_lt_le in Hlt.
      destruct (IH best_i (S i) best)
        as [[-> Hall]|(n & v & -> & Hn & Hv & Hall & Hfirst)].
      * left. split; [reflexivity|].
        intros [|m] x Hm; simpl in Hm; [now injection Hm as <-|eauto].
      * right. exists (S n), v. rewrite Nat.add_succ_r. repeat split; auto.
        -- intros [|m] x Hm; simpl in Hm; [|eauto].
           injection Hm as <-. apply Qclt_le_weak.
           now apply Qclt_le_trans with best.
        -- intros [|m] x Hm Hmn; simpl in Hm.
           ++ injection Hm as <-. now apply Qclt_le_trans with best.
           ++ apply (Hfirst m); [exact Hm|lia].
Qed.

Lemma argmin_spec (l : list Qc) (k : nat) :
  argmin l = inr k ->
  exists v, l !! k = Some v
    /\ (forall m x, l !! m = Some x -> v <= x)
    /\ (forall m x, l !! m = Some x -> (m < k)%nat -> v < x).
Proof.
  destruct l as [|a l]; simpl; [discriminate|]. intros [= <-].
  destruct (argmin_from_spec l 0 1 a)
    as [[-> Hall]|(n & v & -> & Hn & Hv & Hall & Hfirst)].
  - exists a. repeat split; [| intros; lia].
    intros [|m] x Hm; simpl in Hm; [injection Hm as <-; apply Qcle_refl|eauto].
  - exists v. simpl. repeat split; [exact Hn| |].
    + intros [|m] x Hm; simpl in Hm; [|eauto].
      injection Hm as <-. now apply Qclt_le_weak.
    + intros [|m] x Hm Hmn; simpl in Hm.
      * now injection Hm as <-.
      * apply (Hfirst m); [exact Hm|lia].
Qed.

Lemma bad_indices_spec {A} (mask : mask_array) (rows : list (observation A))
  (k : nat) (bad_ind : list nat) :
  bad_indices mask k rows = inr bad_ind ->
  (forall r, r ∈ rows -> exists b, not_in_mask mask r = inr b)
  /\ (forall n, n ∈ bad_ind
                <-> exists i r, n = (k + i)%nat /\ rows !! i = Some r
                                /\ not_in_mask mask r = inr true).
Proof.
  revert k bad_ind. induction rows as [|r rows IH]; intros k bad_ind; simpl.
  - intros [= <-]. split; [intros r Hr; inversion Hr|].
    intros n. split; [intros Hn; inversion Hn|].
    intros (i & r & _ & Hi & _). destruct i; discriminate.
  - destruct (not_in_mask mask r) as [e|b] eqn:Hr; [discriminate|].
    destruct (bad_indices mask (S k) rows) as [e|rest] eqn:Hrest;
      [discriminate|].
    destruct (IH _ _ Hrest) as [Hall Hbad]. intros [= <-]. split.
    + intros r' [->|Hr']%elem_of_cons; eauto.
    + intros n. transitivity ((b = true /\ n = k) \/ n ∈ rest).
      { destruct b; [rewrite elem_of_cons|]; intuition congruence. }
      rewrite Hbad. split.
      * intros [[-> ->]|(i & r' & -> & Hi & Hb)].
        -- exists 0%nat, r. rewrite Nat.add_0_r. auto.
        -- exists (S i), r'. rewrite Nat.add_succ_r. auto.
      * intros ([|i] & r' & -> & Hi & Hb); simpl in Hi.
        -- injection Hi as <-. left. rewrite Nat.add_0_r.
           split; [congruence|reflexivity].
        -- right. exists i, r'. rewrite Nat.add_succ_r. auto.
Qed.

Lemma filter_agree {A} (P : A -> Prop) `{forall x, Decision (P x)}
  (f : A -> bool) (l : list A) :
  (forall x, x ∈ l -> P x <-> f x = true) -> filter P l = List.filter f l.
Proof.
  induction l as [|x l IH]; intros Hl; [reflexivity|].
  rewrite filter_cons. simpl.
  rewrite IH by (intros y Hy; apply Hl; now right).
  destruct (Hl x) as [H1 H2]; [now left|].
  destruct (decide (P x)) as [Hp|Hn], (f x); auto.
  - now specialize (H1 Hp).
  - now destruct Hn; auto.
Qed.

Lemma unique_index {A} (df : list (observation A)) (r r' : observation A) :
  NoDup (map obs_index df) -> r ∈ df -> r' ∈ df ->
  obs_index r = obs_index r' -> r = r'.
Proof.
  intros Hnd [i Hi]%list_elem_of_lookup [j Hj]%list_elem_of_lookup Heq.
  assert (i = j) as ->.
  { apply (NoDup_lookup _ i j (obs_index r) Hnd).
    - change (map obs_index df) with (obs_index <$> df).
      now rewrite list_lookup_fmap, Hi.
    - change (map obs_index df) with (obs_index <$> df).
      now rewrite list_lookup_fmap, Hj, Heq. }
  congruence.
Qed.

(** X13: for a dataframe whose index labels are all different, the rows
    kept are exactly the rows lying in the mask, in their order, and
    [count_obs_in_mask] counts them. *)
Lemma filter_obs_with_mask_unique_index {A} (mask : mask_array)
  (df out : list (observation A)) :
  NoDup (map obs_index df) ->
  filter_obs_with_mask mask df = inr out ->
  out = rows_in_mask mask df
  /\ count_obs_in_mask mask df = inr (length (rows_in_mask mask df)).
Proof.
  intros Hnd H. unfold count_obs_in_mask. rewrite H.
  unfold filter_obs_with_mask in H.
  destruct (bad_indices mask 0 df) as [e|bad_ind] eqn:Hbad; [discriminate|].
  injection H as <-.
  destruct (bad_indices_spec _ _ _ _ Hbad) as [Hall Hmem].
  assert (Hdrop : drop df (index_at df bad_ind) = rows_in_mask mask df).
  { unfold drop, rows_in_mask. apply filter_agree. intros r Hr.
    unfold lies_in_mask. destruct (Hall r Hr) as [b Hb]. rewrite Hb.
    unfold index_at. rewrite list_elem_of_omap. split.
    - intros Hnot. destruct b; [|reflexivity]. destruct Hnot.
      apply list_elem_of_lookup in Hr as [i Hi].
      exists i. split; [|now rewrite Hi].
      apply Hmem. exists i, r. auto.
    - intros Hb' (n & Hn & Hz). destruct b; [discriminate|].
      apply Hmem in Hn as (i & r' & -> & Hi & Hbad').
      simpl in Hz. rewrite Hi in Hz. injection Hz as Hz.
      assert (r' = r) as ->.
      { apply (unique_index df); auto. now apply list_elem_of_lookup_2 with i. }
      congruence. }
  now rewrite Hdrop.
Qed.

(** C10 fails for a dataframe with a repeated index label: [drop] removes
    rows by label.  Two rows labelled 7, the first in the mask and the
    second not: both are dropped, and the count is 0 where one row lies in
    the mask. *)
Theorem filter_obs_with_mask_duplicate_index :
  let mask := {| mask_lat := [0]; mask_lon := [0; Qc_of_Z 10];
                 mask_values := [[true; false]] |} in
  let inside := {| obs_index := 7; obs_lat := 0; obs_lon := 0;
                   obs_other := tt |} in
  let outside := {| obs_index := 7; obs_lat := 0; obs_lon := Qc_of_Z 10;
                    obs_other := tt |} in
  rows_in_mask mask [inside; outside] = [inside]
  /\ filter_obs_with_mask mask [inside; outside] = inr []
  /\ count_obs_in_mask mask [inside; outside] = inr 0%nat.
Proof.
  intros mask inside outside. repeat split; vm_compute; reflexivity.
Qed.

(** ** The theorems at work on the sample runs *)

Lemma completes_inr {A} (r : exn + A) :
  completes r = true -> exists a, r = inr a.
Proof. destruct r as [e|a]; [discriminate|eauto]. Defined.

Lemma lambda_scaler_conserves_total_witness :
  let posterior_sf := [[num 3 2; num 1 2; num 1 1]] in
  let sf := [[num 1 1; num 1 1; num 1 1]] in
  let original_emis := [[num 1 1; num 0 1; num 3 1]] in
  let mask := [[true; true; false]] in
  let current := current_posterior_emis posterior_sf sf original_emis in
  let nudged := nudged_posterior_emis (Q2Qc (1 # 10)) original_emis current in
  let current_total := sum_total_emissions current sample_areas mask in
  let nudged_total := sum_total_emissions nudged sample_areas mask in
  nudged_total <> 0
  /\ sum_total_emissions
       (scaled_nudged_posterior_emis nudged (current_total / nudged_total))
       sample_areas mask
     = current_total.
Proof.
  intros posterior_sf sf original_emis mask current nudged current_total
    nudged_total.
  assert (Hnz : nudged_total <> 0) by by_evaluation.
  split; [exact Hnz|].
  exact (proj2 (proj2 (lambda_scaler_conserves_total (Q2Qc (1 # 10))
                         sample_areas mask posterior_sf sf original_emis
                         Hnz))).
Defined.

Lemma nudged_posterior_emis_blend_witness :
  let posterior_sf := [[num 3 2; num 1 2; num 1 1]] in
  let sf := [[num 1 1; num 1 1; num 1 1]] in
  let original_emis := [[num 1 1; num 0 1; num 3 1]] in
  grid_lookup
    (nudged_posterior_emis (Q2Qc (1 # 10)) original_emis
       (current_posterior_emis posterior_sf sf original_emis)) 0 0
  = Some (Some (Q2Qc (1 # 10) * Q2Qc 1
                + (1 - Q2Qc (1 # 10)) * (Q2Qc (3 # 2) * Q2Qc 1 * Q2Qc 1))).
Proof.
  intros posterior_sf sf original_emis.
  apply (proj2 (proj2 (nudged_posterior_emis_blend (Q2Qc (1 # 10))
                         posterior_sf sf original_emis 0 0)));
    reflexivity.
Defined.

Lemma prepare_sf_first_period_witness :
  let unit_sf :=
    {| ScaleFactor := [[num 1 1; num 1 1; num 1 1]]; lat_attrs := ∅;
       lon_attrs := ∅; ScaleFactor_attrs := ∅ |} in
  exists inp w1 w',
    (1 <= 1)%Z
    /\ read_inputs "config.yml" "/run" sample_world = inr (inp, w1)
    /\ in_sf inp = ScaleFactors unit_sf
    /\ prepare_sf "config.yml" 1 "/run" (Q2Qc (1 # 10)) sample_world
       = inr (tt, w')
    /\ w_netcdf w' !! save_path "/run"
       = Some (ScaleFactors
                 {| ScaleFactor := [[num 1 1; num 1 1; num 1 1]];
                    lat_attrs :=
                      <["long_name" := "Latitude"]>
                        (<["units" := "degrees_north"]> ∅);
                    lon_attrs :=
                      <["long_name" := "Longitude"]>
                        (<["units" := "degrees_east"]> ∅);
                    ScaleFactor_attrs := <["units" := "1"]> ∅ |}).
Proof.
  intros unit_sf.
  destruct (completes_inr (read_inputs "config.yml" "/run" sample_world))
    as [[inp w1] Hread]; [vm_compute; reflexivity|].
  assert (Hsf : in_sf inp = ScaleFactors unit_sf).
  { destruct (read_inputs_inr _ _ _ _ _ Hread)
      as (? & ? & ? & ? & ? & _ & Hunit & _).
    assert (Hfile : w_netcdf sample_world !! path_join "/run" "unit_sf.nc"
                    = Some (ScaleFactors unit_sf))
      by (vm_compute; reflexivity).
    congruence. }
  destruct (prepare_sf_first_period "config.yml" "/run" 1 (Q2Qc (1 # 10))
              sample_world w1 inp unit_sf ltac:(lia) Hread Hsf)
    as [_ Hrun].
  eexists inp, w1, _.
  split; [lia|]. split; [exact Hread|]. split; [exact Hsf|].
  split; [exact Hrun|].
  apply written_lookup_save.
Defined.

Lemma prepare_sf_zero_nudged_total_witness :
  exists sf,
    read_inputs "config.yml" "/run" sample_world_zero
    = inr (sample_inputs, loaded sample_input_loads sample_world_zero)
    /\ get_ScaleFactor (in_sf sample_inputs)
       = inr [[num 1 1; num 1 1; num 1 1]]
    /\ (Z.of_nat 1 < 3 - 1)%Z
    /\ scale_factor_after sample_world_zero "/run"
         (in_prior_cache sample_inputs) (Q2Qc (1 # 10))
         (in_areas sample_inputs) (in_mask sample_inputs)
         [[num 1 1; num 1 1; num 1 1]] 1 = Some sf
    /\ original_emis_of_period sample_world_zero
         (in_prior_cache sample_inputs) 2
       = Some [[num 0 1; num 0 1; num 0 1]]
    /\ posterior_of_period sample_world_zero "/run" 2
       = Some [[num 1 2; num 1 2; num 1 1]]
    /\ prepare_sf "config.yml" 3 "/run" (Q2Qc (1 # 10)) sample_world_zero
       = inl ZeroDivisionError.
Proof.
  eexists.
  assert (Hread : read_inputs "config.yml" "/run" sample_world_zero
                  = inr (sample_inputs,
                         loaded sample_input_loads sample_world_zero))
    by (vm_compute; reflexivity).
  assert (Hsf : scale_factor_after sample_world_zero "/run"
                  (in_prior_cache sample_inputs) (Q2Qc (1 # 10))
                  (in_areas sample_inputs) (in_mask sample_inputs)
                  [[num 1 1; num 1 1; num 1 1]] 1 = Some _)
    by (vm_compute; reflexivity).
  assert (Ho : original_emis_of_period sample_world_zero
                 (in_prior_cache sample_inputs) 2
               = Some [[num 0 1; num 0 1; num 0 1]])
    by (vm_compute; reflexivity).
  assert (Hq : posterior_of_period sample_world_zero "/run" 2
               = Some [[num 1 2; num 1 2; num 1 1]])
    by (vm_compute; reflexivity).
  split; [exact Hread|]. split; [reflexivity|]. split; [lia|].
  split; [exact Hsf|]. split; [exact Ho|]. split; [exact Hq|].
  apply (prepare_sf_zero_nudged_total "config.yml" "/run" 3 (Q2Qc (1 # 10))
           sample_world_zero _ sample_inputs 1 _ _ _ _
           Hread eq_refl ltac:(lia) Hsf Ho Hq).
  apply Qc_is_canon. vm_compute. reflexivity.
Defined.

Lemma prepare_sf_recurrence_witness :
  exists w' final out,
    (3 > 1)%Z
    /\ read_inputs "config.yml" "/run" sample_world
       = inr (sample_inputs, loaded sample_input_loads sample_world)
    /\ prepare_sf "config.yml" 3 "/run" (Q2Qc (1 # 10)) sample_world
       = inr (tt, w')
    /\ scale_factor_after sample_world "/run"
         (in_prior_cache sample_inputs) (Q2Qc (1 # 10))
         (in_areas sample_inputs) (in_mask sample_inputs)
         [[num 1 1; num 1 1; num 1 1]] 2 = Some final
    /\ w_netcdf w' !! save_path "/run" = Some out
    /\ get_ScaleFactor out = inr final
    /\ w_loads w'
       = sample_input_loads
         ++ ["/run/jacobian_runs/sim_0000/OutputDir/HEMCO_diagnostics.A.nc";
             "/run/kf_inversions/period1/gridded_posterior.nc";
             "/run/jacobian_runs/sim_0000/OutputDir/HEMCO_diagnostics.B.nc";
             "/run/kf_inversions/period2/gridded_posterior.nc"].
Proof.
  assert (Hread : read_inputs "config.yml" "/run" sample_world
                  = inr (sample_inputs, loaded sample_input_loads sample_world))
    by (vm_compute; reflexivity).
  destruct (completes_inr
              (prepare_sf "config.yml" 3 "/run" (Q2Qc (1 # 10)) sample_world))
    as [[[] w'] Hrun]; [vm_compute; reflexivity|].
  destruct (prepare_sf_recurrence "config.yml" "/run" 3 (Q2Qc (1 # 10))
              sample_world _ w' sample_inputs ltac:(lia) Hread Hrun)
    as (unit_sf & final & names & out & _ & Hunit & _ & Hfinal & Hsave & _
        & Hout & Hloads).
  injection Hunit as <-.
  exists w', final, out.
  split; [lia|]. split; [exact Hread|]. split; [exact Hrun|].
  split; [exact Hfinal|]. split; [exact Hsave|]. split; [exact Hout|].
  rewrite Hloads. vm_compute. reflexivity.
Defined.

Lemma roi_mask_threshold_witness :
  let labels := [[Some (Qc_of_Z 1); Some (Qc_of_Z 2); Some (Qc_of_Z 3)]] in
  let config : gmap string Z := {[ "nBufferClusters" := 1%Z ]} in
  nanmax labels = inr (Some (Qc_of_Z 3))
  /\ config !! "nBufferClusters" = Some 1%Z
  /\ last_ROI_element labels config = inr 2%Z
  /\ selects_up_to_max_minus_buffer labels 1 (roi_mask labels 2)
  /\ excludes_highest_clusters labels 1 (roi_mask labels 2).
Proof.
  intros labels config.
  assert (Hmax : nanmax labels = inr (Some (Qc_of_Z 3))) by reflexivity.
  assert (Hcfg : config !! "nBufferClusters" = Some 1%Z)
    by (vm_compute; reflexivity).
  destruct (roi_mask_threshold labels config 1 (Qc_of_Z 3) Hmax Hcfg)
    as (last & Hlast & _ & _ & Hz).
  destruct (Hz 3%Z eq_refl) as (-> & Hsel & Hexcl).
  split; [exact Hmax|]. split; [exact Hcfg|]. split; [exact Hlast|].
  split; [exact Hsel|]. apply Hexcl.
  intros t Ht. assert (t = 0%Z) as -> by lia. by_evaluation.
Defined.

Lemma filter_tropomi_exact_witness :
  let xlim := (Q2Qc (-130), Q2Qc (-60)) in
  let ylim := (Q2Qc 20, Q2Qc 50) in
  (forall i j v,
     grid_lookup (longitude_bounds sample_swath) i j = Some v -> v <> [])
  /\ filter_tropomi sample_swath xlim ylim 0 10 = inr ([0%nat], [0%nat])
  /\ passes sample_swath xlim ylim 0 10 0 0
  /\ ~ passes sample_swath xlim ylim 0 10 0 1.
Proof.
  intros xlim ylim.
  assert (Hcorners : forall i j v,
            grid_lookup (longitude_bounds sample_swath) i j = Some v ->
            v <> []).
  { intros [|i] [|[|j]] v H; vm_compute in H; try discriminate;
      injection H as <-; discriminate. }
  destruct (filter_tropomi_exact sample_swath xlim ylim 0 10 Hcorners)
    as (rows & cols & Hrun & _ & Hmem).
  assert (Hval : filter_tropomi sample_swath xlim ylim 0 10
                 = inr ([0%nat], [0%nat])) by (vm_compute; reflexivity).
  rewrite Hval in Hrun. injection Hrun as <- <-.
  split; [exact Hcorners|]. split; [exact Hval|]. split.
  - apply Hmem. now left.
  - intros Hp. apply Hmem in Hp. simpl in Hp.
    apply list_elem_of_singleton in Hp. discriminate.
Defined.

(** * Further properties *)

(** ** What the regional total depends on *)

Lemma weighted_cell_outside (emissions areas : grid cell) (mask : grid bool)
  (i j : nat) :
  grid_lookup emissions i j = None ->
  weighted_cell emissions areas mask i j = 0.
Proof. unfold weighted_cell. now intros ->. Qed.

Lemma row_length_le_max {A} (g : grid A) (i : nat) :
  (row_length g i <= max_list (length <$> g))%nat.
Proof.
  unfold row_length. destruct (g !! i) as [r|] eqn:Hr; [|lia].
  apply max_list_elem_of_le, list_elem_of_fmap. exists r.
  split; [reflexivity|]. now apply list_elem_of_lookup_2 with i.
Qed.

(** The weighted sum may run over any index range that covers the grid. *)
Lemma area_weighted_masked_sum_range (emissions areas : grid cell)
  (mask : grid bool) (n m : nat) :
  (length emissions <= n)%nat ->
  (forall i, (row_length emissions i <= m)%nat) ->
  area_weighted_masked_sum emissions areas mask
  = sum_upto n (fun i =>
      sum_upto m (fun j => weighted_cell emissions areas mask i j)).
Proof.
  intros Hn Hm. unfold area_weighted_masked_sum. symmetry.
  rewrite (sum_upto_extend (length emissions) n); [|exact Hn|].
  - apply sum_upto_ext. intros i _.
    apply sum_upto_extend; [apply Hm|].
    intros j [Hj _]. apply weighted_cell_outside.
    unfold grid_lookup, row_length in *.
    destruct (emissions !! i) as [r|]; simpl; [|reflexivity].
    now apply lookup_ge_None_2.
  - intros i [Hi _].
    rewrite (sum_upto_ext _ _ (fun _ => 0)); [apply sum_upto_zero|].
    intros j _. apply weighted_cell_outside. unfold grid_lookup.
    now rewrite (lookup_ge_None_2 _ _ Hi).
Qed.

(** Two calls whose cells contribute the same everywhere give the same
    total, whatever the shapes of their fields. *)
Lemma sum_total_emissions_cells (e1 a1 e2 a2 : grid cell)
  (m1 m2 : grid bool) :
  (forall i j, weighted_cell e1 a1 m1 i j = weighted_cell e2 a2 m2 i j) ->
  sum_total_emissions e1 a1 m1 = sum_total_emissions e2 a2 m2.
Proof.
  intros Hcell. unfold sum_total_emissions. rewrite !grid_sum_weighted.
  set (n := (length e1 `max` length e2)%nat).
  set (m := (max_list (length <$> e1) `max` max_list (length <$> e2))%nat).
  rewrite (area_weighted_masked_sum_range e1 a1 m1 n m);
    [|unfold n; lia|intros i; pose proof (row_length_le_max e1 i); unfold m; lia].
  rewrite (area_weighted_masked_sum_range e2 a2 m2 n m);
    [|unfold n; lia|intros i; pose proof (row_length_le_max e2 i); unfold m; lia].
  do 3 f_equal. apply sum_upto_ext. intros i _. apply sum_upto_ext.
  intros j _. apply Hcell.
Qed.

Lemma weighted_cell_unselected (emissions areas : grid cell)
  (mask : grid bool) (i j : nat) :
  grid_lookup mask i j <> Some true ->
  weighted_cell emissions areas mask i j = 0.
Proof.
  unfold weighted_cell. intros Hm.
  destruct (grid_lookup emissions i j) as [e|]; [|reflexivity].
  destruct (grid_lookup areas i j) as [a|]; [|reflexivity].
  destruct (grid_lookup mask i j) as [[|]|]; [congruence| |reflexivity].
  destruct e as [e|], a as [a|]; simpl; try reflexivity. ring.
Qed.

(** X11: the total only sees the cells the mask selects: two emission
    fields that agree on every selected cell have the same total, whatever
    they hold elsewhere (a NaN, another number, no cell at all). *)
Theorem sum_total_emissions_only_selected (e1 e2 areas : grid cell)
  (mask : grid bool) :
  (forall i j, grid_lookup mask i j = Some true ->
               grid_lookup e1 i j = grid_lookup e2 i j) ->
  sum_total_emissions e1 areas mask = sum_total_emissions e2 areas mask.
Proof.
  intros Hsel. apply sum_total_emissions_cells. intros i j.
  destruct (decide (grid_lookup mask i j = Some true)) as [Hm|Hm].
  - unfold weighted_cell. now rewrite (Hsel i j Hm).
  - now rewrite !weighted_cell_unselected.
Qed.

Lemma sum_total_emissions_nothing_selected (emissions areas : grid cell)
  (mask : grid bool) :
  (forall i j, grid_lookup mask i j <> Some true) ->
  sum_total_emissions emissions areas mask = 0.
Proof.
  intros Hm.
  rewrite (sum_total_emissions_cells emissions areas [] areas mask mask).
  - unfold sum_total_emissions. simpl. ring.
  - intros i j. now rewrite !weighted_cell_unselected.
Qed.

(** ** More on one period of the update *)

(** X5: when the mask selects no cell both totals are zero, so the update
    of a period raises [ZeroDivisionError] whatever the fields hold. *)
Theorem period_update_nothing_selected (nudge_factor : Qc)
  (areas : grid cell) (mask : grid bool)
  (posterior_sf sf original_emis : grid cell) :
  (forall i j, grid_lookup mask i j <> Some true) ->
  period_update nudge_factor areas mask posterior_sf sf original_emis
  = inl ZeroDivisionError.
Proof.
  intros Hm. apply period_update_raises. split; [reflexivity|].
  now apply sum_total_emissions_nothing_selected.
Qed.

Lemma scaled_lookup (nudge_factor lam : Qc)
  (posterior_sf sf original_emis : grid cell) (i j : nat) :
  grid_lookup
    (scaled_nudged_posterior_emis
       (nudged_posterior_emis nudge_factor original_emis
          (current_posterior_emis posterior_sf sf original_emis)) lam) i j
  = (o ← grid_lookup original_emis i j;
     p ← grid_lookup posterior_sf i j;
     s ← grid_lookup sf i j;
     Some (mul (add (mul (Some nudge_factor) o)
                    (mul (Some (1 - nudge_factor)) (mul (mul p s) o)))
               (Some lam))).
Proof.
  unfold scaled_nudged_posterior_emis, fmuls.
  rewrite grid_lookup_map, nudged_posterior_emis_lookup,
    current_posterior_emis_lookup.
  destruct (grid_lookup original_emis i j) as [o|]; simpl; [|reflexivity].
  destruct (grid_lookup posterior_sf i j) as [p|]; simpl; [|reflexivity].
  now destruct (grid_lookup sf i j).
Qed.

(** Dividing by the original emissions and multiplying back changes no
    contribution to a total: a zero-emission cell contributes nothing before
    (its value is zero) and nothing after (its value is NaN). *)
Lemma div_mul_back (nudge_factor lam : Qc) (p s o a : cell) (b : bool) :
  let x := mul (add (mul (Some nudge_factor) o)
                    (mul (Some (1 - nudge_factor)) (mul (mul p s) o)))
               (Some lam) in
  nan_to_zero (mul (mul (mul (div x o) o) a) (of_bool b))
  = nan_to_zero (mul (mul x a) (of_bool b)).
Proof.
  destruct o as [o|], p as [p|], s as [s|], a as [a|]; simpl;
    try reflexivity; destruct (decide (o = 0)) as [->|Ho]; simpl;
    try reflexivity; try ring.
  f_equal. now field.
Qed.

Lemma new_scale_factor_total (nudge_factor lam : Qc) (areas : grid cell)
  (mask : grid bool) (posterior_sf sf original_emis : grid cell) :
  let scaled :=
    scaled_nudged_posterior_emis
      (nudged_posterior_emis nudge_factor original_emis
         (current_posterior_emis posterior_sf sf original_emis)) lam in
  sum_total_emissions (fmul (fdiv scaled original_emis) original_emis)
    areas mask
  = sum_total_emissions scaled areas mask.
Proof.
  intros scaled. apply sum_total_emissions_cells. intros i j.
  unfold weighted_cell, fmul, fdiv. rewrite !grid_lookup_zip.
  unfold scaled. rewrite scaled_lookup.
  destruct (grid_lookup original_emis i j) as [o|]; simpl; [|reflexivity].
  destruct (grid_lookup posterior_sf i j) as [p|]; simpl; [|reflexivity].
  destruct (grid_lookup sf i j) as [s|]; simpl; [|reflexivity].
  destruct (grid_lookup areas i j) as [a|]; [|reflexivity].
  destruct (grid_lookup mask i j) as [b|]; [|reflexivity].
  apply div_mul_back.
Qed.

(** X2: in a period whose nudged total is not zero, the emissions that the
    new scale factors give back ([sf["ScaleFactor"] * original_emis], the
    field whose total lines 113-115 print) have the regional total of the
    period's posterior emissions, zero-emission cells included. *)
Theorem new_scale_factor_conserves_total (nudge_factor : Qc)
  (areas : grid cell) (mask : grid bool)
  (posterior_sf sf original_emis : grid cell) :
  let current := current_posterior_emis posterior_sf sf original_emis in
  let nudged := nudged_posterior_emis nudge_factor original_emis current in
  sum_total_emissions nudged areas mask <> 0 ->
  exists new_sf,
    period_update nudge_factor areas mask posterior_sf sf original_emis
    = inr new_sf
    /\ sum_total_emissions (fmul new_sf original_emis) areas mask
       = sum_total_emissions current areas mask.
Proof.
  intros current nudged Hnz.
  set (lam := sum_total_emissions current areas mask
              / sum_total_emissions nudged areas mask).
  exists (fdiv (scaled_nudged_posterior_emis nudged lam) original_emis).
  split.
  - unfold period_update, lambda_scaler, float_div.
    fold current nudged.
    now destruct (decide (sum_total_emissions nudged areas mask = 0)).
  - unfold nudged, current. rewrite new_scale_factor_total.
    unfold scaled_nudged_posterior_emis.
    rewrite sum_total_emissions_fmuls. fold current nudged. unfold lam.
    now field.
Qed.

(** X1: the new scale factor of a cell, where the posterior, the scale
    factor so far and the original emissions are numbers: NaN where the
    original emissions are zero, and otherwise
    [lambda * (nudge_factor + (1 - nudge_factor) * posterior * sf)], which
    does not depend on the size of the emissions. *)
Theorem new_scale_factor_cell (nudge_factor : Qc) (areas : grid cell)
  (mask : grid bool) (posterior_sf sf original_emis new_sf : grid cell)
  (i j : nat) (p s o : Qc) :
  let current := current_posterior_emis posterior_sf sf original_emis in
  let nudged := nudged_posterior_emis nudge_factor original_emis current in
  let lam := sum_total_emissions current areas mask
             / sum_total_emissions nudged areas mask in
  period_update nudge_factor areas mask posterior_sf sf original_emis
  = inr new_sf ->
  grid_lookup posterior_sf i j = Some (Some p) ->
  grid_lookup sf i j = Some (Some s) ->
  grid_lookup original_emis i j = Some (Some o) ->
  grid_lookup new_sf i j
  = Some (if decide (o = 0) then nan
          else Some (lam * (nudge_factor + (1 - nudge_factor) * (p * s)))).
Proof.
  intros current nudged lam Hrun Hp Hs Ho.
  unfold period_update, lambda_scaler, float_div in Hrun.
  fold current nudged in Hrun.
  destruct (decide (sum_total_emissions nudged areas mask = 0)) as [|Hnz];
    [discriminate|].
  injection Hrun as <-. fold lam.
  unfold fdiv. rewrite grid_lookup_zip. unfold nudged, current.
  rewrite scaled_lookup, Ho, Hp, Hs. simpl.
  destruct (decide (o = 0)) as [->|Hnz']; [reflexivity|].
  do 2 f_equal. now field.
Qed.

Lemma nudged_total_without_nudging (areas : grid cell) (mask : grid bool)
  (posterior_sf sf original_emis : grid cell) :
  let current := current_posterior_emis posterior_sf sf original_emis in
  sum_total_emissions (nudged_posterior_emis 0 original_emis current)
    areas mask
  = sum_total_emissions current areas mask.
Proof.
  intros current. apply sum_total_emissions_cells. intros i j.
  unfold weighted_cell, current.
  rewrite nudged_posterior_emis_lookup, current_posterior_emis_lookup.
  destruct (grid_lookup posterior_sf i j) as [p|]; simpl;
    [|now destruct (grid_lookup original_emis i j)].
  destruct (grid_lookup sf i j) as [s|]; simpl;
    [|now destruct (grid_lookup original_emis i j)].
  destruct (grid_lookup original_emis i j) as [o|]; simpl; [|reflexivity].
  destruct (grid_lookup areas i j) as [a|]; [|reflexivity].
  destruct (grid_lookup mask i j) as [b|]; [|reflexivity].
  destruct p as [p|], s as [s|], o as [o|], a as [a|]; simpl;
    try reflexivity.
  ring.
Qed.

(** X4: with a nudge factor of zero the rescaling does nothing
    ([lambda_scaler] is 1), and the new scale factor of a cell with nonzero
    emissions is the period's posterior times the scale factor so far. *)
Theorem period_update_without_nudging (areas : grid cell) (mask : grid bool)
  (posterior_sf sf original_emis : grid cell) :
  let current := current_posterior_emis posterior_sf sf original_emis in
  let nudged := nudged_posterior_emis 0 original_emis current in
  sum_total_emissions current areas mask <> 0 ->
  lambda_scaler (sum_total_emissions current areas mask)
    (sum_total_emissions nudged areas mask) = inr 1
  /\ exists new_sf,
       period_update 0 areas mask posterior_sf sf original_emis = inr new_sf
       /\ forall i j (p s o : Qc),
            grid_lookup posterior_sf i j = Some (Some p) ->
            grid_lookup sf i j = Some (Some s) ->
            grid_lookup original_emis i j = Some (Some o) ->
            o <> 0 ->
            grid_lookup new_sf i j = Some (Some (p * s)).
Proof.
  intros current nudged Hnz.
  assert (Hnt : sum_total_emissions nudged areas mask
                = sum_total_emissions current areas mask)
    by apply nudged_total_without_nudging.
  assert (Hlam : lambda_scaler (sum_total_emissions current areas mask)
                   (sum_total_emissions nudged areas mask) = inr 1).
  { unfold lambda_scaler, float_div. rewrite Hnt.
    destruct (decide (sum_total_emissions current areas mask = 0));
      [contradiction|].
    f_equal. now field. }
  split; [exact Hlam|].
  exists (fdiv (scaled_nudged_posterior_emis nudged 1) original_emis). split.
  - unfold period_update. fold current nudged. now rewrite Hlam.
  - intros i j p s o Hp Hs Ho Ho'. unfold fdiv. rewrite grid_lookup_zip.
    unfold nudged, current. rewrite scaled_lookup, Ho, Hp, Hs. simpl.
    destruct (decide (o = 0)); [contradiction|]. do 2 f_equal. now field.
Qed.

Lemma period_update_total (nudge_factor : Qc) (areas : grid cell)
  (mask : grid bool) (posterior_sf sf original_emis new_sf : grid cell) :
  period_update nudge_factor areas mask posterior_sf sf original_emis
  = inr new_sf ->
  sum_total_emissions (fmul new_sf original_emis) areas mask
  = sum_total_emissions
      (current_posterior_emis posterior_sf sf original_emis) areas mask.
Proof.
  unfold period_update, lambda_scaler, float_div.
  destruct (decide (sum_total_emissions _ areas mask = 0)) as [|Hnz];
    [discriminate|].
  intros [= <-]. rewrite new_scale_factor_total.
  unfold scaled_nudged_posterior_emis. rewrite sum_total_emissions_fmuls.
  now field.
Qed.

(** ** Paths *)

Lemma append_cons (c : ascii) (s t : string) :
  (String c s ++ t)%string = String c (s ++ t).
Proof. reflexivity. Qed.

Lemma append_empty_r (s : string) : (s ++ "")%string = s.
Proof.
  induction s as [|c s IH]; [reflexivity|]. now rewrite append_cons, IH.
Qed.

Lemma append_assoc (s t u : string) :
  ((s ++ t) ++ u)%string = (s ++ t ++ u)%string.
Proof.
  induction s as [|c s IH]; [reflexivity|]. now rewrite !append_cons, IH.
Qed.

Lemma length_append (s t : string) :
  String.length (s ++ t) = (String.length s + String.length t)%nat.
Proof.
  induction s as [|c s IH]; [reflexivity|].
  rewrite append_cons. simpl. now rewrite IH.
Qed.

Lemma append_inj_r (s1 s2 t : string) :
  (s1 ++ t)%string = (s2 ++ t)%string -> s1 = s2.
Proof.
  intros H.
  assert (Hlen : String.length s1 = String.length s2).
  { apply (f_equal String.length) in H. rewrite !length_append in H. lia. }
  revert s2 H Hlen. induction s1 as [|c s1 IH]; intros [|d s2] H Hlen;
    simpl in Hlen; try discriminate; [reflexivity|].
  rewrite !append_cons in H. injection H as -> H. f_equal.
  apply IH; [exact H|lia].
Qed.

(** The last character of a string that ends with a given nonempty one. *)
Lemma last_char_append (s t : string) :
  t <> ""%string ->
  substring (String.length (s ++ t) - 1) 1 (s ++ t)
  = substring (String.length t - 1) 1 t.
Proof.
  intros Ht. induction s as [|c s IH]; [reflexivity|].
  rewrite append_cons. simpl String.length. rewrite Nat.sub_1_r. simpl pred.
  assert (Hpos : (0 < String.length (s ++ t))%nat).
  { rewrite length_append. destruct t; [congruence|simpl; lia]. }
  destruct (String.length (s ++ t)) as [|n] eqn:Hn; [lia|].
  simpl in IH. rewrite Nat.sub_0_r in IH. exact IH.
Qed.

(** Joining a relative component: the directory, a separator unless the
    directory is empty or already ends with one, then the component. *)
Lemma path_join_relative (a b : string) :
  String.prefix "/" b = false ->
  path_join a b = (path_join a "" ++ b)%string.
Proof.
  intros Hb. unfold path_join. rewrite Hb. simpl.
  destruct (String.eqb a ""); [reflexivity|].
  destruct (String.eqb (substring (String.length a - 1) 1 a) "/").
  - now rewrite append_empty_r.
  - now rewrite append_assoc.
Qed.

Lemma path_join_under (d name b : string) (c : ascii) (rest : string) :
  name = (rest ++ String c "")%string ->
  c <> "/"%char ->
  String.prefix "/" b = false ->
  path_join (d ++ name) b = (d ++ name ++ "/" ++ b)%string.
Proof.
  intros -> Hc Hb. unfold path_join. rewrite Hb.
  assert (Hne : String.eqb (d ++ rest ++ String c "") "" = false).
  { apply String.eqb_neq. intros H. apply (f_equal String.length) in H.
    rewrite !length_append in H. simpl in H. lia. }
  rewrite Hne. rewrite <- append_assoc, last_char_append by discriminate.
  change (substring (String.length (String c "") - 1) 1 (String c ""))
    with (String c "").
  assert (Hs : String.eqb (String c "") "/" = false).
  { apply String.eqb_neq. congruence. }
  rewrite Hs. now rewrite !append_assoc.
Qed.

Lemma archive_path_eq (base_directory : string) (period_number : Z) :
  archive_path base_directory period_number
  = (path_join base_directory "" ++ "archive_sf/prior_sf_period"
     ++ pretty period_number ++ ".nc")%string.
Proof.
  unfold archive_path.
  rewrite (path_join_relative base_directory "archive_sf") by reflexivity.
  rewrite (path_join_under _ "archive_sf" _ "f" "archive_s")
    by (reflexivity || discriminate).
  reflexivity.
Qed.

Lemma save_path_eq (base_directory : string) :
  save_path base_directory
  = (path_join base_directory "" ++ "ScaleFactors.nc")%string.
Proof. unfold save_path. now apply path_join_relative. Qed.

Lemma save_path_ne_archive_path (base_directory : string)
  (period_number : Z) :
  save_path base_directory <> archive_path base_directory period_number.
Proof.
  rewrite save_path_eq, archive_path_eq. intros H.
  apply String.app_inj in H. discriminate.
Qed.

(** X8: periods do not share files: the archive written for one period
    number and the posterior read for one period are named after it, and
    different numbers give different paths; the archive is never
    [ScaleFactors.nc] itself. *)
Theorem period_paths_distinct (base_directory : string) :
  (forall n m : Z,
     archive_path base_directory n = archive_path base_directory m -> n = m)
  /\ (forall p q : nat,
        gridded_posterior_path base_directory p
        = gridded_posterior_path base_directory q -> p = q)
  /\ (forall n : Z,
        save_path base_directory <> archive_path base_directory n).
Proof.
  split; [|split].
  - intros n m H. rewrite !archive_path_eq in H.
    apply (String.app_inj (path_join base_directory "")) in H.
    apply (String.app_inj "archive_sf/prior_sf_period"
             (pretty n ++ ".nc")%string (pretty m ++ ".nc")%string) in H.
    apply append_inj_r in H. exact (pretty_Z_inj _ _ H).
  - intros p q H. unfold gridded_posterior_path in H.
    rewrite (path_join_relative base_directory
               ("kf_inversions/period" ++ pretty p
                ++ "/gridded_posterior.nc")) in H by reflexivity.
    rewrite (path_join_relative base_directory
               ("kf_inversions/period" ++ pretty q
                ++ "/gridded_posterior.nc")) in H by reflexivity.
    apply (String.app_inj (path_join base_directory "")) in H.
    apply (String.app_inj "kf_inversions/period"
             (pretty p ++ "/gridded_posterior.nc")%string
             (pretty q ++ "/gridded_posterior.nc")%string) in H.
    apply append_inj_r in H. exact (pretty_nat_inj _ _ H).
  - apply save_path_ne_archive_path.
Qed.

(** ** What a run leaves behind *)




(** ** Failing and printing runs *)

(** X6: with fewer HEMCO files in the prior run than periods to process,
    [prepare_sf] goes through the periods that have a file and then raises
    [IndexError]. *)
Theorem prepare_sf_too_few_hemco_files (config_path base_directory : string)
  (period_number : Z) (nudge_factor : Qc) (w w1 : world) (inp : inputs)
  (names : list string) (unit_sf sf : grid cell) :
  read_inputs config_path base_directory w = inr (inp, w1) ->
  get_ScaleFactor (in_sf inp) = inr unit_sf ->
  w_listdir w !! in_prior_cache inp = Some names ->
  (Z.of_nat (length (hemco_files names)) < period_number - 1)%Z ->
  scale_factor_after w base_directory (in_prior_cache inp) nudge_factor
    (in_areas inp) (in_mask inp) unit_sf (length (hemco_files names))
  = Some sf ->
  prepare_sf config_path period_number base_directory nudge_factor w
  = inl IndexError.
Proof.
  intros Hread Hunit Hnames Hp Hsf.
  set (p := length (hemco_files names)) in *.
  destruct (read_inputs_inr _ _ _ _ _ Hread)
    as (diags_path & ? & ? & ? & ? & Hw1 & _).
  unfold prepare_sf. rewrite (bind_run _ _ _ _ _ Hread).
  apply bind_raise. unfold update_periods.
  rewrite bool_decide_eq_true_2 by lia.
  assert (Hls : listdir (in_prior_cache inp) w1 = inr (names, w1)).
  { unfold listdir. rewrite Hw1.
    change (w_listdir (loaded ?l w)) with (w_listdir w). now rewrite Hnames. }
  rewrite (bind_run _ _ _ _ _ Hls). apply bind_raise.
  unfold range.
  replace (Z.to_nat (period_number - 1))
    with (p + S (Z.to_nat (period_number - 1) - S p))%nat by lia.
  rewrite seq_app, for_each_app, Nat.add_0_l, Hw1.
  destruct (for_each_periods_run w base_directory (in_prior_cache inp)
              nudge_factor (in_areas inp) (in_mask inp) names Hnames unit_sf
              p 0%nat (in_sf inp) unit_sf sf (in_original_emis inp)
              [path_join base_directory "StateVector.nc"; diags_path;
               diags_path; path_join base_directory "unit_sf.nc"]
              Hunit eq_refl Hsf)
    as (sf' & old' & Hrun & Hsf').
  rewrite (bind_run _ _ _ _ _ Hrun). cbn [seq for_each].
  apply bind_raise. unfold period_iteration. apply bind_raise.
  unfold hemco_emis_path, item.
  replace (p + 1 - 1)%nat with p by lia.
  now rewrite (lookup_ge_None_2 (hemco_files names) p) by (unfold p; lia).
Qed.

(** X3: for a period number [n > 1] the total that a completed run prints
    is the regional total of the posterior emissions of period [n - 1]
    (its posterior scale factor times the scale factor of the periods
    before times its original emissions): nudging and the return to scale
    factors leave that total as it is. *)
Theorem prepare_sf_prints (config_path base_directory : string)
  (period_number : Z) (nudge_factor : Qc) (w w1 w' : world) (inp : inputs) :
  (period_number > 1)%Z ->
  read_inputs config_path base_directory w = inr (inp, w1) ->
  prepare_sf config_path period_number base_directory nudge_factor w
  = inr (tt, w') ->
  exists unit_sf sf_before original_emis posterior_sf,
    get_ScaleFactor (in_sf inp) = inr unit_sf
    /\ scale_factor_after w base_directory (in_prior_cache inp) nudge_factor
         (in_areas inp) (in_mask inp) unit_sf (Z.to_nat (period_number - 2))
       = Some sf_before
    /\ original_emis_of_period w (in_prior_cache inp)
         (Z.to_nat (period_number - 1)) = Some original_emis
    /\ posterior_of_period w base_directory (Z.to_nat (period_number - 1))
       = Some posterior_sf
    /\ w_stdout w'
       = w_stdout w
         ++ [UsedHemcoUpTo (period_number - 1);
             TotalPriorEmission
               (sum_total_emissions
                  (current_posterior_emis posterior_sf sf_before
                     original_emis)
                  (in_areas inp) (in_mask inp))].
Proof.
  intros Hn Hread H.
  destruct (read_inputs_inr _ _ _ _ _ Hread)
    as (diags_path & ? & ? & ? & ? & Hw1 & _).
  unfold prepare_sf in H. rewrite (bind_run _ _ _ _ _ Hread) in H.
  apply bind_inr in H. destruct H as ([sf o] & w2 & Hloop & Hsave).
  unfold update_periods in Hloop.
  rewrite bool_decide_eq_true_2 in Hloop by exact Hn.
  apply bind_inr in Hloop. destruct Hloop as (names & w3 & Hls & Hloop).
  apply listdir_inr in Hls. destruct Hls as [Hnames ->].
  apply bind_inr in Hloop. destruct Hloop as ([sf' o'] & w4 & Hloop & Hrest).
  apply bind_inr in Hrest. destruct Hrest as ([] & w5 & Hprint & Hret).
  unfold print in Hprint. injection Hprint as <-.
  unfold ret in Hret. injection Hret as <- <- <-.
  unfold range in Hloop.
  set (k := Z.to_nat (period_number - 2)).
  replace (Z.to_nat (period_number - 1)) with (S k) in * by (unfold k; lia).
  assert (Hsf : exists g, get_ScaleFactor (in_sf inp) = inr g).
  { pose proof Hloop as Hfirst. cbn [seq for_each] in Hfirst.
    apply bind_inr in Hfirst. destruct Hfirst as (st1 & w6 & Hbody & _).
    exact (period_iteration_needs_sf _ _ _ _ _ _ _ _ _ _ _ _ Hbody). }
  destruct Hsf as [unit_sf Hsf].
  rewrite Hw1 in Hnames, Hloop.
  change (w_listdir (loaded ?l w)) with (w_listdir w) in Hnames.
  rewrite seq_S, for_each_app in Hloop. apply bind_inr in Hloop.
  destruct Hloop as ([sf1 o1] & w6 & Hprefix & Hlast).
  destruct (for_each_periods_inr w base_directory (in_prior_cache inp)
              nudge_factor (in_areas inp) (in_mask inp) names Hnames unit_sf
              _ 0%nat _ unit_sf _ _ _ _ Hsf eq_refl Hprefix)
    as (sf_before & Hbefore & Hsf1 & ->).
  cbn [fst] in Hsf1. rewrite Nat.add_0_l in Hbefore, Hlast.
  cbn [for_each] in Hlast. apply bind_inr in Hlast.
  destruct Hlast as (st & w7 & Hbody & Hret).
  unfold ret in Hret. injection Hret as -> ->.
  destruct (period_iteration_inr _ _ _ _ _ _ _ Hnames _ _ _ _ _ _ Hbody)
    as (original_emis & posterior_sf & Ho & Hq).
  rewrite (period_iteration_run _ _ _ _ _ _ _ Hnames _ _ _ _ _ _ _
             Hsf1 Ho Hq) in Hbody.
  destruct (period_update nudge_factor (in_areas inp) (in_mask inp)
              posterior_sf sf_before original_emis) as [e|g'] eqn:Hu;
    [discriminate|].
  injection Hbody as <- <- <-.
  unfold save_scale_factors in Hsave. cbn [fst snd] in Hsave.
  rewrite (bind_run _ _ _ _ _
             (lift_run _ _ _ (get_set_ScaleFactor _ _ g' Hsf1))) in Hsave.
  unfold bind, print, to_netcdf in Hsave. injection Hsave as <-.
  exists unit_sf, sf_before, original_emis, posterior_sf.
  split; [exact Hsf|]. split; [exact Hbefore|]. split; [exact Ho|].
  split; [exact Hq|].
  cbn [written printed loaded w_stdout].
  rewrite (period_update_total _ _ _ _ _ _ _ Hu), <- app_assoc.
  reflexivity.
Qed.

(** X12: the first things [prepare_sf] needs.  Without the configuration
    file, or without the directory of the Jacobian runs, it raises
    [FileNotFoundError]; with that directory but no entry whose name
    contains "0000", it raises [IndexError]. *)
Theorem prepare_sf_missing_inputs (config_path base_directory : string)
  (period_number : Z) (nudge_factor : Qc) (w : world) :
  let run :=
    prepare_sf config_path period_number base_directory nudge_factor w in
  match w_yaml w !! config_path with
  | None => run = inl FileNotFoundError
  | Some _ =>
      match w_listdir w !! path_join base_directory "jacobian_runs" with
      | None => run = inl FileNotFoundError
      | Some runs =>
          (forall r, r ∈ runs -> contains "0000" r = false) ->
          run = inl IndexError
      end
  end.
Proof.
  intros run. unfold run, prepare_sf, read_inputs.
  destruct (w_yaml w !! config_path) as [config|] eqn:Hcfg.
  - destruct (w_listdir w !! path_join base_directory "jacobian_runs")
      as [runs|] eqn:Hruns.
    + intros Hnone. apply bind_raise.
      assert (Hy : load_yaml config_path w = inr (config, w))
        by (unfold load_yaml; now rewrite Hcfg).
      rewrite (bind_run _ _ _ _ _ Hy).
      assert (Hl : listdir (path_join base_directory "jacobian_runs") w
                   = inr (runs, w))
        by (unfold listdir; now rewrite Hruns).
      rewrite (bind_run _ _ _ _ _ Hl). apply bind_raise.
      assert (Hf : List.filter (contains "0000") runs = []).
      { clear Hruns Hl. induction runs as [|r runs IH]; [reflexivity|].
        simpl. rewrite (Hnone r) by now left.
        apply IH. intros r' Hr'. apply Hnone. now right. }
      now rewrite Hf.
    + apply bind_raise.
      assert (Hy : load_yaml config_path w = inr (config, w))
        by (unfold load_yaml; now rewrite Hcfg).
      rewrite (bind_run _ _ _ _ _ Hy). apply bind_raise.
      unfold listdir. now rewrite Hruns.
  - apply bind_raise, bind_raise. unfold load_yaml. now rewrite Hcfg.
Qed.

(** ** More on the region-of-interest mask *)



Lemma grid_lookup_label_value (labels : grid cell) (i j : nat) (l : Qc) :
  grid_lookup labels i j = Some (Some l) -> l ∈ label_values labels.
Proof.
  unfold grid_lookup, label_values. intros H.
  apply elem_of_remove_dups, list_elem_of_omap. exists (Some l).
  split; [|reflexivity]. apply list_elem_of_In, in_concat.
  destruct (labels !! i) as [row|] eqn:Hrow; simpl in H; [|discriminate].
  exists row. split; apply list_elem_of_In.
  - now apply list_elem_of_lookup_2 with i.
  - now apply list_elem_of_lookup_2 with j.
Qed.

(** X10: without buffer clusters ([nBufferClusters] is 0) and with an
    integer as the largest label, the mask selects every cell that carries
    a label; only NaN cells stay out. *)
Theorem roi_mask_without_buffer (labels : grid cell)
  (config : gmap string Z) (z : Z) :
  nanmax labels = inr (Some (Qc_of_Z z)) ->
  config !! "nBufferClusters" = Some 0%Z ->
  last_ROI_element labels config = inr z
  /\ forall i j,
       grid_lookup (roi_mask labels z) i j = Some true
       <-> exists l, grid_lookup labels i j = Some (Some l).
Proof.
  intros Hmax Hcfg. split.
  - unfold last_ROI_element, dict_get. rewrite Hmax, Hcfg.
    unfold sub_int. rewrite <- Z2Qc_inj_sub, Z.sub_0_r.
    apply int_of_float_integer.
  - intros i j. rewrite roi_mask_lookup. split.
    + intros (l & Hl & _). eauto.
    + intros (l & Hl). exists l. split; [exact Hl|].
      apply (nanmax_is_max labels _ Hmax).
      now apply grid_lookup_label_value with i j.
Qed.

(** ** More on filter_obs_with_mask *)

(** X16: the grid position an observation is matched to.  It is a position
    of the coordinate array, no other coordinate is closer to the
    observation, and every earlier coordinate is farther: there is no test
    that the observation lies within the grid. *)
Theorem nearest_spec (reference_grid : list Qc) (q : Qc) (k : nat) :
  nearest reference_grid q = inr k ->
  exists g,
    reference_grid !! k = Some g
    /\ (forall m g', reference_grid !! m = Some g' ->
                     Qcabs (g - q) <= Qcabs (g' - q))
    /\ (forall m g', reference_grid !! m = Some g' -> (m < k)%nat ->
                     Qcabs (g - q) < Qcabs (g' - q)).
Proof.
  unfold nearest. intros H.
  destruct (argmin_spec _ _ H) as (v & Hk & Hmin & Hfirst).
  change (map (fun g => Qcabs (g - q)) reference_grid)
    with ((fun g => Qcabs (g - q)) <$> reference_grid) in *.
  rewrite list_lookup_fmap in Hk.
  destruct (reference_grid !! k) as [g|] eqn:Hg; [|discriminate].
  injection Hk as <-. exists g. split; [reflexivity|]. split.
  - intros m g' Hm. apply (Hmin m). now rewrite list_lookup_fmap, Hm.
  - intros m g' Hm Hlt. apply (Hfirst m); [|exact Hlt].
    now rewrite list_lookup_fmap, Hm.
Qed.

(** X14: whatever the index labels, a dataframe returned by
    [filter_obs_with_mask] is made of rows of the input in their order,
    each of them lying in the mask, and [count_obs_in_mask] is its number
    of rows, at most the number of rows given. *)
Theorem filter_obs_with_mask_sound {A} (mask : mask_array)
  (df out : list (observation A)) :
  filter_obs_with_mask mask df = inr out ->
  out `sublist_of` df
  /\ (forall r, r ∈ out -> lies_in_mask mask r = true)
  /\ count_obs_in_mask mask df = inr (length out)
  /\ (length out <= length df)%nat.
Proof.
  intros H. unfold count_obs_in_mask. rewrite H.
  unfold filter_obs_with_mask in H.
  destruct (bad_indices mask 0 df) as [e|bad_ind] eqn:Hbad; [discriminate|].
  injection H as <-.
  destruct (bad_indices_spec _ _ _ _ Hbad) as [Hall Hmem].
  assert (Hsub : drop df (index_at df bad_ind) `sublist_of` df)
    by apply sublist_filter.
  split; [exact Hsub|]. split; [|split; [reflexivity|]].
  - intros r Hr. apply list_elem_of_filter in Hr as [Hlabel Hr].
    destruct (Hall r Hr) as [b Hb]. unfold lies_in_mask. rewrite Hb.
    destruct b; [|reflexivity]. destruct Hlabel.
    apply list_elem_of_lookup in Hr as [i Hi].
    unfold index_at. apply list_elem_of_omap. exists i.
    split; [|now rewrite Hi]. apply Hmem. exists i, r. auto.
  - now apply sublist_length.
Qed.

(** X15: a mask without latitudes or without longitudes makes
    [filter_obs_with_mask] and [count_obs_in_mask] raise [ValueError] as
    soon as there is an observation; an empty dataframe passes through. *)
Theorem filter_obs_with_mask_no_coordinates {A} (mask : mask_array)
  (df : list (observation A)) :
  mask_lat mask = [] \/ mask_lon mask = [] ->
  (df <> [] ->
   filter_obs_with_mask mask df = inl ValueError
   /\ count_obs_in_mask mask df = inl ValueError)
  /\ filter_obs_with_mask mask (@nil (observation A)) = inr []
  /\ count_obs_in_mask mask (@nil (observation A)) = inr 0%nat.
Proof.
  intros Hmask. split; [|split; reflexivity].
  intros Hdf. destruct df as [|r df]; [congruence|].
  assert (Hr : not_in_mask mask r = inl ValueError).
  { unfold not_in_mask, nearest.
    destruct Hmask as [Hlat|Hlon].
    - now rewrite Hlat.
    - rewrite Hlon. now destruct (mask_lat mask). }
  unfold count_obs_in_mask, filter_obs_with_mask. simpl. now rewrite Hr.
Qed.

(** ** filter_blended *)

Lemma bnot_lookup (a : grid bool) (i j : nat) :
  grid_lookup (bnot a) i j = Some true <-> grid_lookup a i j = Some false.
Proof.
  unfold bnot. rewrite grid_lookup_map.
  destruct (grid_lookup a i j) as [[|]|]; simpl; split; congruence.
Qed.

Lemma bor_lookup_false (a b : grid bool) (i j : nat) :
  grid_lookup (bor a b) i j = Some false
  <-> grid_lookup a i j = Some false /\ grid_lookup b i j = Some false.
Proof.
  unfold bor. rewrite grid_lookup_zip.
  destruct (grid_lookup a i j) as [[|]|];
    destruct (grid_lookup b i j) as [[|]|]; simpl;
    split; try discriminate; try tauto; intros [? ?]; discriminate.
Qed.

Lemma band_lookup_false (a b : grid bool) (i j : nat) :
  grid_lookup (band a b) i j = Some false
  <-> exists x y, grid_lookup a i j = Some x /\ grid_lookup b i j = Some y
                  /\ x && y = false.
Proof.
  unfold band. rewrite grid_lookup_zip.
  destruct (grid_lookup a i j) as [x|]; simpl.
  - destruct (grid_lookup b i j) as [y|]; simpl.
    + split; [intros [= H]; eauto|].
      intros (x' & y' & [= <-] & [= <-] & H). now rewrite H.
    + split; [discriminate|]. now intros (x' & y' & _ & [=] & _).
  - split; [discriminate|]. now intros (x' & y' & [=] & _).
Qed.

Lemma grid_map_lookup {A B} (f : A -> B) (g : grid A) (i j : nat) (y : B) :
  grid_lookup (grid_map f g) i j = Some y
  <-> exists x, grid_lookup g i j = Some x /\ f x = y.
Proof.
  rewrite grid_lookup_map. destruct (grid_lookup g i j) as [x|]; simpl.
  - split; [intros [= H]; eauto | intros (x' & [= <-] & ->); reflexivity].
  - split; [discriminate | intros (x' & [=] & _)].
Qed.

(** X17: [filter_blended] returns exactly the indices of the pixels within
    the longitude, latitude and time bounds whose corner longitudes spread
    over less than 100, that are not coastal (surface classification 3) and
    not inland water (classification 2) with a SWIR chi-square above 20000;
    it returns them whenever every pixel has a corner.  A NaN chi-square
    does not remove an inland-water pixel. *)
Theorem filter_blended_exact (d : Blended.blended_data) (xlim ylim : Qc * Qc)
  (startdate enddate : Z) :
  (forall i j v,
     grid_lookup (Blended.longitude_bounds d) i j = Some v -> v <> []) ->
  exists rows cols,
    filter_blended d xlim ylim startdate enddate = inr (rows, cols)
    /\ length rows = length cols
    /\ forall i j,
         (i, j) ∈ zip rows cols
         <-> passes_blended d xlim ylim startdate enddate i j.
Proof.
  intros Hcorners. destruct (ptp_axis2_inr _ Hcorners) as [spread Hspread].
  unfold filter_blended. rewrite Hspread.
  match goal with
  | |- context [np_where ?b] => set (cond := b)
  end.
  exists (np_where cond).1, (np_where cond).2.
  split; [now destruct (np_where cond)|]. split.
  { unfold np_where. cbn [fst snd]. now rewrite !length_fmap. }
  intros i j. rewrite np_where_spec. unfold cond.
  rewrite !band_lookup, bnot_lookup, bor_lookup_false, band_lookup_false.
  rewrite !grid_map_lookup_true. setoid_rewrite grid_map_lookup.
  unfold passes_blended. split.
  - intros (((((((H1 & H2) & H3) & H4) & H5) & H6) & H7) & H8 & H9).
    destruct H1 as (lon & Hlon & (a & -> & H1)%gtb_true).
    destruct H2 as (lon' & Hlon' & (a' & -> & H2)%ltb_true).
    destruct H3 as (lat & Hlat & (b & -> & H3)%gtb_true).
    destruct H4 as (lat' & Hlat' & (b' & -> & H4)%ltb_true).
    destruct H5 as (t & Ht & H5%bool_decide_eq_true).
    destruct H6 as (t' & Ht' & H6%bool_decide_eq_true).
    destruct H7 as (s & Hs & H7).
    destruct H8 as (k & Hk & H8%bool_decide_eq_false).
    destruct H9 as (x & y & (k' & Hk' & <-) & (chi & Hchi & <-) & H9).
    rewrite Hlon in Hlon'. injection Hlon' as <-.
    rewrite Hlat in Hlat'. injection Hlat' as <-.
    rewrite Ht in Ht'. injection Ht' as <-.
    rewrite Hk in Hk'. injection Hk' as <-.
    rewrite (ptp_axis2_lookup _ _ i j Hspread) in Hs.
    destruct (grid_lookup (Blended.longitude_bounds d) i j) as [v|] eqn:Hv;
      [|discriminate]. simpl in Hs.
    destruct (ptp v) as [e|p] eqn:Hp; [discriminate|]. injection Hs as ->.
    exists a, b, t, k, v, chi. repeat split; try assumption.
    + now apply (ptp_below v s).
    + intros (-> & x & -> & Hx).
      rewrite bool_decide_eq_true_2 in H9 by reflexivity. simpl in H9.
      apply bool_decide_eq_false in H9. contradiction.
  - intros (lon & lat & t & k & v & chi & Hlon & Hlat & Ht & Hv & Hk & Hchi
            & H1 & H2 & H3 & H4 & H5 & H6 & H7 & H8 & H9).
    assert (Hp : exists p, ptp v = inr p).
    { destruct v as [|x v]; [now destruct (Hcorners i j [] Hv)|].
      simpl. eauto. }
    destruct Hp as [p Hp].
    repeat split.
    + exists (Some lon). split; [exact Hlon|]. apply gtb_true. eauto.
    + exists (Some lon). split; [exact Hlon|]. apply ltb_true. eauto.
    + exists (Some lat). split; [exact Hlat|]. apply gtb_true. eauto.
    + exists (Some lat). split; [exact Hlat|]. apply ltb_true. eauto.
    + exists t. split; [exact Ht|]. now apply bool_decide_eq_true.
    + exists t. split; [exact Ht|]. now apply bool_decide_eq_true.
    + exists p. split.
      * rewrite (ptp_axis2_lookup _ _ i j Hspread), Hv. simpl.
        now rewrite Hp.
      * now apply (ptp_below v p).
    + exists k. split; [exact Hk|]. now apply bool_decide_eq_false.
    + exists (bool_decide (k = 2%Z)), (gtb chi (Q2Qc 20000)).
      split; [eauto|]. split; [eauto|].
      apply andb_false_iff.
      destruct (decide (k = 2%Z)) as [->|Hk2].
      * right. destruct (gtb chi (Q2Qc 20000)) eqn:Hg; [|reflexivity].
        apply gtb_true in Hg as (x & -> & Hx). destruct H9. eauto.
      * left. now apply bool_decide_eq_false.
Qed.

(** ** The order of the indices *)

Lemma row_positions_sorted (row : list bool) (i k : nat) :
  let l := omap id (imap (fun j x => if x : bool then Some (i, (k + j)%nat)
                                     else None) row) in
  StronglySorted row_major_lt l
  /\ forall x, x ∈ l -> x.1 = i /\ (k <= x.2)%nat.
Proof.
  revert k. induction row as [|b row IH]; intros k; simpl.
  - split; [constructor|]. intros x Hx. inversion Hx.
  - rewrite (imap_ext _ (fun j x => if x : bool then Some (i, (S k + j)%nat)
                                    else None))
      by (intros j x _; simpl; now rewrite Nat.add_succ_r).
    destruct (IH (S k)) as [Hs Hall]. destruct b; simpl.
    + split.
      * constructor; [exact Hs|]. apply Forall_forall. intros x Hx.
        destruct (Hall x Hx) as [H1 H2]. right. simpl. split; [auto|lia].
      * intros x [->|Hx]%elem_of_cons; [simpl; split; [reflexivity|lia]|].
        destruct (Hall x Hx). split; [auto|lia].
    + split; [exact Hs|]. intros x Hx. destruct (Hall x Hx). split; [auto|lia].
Qed.

Lemma row_major_sorted_app (l1 l2 : list (nat * nat)) :
  (forall x y, x ∈ l1 -> y ∈ l2 -> row_major_lt x y) ->
  StronglySorted row_major_lt l1 -> StronglySorted row_major_lt l2 ->
  StronglySorted row_major_lt (l1 ++ l2).
Proof.
  intros Hlt H1 H2. induction H1 as [|x l1 H1 IH Hall]; simpl; [exact H2|].
  constructor.
  - apply IH. intros a b Ha Hb. apply Hlt; [now right|exact Hb].
  - apply Forall_app. split; [exact Hall|].
    apply Forall_forall. intros y Hy. apply Hlt; [now left|exact Hy].
Qed.

Lemma positions_sorted_from (b : grid bool) (r : nat) :
  let l := concat (imap (fun i row =>
             omap id (imap (fun j x => if x : bool
                                       then Some ((r + i)%nat, j) else None)
                        row)) b) in
  StronglySorted row_major_lt l /\ forall x, x ∈ l -> (r <= x.1)%nat.
Proof.
  revert r. induction b as [|row b IH]; intros r; simpl.
  - split; [constructor|]. intros x Hx. inversion Hx.
  - rewrite (imap_ext _ (fun i row =>
               omap id (imap (fun j x => if x : bool
                                         then Some ((S r + i)%nat, j)
                                         else None) row)))
      by (intros i x _; simpl; now rewrite Nat.add_succ_r).
    destruct (IH (S r)) as [Hs Hall].
    destruct (row_positions_sorted row (r + 0) 0) as [Hrow Hrowall].
    simpl in Hrow, Hrowall. split.
    + apply row_major_sorted_app; [|exact Hrow|exact Hs].
      intros x y Hx Hy. left. destruct (Hrowall x Hx) as [-> _].
      specialize (Hall y Hy). lia.
    + intros x [Hx|Hx]%elem_of_app.
      * destruct (Hrowall x Hx) as [-> _]. lia.
      * specialize (Hall x Hx). lia.
Qed.

Lemma true_positions_sorted (b : grid bool) :
  StronglySorted row_major_lt (true_positions b).
Proof. apply (positions_sorted_from b 0). Qed.

Lemma row_major_sorted_NoDup (l : list (nat * nat)) :
  StronglySorted row_major_lt l -> NoDup l.
Proof.
  induction 1 as [|x l _ IH Hall]; constructor; [|exact IH].
  intros Hx. rewrite Forall_forall in Hall.
  destruct (Hall x Hx) as [H|[_ H]]; lia.
Qed.

(** X18: [filter_tropomi] and [filter_blended] return their indices in
    row-major order, each pixel once. *)
Theorem filters_row_major (xlim ylim : Qc * Qc) (startdate enddate : Z)
  (rows cols : list nat) :
  (forall d,
     filter_tropomi d xlim ylim startdate enddate = inr (rows, cols) ->
     StronglySorted row_major_lt (zip rows cols) /\ NoDup (zip rows cols))
  /\ (forall d,
        filter_blended d xlim ylim startdate enddate = inr (rows, cols) ->
        StronglySorted row_major_lt (zip rows cols)
        /\ NoDup (zip rows cols)).
Proof.
  split; intros d H.
  - unfold filter_tropomi in H.
    destruct (ptp_axis2 (longitude_bounds d)); [discriminate|].
    unfold np_where in H. injection H as <- <-. rewrite zip_fst_snd.
    split; [|apply row_major_sorted_NoDup]; apply true_positions_sorted.
  - unfold filter_blended in H.
    destruct (ptp_axis2 (Blended.longitude_bounds d)); [discriminate|].
    unfold np_where in H. injection H as <- <-. rewrite zip_fst_snd.
    split; [|apply row_major_sorted_NoDup]; apply true_positions_sorted.
Qed.

(** ** zero_pad_num_hour *)

Lemma pretty_N_go_length (x : N) (s : string) :
  (String.length s <= String.length (pretty_N_go x s))%nat.
Proof.
  revert s. induction (N.lt_wf_0 x) as [x _ IH]. intros s.
  destruct (decide (x = 0%N)) as [->|Hx]; [now rewrite pretty_N_go_0|].
  rewrite pretty_N_go_step by lia.
  etransitivity; [|apply IH; apply N.div_lt; lia]. simpl. lia.
Qed.

Lemma pretty_N_go_digit (x : N) (s : string) :
  (0 < x < 10)%N ->
  pretty_N_go x s = String (pretty_N_char x) s.
Proof.
  intros Hx. rewrite pretty_N_go_step by lia.
  rewrite N.div_small, N.mod_small by lia. apply pretty_N_go_0.
Qed.

Lemma pretty_N_go_long (x : N) (s : string) :
  (10 <= x)%N ->
  (2 + String.length s <= String.length (pretty_N_go x s))%nat.
Proof.
  intros Hx. rewrite pretty_N_go_step by lia.
  assert (0 < x `div` 10)%N by (apply N.div_str_pos; lia).
  rewrite pretty_N_go_step by lia.
  etransitivity; [|apply pretty_N_go_length]. simpl. lia.
Qed.

(** A positive number is not written with a leading zero. *)
Lemma pretty_N_go_head (x : N) (s : string) :
  (0 < x)%N ->
  exists c rest, pretty_N_go x s = String c rest /\ c <> "0"%char.
Proof.
  revert s. induction (N.lt_wf_0 x) as [x _ IH]. intros s Hx.
  destruct (decide (x < 10)%N) as [Hsmall|Hbig].
  - rewrite pretty_N_go_digit by lia. eexists _, _. split; [reflexivity|].
    assert (x = 1 \/ x = 2 \/ x = 3 \/ x = 4 \/ x = 5 \/ x = 6 \/ x = 7
            \/ x = 8 \/ x = 9)%N as Hc by lia.
    repeat destruct Hc as [->|Hc]; try subst x; discriminate.
  - rewrite pretty_N_go_step by lia. apply IH.
    + apply N.div_lt; lia.
    + apply N.div_str_pos. lia.
Qed.

Lemma pretty_Z_length_1 (n : Z) :
  String.length (pretty n) = 1%nat <-> (0 <= n <= 9)%Z.
Proof.
  destruct n as [|p|p].
  - split; [lia|reflexivity].
  - change (pretty (Z.pos p)) with (pretty (N.pos p)).
    unfold pretty, pretty_N. destruct (decide (N.pos p = 0%N)); [lia|].
    destruct (decide (N.pos p < 10)%N) as [Hs|Hb].
    + rewrite pretty_N_go_digit by lia. simpl. split; [lia|reflexivity].
    + pose proof (pretty_N_go_long (N.pos p) "" ltac:(lia)) as Hlen.
      simpl in Hlen. split; lia.
  - change (pretty (Z.neg p)) with ("-" +:+ pretty (N.pos p)).
    unfold pretty at 1, pretty_N. destruct (decide (N.pos p = 0%N)); [lia|].
    pose proof (pretty_N_go_head (N.pos p) "" ltac:(lia))
      as (c & rest & Hc & _).
    rewrite Hc. simpl. split; lia.
Qed.

Lemma pretty_Z_head (n : Z) :
  n <> 0%Z -> exists c rest, pretty n = String c rest /\ c <> "0"%char.
Proof.
  intros Hn. destruct n as [|p|p]; [congruence| |].
  - change (pretty (Z.pos p)) with (pretty (N.pos p)).
    unfold pretty, pretty_N. destruct (decide (N.pos p = 0%N)); [lia|].
    apply pretty_N_go_head. lia.
  - change (pretty (Z.neg p)) with ("-" +:+ pretty (N.pos p)).
    eexists _, _. split; [reflexivity|discriminate].
Qed.

(** X19: [zero_pad_num_hour] writes the numbers 0 to 9 with a leading zero
    and every other integer as [str] does; a number from 0 to 99 comes out
    with two characters; and different integers never give the same
    text. *)
Theorem zero_pad_num_hour_spec :
  (forall n, (0 <= n <= 9)%Z ->
             zero_pad_num_hour n = String "0" (pretty n))
  /\ (forall n, (n < 0 \/ 10 <= n)%Z -> zero_pad_num_hour n = pretty n)
  /\ (forall n, (0 <= n < 100)%Z ->
                String.length (zero_pad_num_hour n) = 2%nat)
  /\ (forall n m, zero_pad_num_hour n = zero_pad_num_hour m -> n = m).
Proof.
  assert (Hpad : forall n, (0 <= n <= 9)%Z ->
                  zero_pad_num_hour n = String "0" (pretty n)).
  { intros n Hn. unfold zero_pad_num_hour.
    now rewrite (proj2 (Nat.eqb_eq _ _) (proj2 (pretty_Z_length_1 n) Hn)). }
  assert (Hkeep : forall n, (n < 0 \/ 10 <= n)%Z ->
                   zero_pad_num_hour n = pretty n).
  { intros n Hn. unfold zero_pad_num_hour.
    destruct (Nat.eqb_spec (String.length (pretty n)) 1) as [H1|H1];
      [|reflexivity].
    apply pretty_Z_length_1 in H1. lia. }
  split; [exact Hpad|]. split; [exact Hkeep|]. split.
  - intros n Hn. destruct (decide (n <= 9)%Z) as [Hs|Hb].
    + rewrite Hpad by lia. simpl. f_equal. apply pretty_Z_length_1. lia.
    + rewrite Hkeep by lia. destruct n as [|p|p]; try lia.
      change (pretty (Z.pos p)) with (pretty (N.pos p)).
      unfold pretty, pretty_N. destruct (decide (N.pos p = 0%N)); [lia|].
      rewrite pretty_N_go_step by lia.
      rewrite pretty_N_go_digit; [reflexivity|].
      split; [apply N.div_str_pos; lia|].
      apply N.Div0.div_lt_upper_bound. lia.
  - intros n m H.
    destruct (decide (0 <= n <= 9)%Z) as [Hn|Hn],
             (decide (0 <= m <= 9)%Z) as [Hm|Hm].
    + rewrite !Hpad in H by assumption. injection H as H.
      exact (pretty_Z_inj _ _ H).
    + rewrite Hpad in H by assumption. rewrite Hkeep in H by lia.
      destruct (pretty_Z_head m ltac:(lia)) as (c & rest & Hc & Hc0).
      rewrite Hc in H. injection H as H _. congruence.
    + rewrite (Hpad m) in H by assumption. rewrite Hkeep in H by lia.
      destruct (pretty_Z_head n ltac:(lia)) as (c & rest & Hc & Hc0).
      rewrite Hc in H. injection H as H _. congruence.
    + rewrite !Hkeep in H by lia. exact (pretty_Z_inj _ _ H).
Qed.

(** ** What the update keeps *)

Lemma new_sf_lookup (nudge_factor : Qc) (areas : grid cell)
  (mask : grid bool) (posterior_sf sf original_emis new_sf : grid cell)
  (i j : nat) :
  let current := current_posterior_emis posterior_sf sf original_emis in
  let nudged := nudged_posterior_emis nudge_factor original_emis current in
  let lam := sum_total_emissions current areas mask
             / sum_total_emissions nudged areas mask in
  period_update nudge_factor areas mask posterior_sf sf original_emis
  = inr new_sf ->
  sum_total_emissions nudged areas mask <> 0
  /\ grid_lookup new_sf i j
     = (o ← grid_lookup original_emis i j;
        p ← grid_lookup posterior_sf i j;
        s ← grid_lookup sf i j;
        Some (div (mul (add (mul (Some nudge_factor) o)
                            (mul (Some (1 - nudge_factor))
                               (mul (mul p s) o)))
                       (Some lam)) o)).
Proof.
  intros current nudged lam Hrun.
  unfold period_update, lambda_scaler, float_div in Hrun.
  fold current nudged in Hrun.
  destruct (decide (sum_total_emissions nudged areas mask = 0)) as [|Hnz];
    [discriminate|].
  injection Hrun as <-. split; [exact Hnz|]. fold lam.
  unfold fdiv. rewrite grid_lookup_zip. unfold nudged, current.
  rewrite scaled_lookup.
  destruct (grid_lookup original_emis i j) as [o|]; simpl; [|reflexivity].
  destruct (grid_lookup posterior_sf i j) as [p|]; simpl; [|reflexivity].
  now destruct (grid_lookup sf i j).
Qed.

(** X20: a NaN in the scale factor stays.  Where the scale factor so far
    is NaN (as the update leaves it where a period had no emissions), the
    new scale factor is NaN again, whatever the posterior and the emissions
    of the period. *)
Theorem period_update_keeps_nan (nudge_factor : Qc) (areas : grid cell)
  (mask : grid bool) (posterior_sf sf original_emis new_sf : grid cell)
  (i j : nat) (p o : cell) :
  period_update nudge_factor areas mask posterior_sf sf original_emis
  = inr new_sf ->
  grid_lookup sf i j = Some nan ->
  grid_lookup posterior_sf i j = Some p ->
  grid_lookup original_emis i j = Some o ->
  grid_lookup new_sf i j = Some nan.
Proof.
  intros Hrun Hs Hp Ho.
  destruct (new_sf_lookup _ _ _ _ _ _ _ i j Hrun) as [_ ->].
  rewrite Ho, Hp, Hs. simpl. destruct p, o; reflexivity.
Qed.

Lemma sum_upto_nonneg (n : nat) (f : nat -> Qc) :
  (forall i, 0 <= f i) -> 0 <= sum_upto n f.
Proof.
  intros Hf. unfold sum_upto. induction (seq 0 n) as [|k ks IH]; simpl.
  - apply Qcle_refl.
  - now apply Qcplus_nonneg_nonneg.
Qed.

Lemma one_minus_nonneg (x : Qc) : x <= 1 -> 0 <= 1 - x.
Proof.
  intros H. apply (Qcplus_le_mono_r _ _ x).
  replace (1 - x + x) with 1 by ring. now rewrite Qcplus_0_l.
Qed.

Lemma weighted_cell_nonneg (emissions areas : grid cell) (mask : grid bool)
  (i j : nat) :
  nonnegative emissions -> nonnegative areas ->
  0 <= weighted_cell emissions areas mask i j.
Proof.
  intros He Ha. unfold weighted_cell.
  destruct (grid_lookup emissions i j) as [e|] eqn:Hei; [|apply Qcle_refl].
  destruct (grid_lookup areas i j) as [a|] eqn:Hai; [|apply Qcle_refl].
  destruct (grid_lookup mask i j) as [b|]; [|apply Qcle_refl].
  destruct e as [e|], a as [a|]; simpl; try apply Qcle_refl.
  apply Qcmult_nonneg_nonneg.
  - apply Qcmult_nonneg_nonneg; [exact (He i j e Hei)|exact (Ha i j a Hai)].
  - destruct b; by_evaluation.
Qed.

Lemma sum_total_emissions_nonneg (emissions areas : grid cell)
  (mask : grid bool) :
  nonnegative emissions -> nonnegative areas ->
  0 <= sum_total_emissions emissions areas mask.
Proof.
  intros He Ha. unfold sum_total_emissions. rewrite grid_sum_weighted.
  apply Qcmult_nonneg_nonneg; [|by_evaluation].
  apply Qcmult_nonneg_nonneg; [|by_evaluation].
  apply Qcmult_nonneg_nonneg; [|by_evaluation].
  unfold area_weighted_masked_sum. apply sum_upto_nonneg. intros i.
  apply sum_upto_nonneg. intros j. now apply weighted_cell_nonneg.
Qed.

Lemma current_nonnegative (posterior_sf sf original_emis : grid cell) :
  nonnegative posterior_sf -> nonnegative sf -> nonnegative original_emis ->
  nonnegative (current_posterior_emis posterior_sf sf original_emis).
Proof.
  intros Hp Hs Ho i j x. rewrite current_posterior_emis_lookup.
  destruct (grid_lookup posterior_sf i j) as [[p|]|] eqn:Hpi; simpl;
    try discriminate;
    destruct (grid_lookup sf i j) as [[s|]|] eqn:Hsi; simpl;
    try discriminate;
    destruct (grid_lookup original_emis i j) as [[o|]|] eqn:Hoi; simpl;
    try discriminate.
  intros [= <-].
  apply Qcmult_nonneg_nonneg; [|exact (Ho i j o Hoi)].
  apply Qcmult_nonneg_nonneg; [exact (Hp i j p Hpi)|exact (Hs i j s Hsi)].
Qed.

Lemma nudged_nonnegative (nudge_factor : Qc) (original_emis current
  : grid cell) :
  0 <= nudge_factor -> nudge_factor <= 1 ->
  nonnegative original_emis -> nonnegative current ->
  nonnegative (nudged_posterior_emis nudge_factor original_emis current).
Proof.
  intros H0 H1 Ho Hc i j x. rewrite nudged_posterior_emis_lookup.
  destruct (grid_lookup original_emis i j) as [[o|]|] eqn:Hoi; simpl;
    try discriminate;
    destruct (grid_lookup current i j) as [[c|]|] eqn:Hci; simpl;
    try discriminate.
  intros [= <-]. apply Qcplus_nonneg_nonneg.
  - apply Qcmult_nonneg_nonneg; [exact H0|exact (Ho i j o Hoi)].
  - apply Qcmult_nonneg_nonneg;
      [now apply one_minus_nonneg|exact (Hc i j c Hci)].
Qed.

Lemma nonneg_nonzero_pos (x : Qc) : 0 <= x -> x <> 0 -> 0 < x.
Proof.
  intros Hx Hnz. destruct (Qclt_le_dec 0 x) as [Hlt|Hle]; [exact Hlt|].
  destruct Hnz. now apply Qcle_antisym.
Qed.

Lemma div_nonneg (x y : Qc) : 0 <= x -> 0 < y -> 0 <= x / y.
Proof.
  intros Hx Hy. apply Qcmult_nonneg_nonneg; [exact Hx|].
  apply Qclt_le_weak. now apply Qcinv_pos.
Qed.

(** X21: the update keeps scale factors from turning negative.  With a
    nudge factor between 0 and 1 and no negative number among the
    posterior, the scale factor so far, the emissions and the areas, no new
    scale factor is negative. *)
Theorem period_update_nonnegative (nudge_factor : Qc) (areas : grid cell)
  (mask : grid bool) (posterior_sf sf original_emis new_sf : grid cell) :
  0 <= nudge_factor -> nudge_factor <= 1 ->
  nonnegative posterior_sf -> nonnegative sf ->
  nonnegative original_emis -> nonnegative areas ->
  period_update nudge_factor areas mask posterior_sf sf original_emis
  = inr new_sf ->
  nonnegative new_sf.
Proof.
  intros H0 H1 Hp Hs Ho Ha Hrun i j x.
  destruct (new_sf_lookup _ _ _ _ _ _ _ i j Hrun) as [Hnz ->].
  set (current := current_posterior_emis posterior_sf sf original_emis) in *.
  set (nudged := nudged_posterior_emis nudge_factor original_emis current)
    in *.
  assert (Hc : nonnegative current) by now apply current_nonnegative.
  assert (Hn : nonnegative nudged) by now apply nudged_nonnegative.
  pose proof (sum_total_emissions_nonneg current areas mask Hc Ha) as Hct.
  pose proof (sum_total_emissions_nonneg nudged areas mask Hn Ha) as Hnt.
  pose proof (div_nonneg _ _ Hct (nonneg_nonzero_pos _ Hnt Hnz)) as Hlam.
  set (lam := sum_total_emissions current areas mask
              / sum_total_emissions nudged areas mask) in *.
  clearbody lam current nudged.
  destruct (grid_lookup original_emis i j) as [[o|]|] eqn:Hoi;
    cbn [mbind option_bind]; try discriminate;
    destruct (grid_lookup posterior_sf i j) as [[p|]|] eqn:Hpi;
    cbn [mbind option_bind]; try discriminate;
    destruct (grid_lookup sf i j) as [[s|]|] eqn:Hsi;
    cbn [mbind option_bind]; try discriminate.
  cbn [mul add div].
  destruct (decide (o = 0)) as [|Hoz]; [discriminate|]. intros [= <-].
  pose proof (nonneg_nonzero_pos o (Ho i j o Hoi) Hoz) as Hopos.
  apply div_nonneg; [|exact Hopos].
  apply Qcmult_nonneg_nonneg; [|exact Hlam].
  apply Qcplus_nonneg_nonneg.
  - apply Qcmult_nonneg_nonneg; [exact H0|exact (Ho i j o Hoi)].
  - apply Qcmult_nonneg_nonneg; [now apply one_minus_nonneg|].
    apply Qcmult_nonneg_nonneg; [|exact (Ho i j o Hoi)].
    apply Qcmult_nonneg_nonneg; [exact (Hp i j p Hpi)|exact (Hs i j s Hsi)].
Qed.

(** ** The further properties at work on the sample runs *)

Lemma sum_total_emissions_only_selected_witness :
  let mask := [[true; true; false]] in
  let e1 := [[num 1 1; num 2 1; num 3 1]] in
  let e2 := [[num 1 1; num 2 1; nan]; [num 7 1]] in
  (forall i j, grid_lookup mask i j = Some true ->
               grid_lookup e1 i j = grid_lookup e2 i j)
  /\ sum_total_emissions e1 sample_areas mask
     = sum_total_emissions e2 sample_areas mask.
Proof.
  intros mask e1 e2.
  assert (Hsel : forall i j, grid_lookup mask i j = Some true ->
                             grid_lookup e1 i j = grid_lookup e2 i j).
  { intros [|i] [|[|[|j]]] H; try reflexivity; vm_compute in H;
      discriminate. }
  split; [exact Hsel|].
  exact (sum_total_emissions_only_selected e1 e2 sample_areas mask Hsel).
Defined.

Lemma period_update_nothing_selected_witness :
  let mask := [[false; false; false]] in
  (forall i j, grid_lookup mask i j <> Some true)
  /\ period_update (Q2Qc (1 # 10)) sample_areas mask
       [[num 3 2; num 1 2; num 1 1]] [[num 1 1; num 1 1; num 1 1]]
       [[num 1 1; num 0 1; num 3 1]]
     = inl ZeroDivisionError.
Proof.
  intros mask.
  assert (Hm : forall i j, grid_lookup mask i j <> Some true).
  { intros [|i] [|[|[|j]]] H; vm_compute in H; discriminate. }
  split; [exact Hm|].
  exact (period_update_nothing_selected (Q2Qc (1 # 10)) sample_areas mask
           [[num 3 2; num 1 2; num 1 1]] [[num 1 1; num 1 1; num 1 1]]
           [[num 1 1; num 0 1; num 3 1]] Hm).
Defined.

Lemma new_scale_factor_conserves_total_witness :
  let posterior_sf := [[num 3 2; num 1 2; num 1 1]] in
  let sf := [[num 1 1; num 1 1; num 1 1]] in
  let original_emis := [[num 1 1; num 0 1; num 3 1]] in
  let mask := [[true; true; false]] in
  let current := current_posterior_emis posterior_sf sf original_emis in
  let nudged := nudged_posterior_emis (Q2Qc (1 # 10)) original_emis current in
  sum_total_emissions nudged sample_areas mask <> 0
  /\ exists new_sf,
       period_update (Q2Qc (1 # 10)) sample_areas mask posterior_sf sf
         original_emis = inr new_sf
       /\ sum_total_emissions (fmul new_sf original_emis) sample_areas mask
          = sum_total_emissions current sample_areas mask.
Proof.
  intros posterior_sf sf original_emis mask current nudged.
  assert (Hnz : sum_total_emissions nudged sample_areas mask <> 0)
    by by_evaluation.
  split; [exact Hnz|].
  exact (new_scale_factor_conserves_total (Q2Qc (1 # 10)) sample_areas mask
           posterior_sf sf original_emis Hnz).
Defined.

Lemma new_scale_factor_cell_witness :
  let posterior_sf := [[num 3 2; num 1 2; num 1 1]] in
  let sf := [[num 1 1; num 1 1; num 1 1]] in
  let original_emis := [[num 1 1; num 0 1; num 3 1]] in
  let mask := [[true; true; false]] in
  let current := current_posterior_emis posterior_sf sf original_emis in
  let nudged := nudged_posterior_emis (Q2Qc (1 # 10)) original_emis current in
  let lam := sum_total_emissions current sample_areas mask
             / sum_total_emissions nudged sample_areas mask in
  exists new_sf,
    period_update (Q2Qc (1 # 10)) sample_areas mask posterior_sf sf
      original_emis = inr new_sf
    /\ grid_lookup new_sf 0 1 = Some nan
    /\ grid_lookup new_sf 0 0
       = Some (Some (lam * (Q2Qc (1 # 10)
                            + (1 - Q2Qc (1 # 10))
                              * (Q2Qc (3 # 2) * Q2Qc 1)))).
Proof.
  intros posterior_sf sf original_emis mask current nudged lam.
  destruct (completes_inr
              (period_update (Q2Qc (1 # 10)) sample_areas mask posterior_sf
                 sf original_emis))
    as [new_sf Hrun]; [vm_compute; reflexivity|].
  exists new_sf. split; [exact Hrun|]. split.
  - exact (new_scale_factor_cell (Q2Qc (1 # 10)) sample_areas mask
             posterior_sf sf original_emis new_sf 0 1 (Q2Qc (1 # 2))
             (Q2Qc 1) (Q2Qc 0) Hrun eq_refl eq_refl eq_refl).
  - exact (new_scale_factor_cell (Q2Qc (1 # 10)) sample_areas mask
             posterior_sf sf original_emis new_sf 0 0 (Q2Qc (3 # 2))
             (Q2Qc 1) (Q2Qc 1) Hrun eq_refl eq_refl eq_refl).
Defined.

Lemma period_update_without_nudging_witness :
  let posterior_sf := [[num 3 2; num 1 2; num 1 1]] in
  let sf := [[num 1 1; num 1 1; num 1 1]] in
  let original_emis := [[num 1 1; num 0 1; num 3 1]] in
  let mask := [[true; true; false]] in
  let current := current_posterior_emis posterior_sf sf original_emis in
  sum_total_emissions current sample_areas mask <> 0
  /\ exists new_sf,
       period_update 0 sample_areas mask posterior_sf sf original_emis
       = inr new_sf
       /\ grid_lookup new_sf 0 0 = Some (Some (Q2Qc (3 # 2) * Q2Qc 1)).
Proof.
  intros posterior_sf sf original_emis mask current.
  assert (Hnz : sum_total_emissions current sample_areas mask <> 0)
    by by_evaluation.
  split; [exact Hnz|].
  destruct (period_update_without_nudging sample_areas mask posterior_sf sf
              original_emis Hnz) as (_ & new_sf & Hrun & Hcell).
  exists new_sf. split; [exact Hrun|].
  apply (Hcell 0%nat 0%nat (Q2Qc (3 # 2)) (Q2Qc 1) (Q2Qc 1));
    try reflexivity.
  by_evaluation.
Defined.


Lemma prepare_sf_too_few_hemco_files_witness :
  let names := ["HEMCO_diagnostics.B.nc"; "Restart.nc";
                "HEMCO_diagnostics.A.nc"] in
  exists sf,
    read_inputs "config.yml" "/run" sample_world
    = inr (sample_inputs, loaded sample_input_loads sample_world)
    /\ w_listdir sample_world !! in_prior_cache sample_inputs = Some names
    /\ (Z.of_nat (length (hemco_files names)) < 4 - 1)%Z
    /\ scale_factor_after sample_world "/run"
         (in_prior_cache sample_inputs) (Q2Qc (1 # 10))
         (in_areas sample_inputs) (in_mask sample_inputs)
         [[num 1 1; num 1 1; num 1 1]] (length (hemco_files names))
       = Some sf
    /\ prepare_sf "config.yml" 4 "/run" (Q2Qc (1 # 10)) sample_world
       = inl IndexError.
Proof.
  intros names. eexists.
  assert (Hread : read_inputs "config.yml" "/run" sample_world
                  = inr (sample_inputs,
                         loaded sample_input_loads sample_world))
    by (vm_compute; reflexivity).
  assert (Hdir : w_listdir sample_world !! in_prior_cache sample_inputs
                 = Some names) by (vm_compute; reflexivity).
  assert (Hfew : (Z.of_nat (length (hemco_files names)) < 4 - 1)%Z)
    by (vm_compute; reflexivity).
  assert (Hsf : scale_factor_after sample_world "/run"
                  (in_prior_cache sample_inputs) (Q2Qc (1 # 10))
                  (in_areas sample_inputs) (in_mask sample_inputs)
                  [[num 1 1; num 1 1; num 1 1]] (length (hemco_files names))
                = Some _) by (vm_compute; reflexivity).
  split; [exact Hread|]. split; [exact Hdir|]. split; [exact Hfew|].
  split; [exact Hsf|].
  exact (prepare_sf_too_few_hemco_files "config.yml" "/run" 4
           (Q2Qc (1 # 10)) sample_world _ sample_inputs names _ _
           Hread eq_refl Hdir Hfew Hsf).
Defined.

Lemma prepare_sf_prints_witness :
  exists w' sf_before,
    (3 > 1)%Z
    /\ read_inputs "config.yml" "/run" sample_world
       = inr (sample_inputs, loaded sample_input_loads sample_world)
    /\ prepare_sf "config.yml" 3 "/run" (Q2Qc (1 # 10)) sample_world
       = inr (tt, w')
    /\ scale_factor_after sample_world "/run"
         (in_prior_cache sample_inputs) (Q2Qc (1 # 10))
         (in_areas sample_inputs) (in_mask sample_inputs)
         [[num 1 1; num 1 1; num 1 1]] 1 = Some sf_before
    /\ w_stdout w'
       = [UsedHemcoUpTo 2;
          TotalPriorEmission
            (sum_total_emissions
               (current_posterior_emis [[num 1 2; num 1 2; num 1 1]]
                  sf_before [[num 2 1; num 2 1; num 3 1]])
               sample_areas [[true; true; false]])].
Proof.
  assert (Hread : read_inputs "config.yml" "/run" sample_world
                  = inr (sample_inputs, loaded sample_input_loads sample_world))
    by (vm_compute; reflexivity).
  destruct (completes_inr
              (prepare_sf "config.yml" 3 "/run" (Q2Qc (1 # 10)) sample_world))
    as [[[] w'] Hrun]; [vm_compute; reflexivity|].
  destruct (prepare_sf_prints "config.yml" "/run" 3 (Q2Qc (1 # 10))
              sample_world _ w' sample_inputs ltac:(lia) Hread Hrun)
    as (unit_sf & sf_before & original_emis & posterior_sf & Hunit & Hsf
        & Ho & Hp & Hout).
  injection Hunit as <-.
  assert (Ho' : original_emis_of_period sample_world
                  (in_prior_cache sample_inputs) (Z.to_nat (3 - 1))
                = Some [[num 2 1; num 2 1; num 3 1]])
    by (vm_compute; reflexivity).
  assert (Hp' : posterior_of_period sample_world "/run" (Z.to_nat (3 - 1))
                = Some [[num 1 2; num 1 2; num 1 1]])
    by (vm_compute; reflexivity).
  rewrite Ho' in Ho. injection Ho as <-.
  rewrite Hp' in Hp. injection Hp as <-.
  exists w', sf_before.
  split; [lia|]. split; [exact Hread|]. split; [exact Hrun|].
  split; [exact Hsf|]. exact Hout.
Defined.

Lemma prepare_sf_missing_inputs_witness :
  let w := {| w_listdir := {[ "/run/jacobian_runs" := ["sim_0001"] ]};
              w_yaml := {[ "config.yml" := {[ "nBufferClusters" := 1%Z ]} ]};
              w_netcdf := ∅; w_loads := []; w_stdout := [] |} in
  (forall r, r ∈ ["sim_0001"] -> contains "0000" r = false)
  /\ prepare_sf "config.yml" 1 "/run" (Q2Qc (1 # 10)) w = inl IndexError.
Proof.
  intros w.
  assert (Hruns : forall r, r ∈ ["sim_0001"] -> contains "0000" r = false).
  { intros r ->%list_elem_of_singleton. reflexivity. }
  split; [exact Hruns|].
  pose proof (prepare_sf_missing_inputs "config.yml" "/run" 1
                (Q2Qc (1 # 10)) w) as H.
  cbv zeta in H.
  assert (Hy : w_yaml w !! "config.yml"
               = Some {[ "nBufferClusters" := 1%Z ]})
    by (vm_compute; reflexivity).
  assert (Hl : w_listdir w !! path_join "/run" "jacobian_runs"
               = Some ["sim_0001"]) by (vm_compute; reflexivity).
  rewrite Hy, Hl in H. exact (H Hruns).
Defined.

Lemma period_paths_distinct_witness :
  archive_path "/run" 2 <> archive_path "/run" 3
  /\ save_path "/run" <> archive_path "/run" 2.
Proof.
  destruct (period_paths_distinct "/run") as (Harch & _ & Hsave).
  split; [|exact (Hsave 2%Z)].
  intros H. apply Harch in H. discriminate H.
Defined.


Lemma roi_mask_without_buffer_witness :
  let labels := [[Some (Qc_of_Z 1); nan; Some (Qc_of_Z 3)]] in
  let config : gmap string Z := {[ "nBufferClusters" := 0%Z ]} in
  nanmax labels = inr (Some (Qc_of_Z 3))
  /\ config !! "nBufferClusters" = Some 0%Z
  /\ last_ROI_element labels config = inr 3%Z
  /\ grid_lookup (roi_mask labels 3) 0 2 = Some true.
Proof.
  intros labels config.
  assert (Hmax : nanmax labels = inr (Some (Qc_of_Z 3))) by reflexivity.
  assert (Hcfg : config !! "nBufferClusters" = Some 0%Z)
    by (vm_compute; reflexivity).
  destruct (roi_mask_without_buffer labels config 3 Hmax Hcfg)
    as [Hlast Hsel].
  split; [exact Hmax|]. split; [exact Hcfg|]. split; [exact Hlast|].
  apply Hsel. exists (Qc_of_Z 3). reflexivity.
Defined.

Lemma filter_obs_with_mask_unique_index_witness :
  let df := [sample_obs 7 0; sample_obs 8 (Qc_of_Z 10)] in
  NoDup (map obs_index df)
  /\ filter_obs_with_mask sample_mask df = inr [sample_obs 7 0]
  /\ rows_in_mask sample_mask df = [sample_obs 7 0]
  /\ count_obs_in_mask sample_mask df
     = inr (length (rows_in_mask sample_mask df)).
Proof.
  intros df.
  assert (Hnd : NoDup (map obs_index df)).
  { apply (bool_decide_eq_true_1 _). vm_compute. reflexivity. }
  assert (Hrun : filter_obs_with_mask sample_mask df = inr [sample_obs 7 0])
    by (vm_compute; reflexivity).
  destruct (filter_obs_with_mask_unique_index sample_mask df _ Hnd Hrun)
    as [Hout Hcount].
  split; [exact Hnd|]. split; [exact Hrun|]. split; [now symmetry|].
  exact Hcount.
Defined.

Lemma filter_obs_with_mask_sound_witness :
  let df := [sample_obs 7 0; sample_obs 7 (Qc_of_Z 10); sample_obs 8 0] in
  filter_obs_with_mask sample_mask df = inr [sample_obs 8 0]
  /\ [sample_obs 8 0] `sublist_of` df
  /\ lies_in_mask sample_mask (sample_obs 8 0) = true
  /\ count_obs_in_mask sample_mask df = inr 1%nat.
Proof.
  intros df.
  assert (Hrun : filter_obs_with_mask sample_mask df = inr [sample_obs 8 0])
    by (vm_compute; reflexivity).
  destruct (filter_obs_with_mask_sound sample_mask df _ Hrun)
    as (Hsub & Hin & Hcount & _).
  split; [exact Hrun|]. split; [exact Hsub|]. split; [|exact Hcount].
  apply Hin. now left.
Defined.

Lemma filter_obs_with_mask_no_coordinates_witness :
  let mask := {| mask_lat := []; mask_lon := [0]; mask_values := [] |} in
  (mask_lat mask = [] \/ mask_lon mask = [])
  /\ [sample_obs 7 0] <> []
  /\ filter_obs_with_mask mask [sample_obs 7 0] = inl ValueError
  /\ count_obs_in_mask mask [sample_obs 7 0] = inl ValueError.
Proof.
  intros mask.
  assert (Hmask : mask_lat mask = [] \/ mask_lon mask = [])
    by (left; reflexivity).
  assert (Hne : [sample_obs 7 0] <> []) by discriminate.
  split; [exact Hmask|]. split; [exact Hne|].
  exact (proj1 (filter_obs_with_mask_no_coordinates mask [sample_obs 7 0]
                  Hmask) Hne).
Defined.

Lemma nearest_spec_witness :
  let reference_grid := [Qc_of_Z 0; Qc_of_Z 10; Qc_of_Z 20] in
  nearest reference_grid (Qc_of_Z 15) = inr 1%nat
  /\ Qcabs (Qc_of_Z 10 - Qc_of_Z 15) <= Qcabs (Qc_of_Z 20 - Qc_of_Z 15)
  /\ Qcabs (Qc_of_Z 10 - Qc_of_Z 15) < Qcabs (Qc_of_Z 0 - Qc_of_Z 15).
Proof.
  intros reference_grid.
  assert (Hrun : nearest reference_grid (Qc_of_Z 15) = inr 1%nat)
    by (vm_compute; reflexivity).
  destruct (nearest_spec reference_grid (Qc_of_Z 15) 1 Hrun)
    as (g & Hg & Hle & Hlt).
  injection Hg as <-.
  split; [exact Hrun|]. split.
  - exact (Hle 2%nat (Qc_of_Z 20) eq_refl).
  - exact (Hlt 0%nat (Qc_of_Z 0) eq_refl ltac:(lia)).
Defined.

Lemma filter_blended_exact_witness :
  let xlim := (Q2Qc (-130), Q2Qc (-60)) in
  let ylim := (Q2Qc 20, Q2Qc 50) in
  (forall i j v,
     grid_lookup (Blended.longitude_bounds sample_blended) i j = Some v ->
     v <> [])
  /\ filter_blended sample_blended xlim ylim 0 10
     = inr ([0%nat; 0%nat], [0%nat; 3%nat])
  /\ passes_blended sample_blended xlim ylim 0 10 0 3
  /\ ~ passes_blended sample_blended xlim ylim 0 10 0 1
  /\ ~ passes_blended sample_blended xlim ylim 0 10 0 2.
Proof.
  intros xlim ylim.
  assert (Hcorners : forall i j v,
            grid_lookup (Blended.longitude_bounds sample_blended) i j
            = Some v -> v <> []).
  { intros [|i] [|[|[|[|j]]]] v H; vm_compute in H; try discriminate;
      injection H as <-; discriminate. }
  destruct (filter_blended_exact sample_blended xlim ylim 0 10 Hcorners)
    as (rows & cols & Hrun & _ & Hmem).
  assert (Hval : filter_blended sample_blended xlim ylim 0 10
                 = inr ([0%nat; 0%nat], [0%nat; 3%nat]))
    by (vm_compute; reflexivity).
  rewrite Hval in Hrun. injection Hrun as <- <-.
  split; [exact Hcorners|]. split; [exact Hval|]. split; [|split].
  - apply Hmem. simpl. right. now left.
  - intros Hp. apply Hmem in Hp. simpl in Hp.
    apply elem_of_cons in Hp as [Hp|Hp]; [discriminate|].
    apply list_elem_of_singleton in Hp. discriminate.
  - intros Hp. apply Hmem in Hp. simpl in Hp.
    apply elem_of_cons in Hp as [Hp|Hp]; [discriminate|].
    apply list_elem_of_singleton in Hp. discriminate.
Defined.

Lemma filters_row_major_witness :
  let xlim := (Q2Qc (-130), Q2Qc (-60)) in
  let ylim := (Q2Qc 20, Q2Qc 50) in
  filter_blended sample_blended xlim ylim 0 10
  = inr ([0%nat; 0%nat], [0%nat; 3%nat])
  /\ StronglySorted row_major_lt [(0%nat, 0%nat); (0%nat, 3%nat)]
  /\ NoDup [(0%nat, 0%nat); (0%nat, 3%nat)].
Proof.
  intros xlim ylim.
  assert (Hval : filter_blended sample_blended xlim ylim 0 10
                 = inr ([0%nat; 0%nat], [0%nat; 3%nat]))
    by (vm_compute; reflexivity).
  split; [exact Hval|].
  exact (proj2 (filters_row_major xlim ylim 0 10 [0%nat; 0%nat]
                  [0%nat; 3%nat]) sample_blended Hval).
Defined.

Lemma zero_pad_num_hour_spec_witness :
  (0 <= 5 <= 9)%Z
  /\ zero_pad_num_hour 5 = String "0" (pretty 5%Z)
  /\ (23 < 0 \/ 10 <= 23)%Z
  /\ zero_pad_num_hour 23 = pretty 23%Z.
Proof.
  destruct zero_pad_num_hour_spec as (Hpad & Hkeep & _ & _).
  assert (H5 : (0 <= 5 <= 9)%Z) by lia.
  assert (H23 : (23 < 0 \/ 10 <= 23)%Z) by lia.
  split; [exact H5|]. split; [exact (Hpad 5%Z H5)|].
  split; [exact H23|]. exact (Hkeep 23%Z H23).
Defined.

Lemma period_update_keeps_nan_witness :
  let posterior_sf := [[num 3 2; num 1 2; num 1 1]] in
  let sf := [[num 1 1; nan; num 1 1]] in
  let original_emis := [[num 1 1; num 2 1; num 3 1]] in
  let mask := [[true; true; false]] in
  exists new_sf,
    period_update (Q2Qc (1 # 10)) sample_areas mask posterior_sf sf
      original_emis = inr new_sf
    /\ grid_lookup sf 0 1 = Some nan
    /\ grid_lookup new_sf 0 1 = Some nan.
Proof.
  intros posterior_sf sf original_emis mask.
  destruct (completes_inr
              (period_update (Q2Qc (1 # 10)) sample_areas mask posterior_sf
                 sf original_emis))
    as [new_sf Hrun]; [vm_compute; reflexivity|].
  exists new_sf. split; [exact Hrun|]. split; [reflexivity|].
  exact (period_update_keeps_nan (Q2Qc (1 # 10)) sample_areas mask
           posterior_sf sf original_emis new_sf 0 1 (num 1 2) (num 2 1)
           Hrun eq_refl eq_refl eq_refl).
Defined.

Lemma sample_nonnegative (a b c : cell) :
  (forall x, a = Some x -> 0 <= x) ->
  (forall x, b = Some x -> 0 <= x) ->
  (forall x, c = Some x -> 0 <= x) ->
  nonnegative [[a; b; c]].
Proof.
  intros Ha Hb Hc [|i] [|[|[|j]]] x H; try discriminate H.
  - apply Ha. now injection H.
  - apply Hb. now injection H.
  - apply Hc. now injection H.
Defined.

Lemma period_update_nonnegative_witness :
  let posterior_sf := [[num 3 2; num 1 2; num 1 1]] in
  let sf := [[num 1 1; num 1 1; num 1 1]] in
  let original_emis := [[num 1 1; num 0 1; num 3 1]] in
  let mask := [[true; true; false]] in
  exists new_sf,
    0 <= Q2Qc (1 # 10) /\ Q2Qc (1 # 10) <= 1
    /\ nonnegative posterior_sf /\ nonnegative sf
    /\ nonnegative original_emis /\ nonnegative sample_areas
    /\ period_update (Q2Qc (1 # 10)) sample_areas mask posterior_sf sf
         original_emis = inr new_sf
    /\ nonnegative new_sf.
Proof.
  intros posterior_sf sf original_emis mask.
  destruct (completes_inr
              (period_update (Q2Qc (1 # 10)) sample_areas mask posterior_sf
                 sf original_emis))
    as [new_sf Hrun]; [vm_compute; reflexivity|].
  assert (H0 : 0 <= Q2Qc (1 # 10)) by by_evaluation.
  assert (H1 : Q2Qc (1 # 10) <= 1) by by_evaluation.
  assert (Hp : nonnegative posterior_sf)
    by (apply sample_nonnegative; intros x [= <-]; by_evaluation).
  assert (Hs : nonnegative sf)
    by (apply sample_nonnegative; intros x [= <-]; by_evaluation).
  assert (Ho : nonnegative original_emis)
    by (apply sample_nonnegative; intros x [= <-]; by_evaluation).
  assert (Ha : nonnegative sample_areas)
    by (apply sample_nonnegative; intros x [= <-]; by_evaluation).
  exists new_sf. repeat (split; [assumption|]).
  exact (period_update_nonnegative (Q2Qc (1 # 10)) sample_areas mask
           posterior_sf sf original_emis new_sf H0 H1 Hp Hs Ho Ha Hrun).
Defined.
